(** * PointerEvents: the pointer-tracking engine and its event dispatcher

    A shallow embedding of [src/PointerEvents.js]: the [Pointer] class, the
    [PointerArray] class with its [update] method, the helpers
    [isTouchInTarget] and [getClosest], and the listener registry of the
    [PointerEvents] class ([addEventListener], [hasEventListener],
    [removeEventListener], [dispatchEvent]).

    Modelling conventions.
    - JavaScript objects have identity: [getClosest(closest, this) !== this[i]]
      and [indexOf] compare references.  [Pointer] objects therefore live in
      an object store ([Heap], a list indexed by address); arrays hold
      addresses ([Ref]).  [new Pointer(...)] allocates the next address.
    - Coordinates are integers ([Z]), and [-], [*] and [+] on them are the
      integer operations.  [Math.sqrt] is the square root of IEEE 754
      binary64: [Math_sqrt] yields the double nearest to the root (ties to
      even), and [<] on distances compares these doubles, so that two
      radicands whose roots round to the same double are at the same
      distance.  The JavaScript computes the same numbers as long as the
      radicand is an integer of at most 2^53, which it is for positions of
      at most 2^25 in magnitude ([in_range]); fractional coordinates, [NaN]
      and overflow to [Infinity] are outside the model.
    - A property that may hold [undefined] is an [option]. *)

From Stdlib Require Import ZArith List Lia Bool.
From Stdlib Require Import Floats.SpecFloat.
From stdpp Require Import base option list gmap strings.

Local Open Scope Z_scope.

(** ** DOM elements *)

(** An element is known by its identity and its chain of ancestors
    ([parentElement]); [===] on elements compares identities. *)
Inductive Element : Type :=
  | Root (id : nat)
  | Child (id : nat) (parent : Element).

Definition el_id (e : Element) : nat :=
  match e with Root i | Child i _ => i end.
Definition parentElement (e : Element) : option Element :=
  match e with Root _ => None | Child _ p => Some p end.

Definition same_element (a b : Element) : bool := Nat.eqb (el_id a) (el_id b).

(** [getBoundingClientRect()]: only [x] and [y] are read by [update]. *)
Record Rect : Type := { rect_x : Z; rect_y : Z }.

(** One entry of [event.touches], or the mouse event itself seen as one. *)
Record Touch : Type := {
  touch_target : option Element;
  touch_clientX : Z;
  touch_clientY : Z
}.

(** The raw DOM event handed to [PointerArray.update]. *)
Record Event : Type := {
  ev_touches : option (list Touch);   (* [undefined] on mouse events *)
  ev_target : option Element;
  ev_clientX : Z;
  ev_clientY : Z;
  ev_buttons : option Z;              (* [undefined] on touch events *)
  ev_altKey : bool;
  ev_ctrlKey : bool;
  ev_metaKey : bool;
  ev_shiftKey : bool
}.

(** ** class Pointer *)

Module Pointer.

Record t : Type := {
  pointerID : Z;
  target : Element;
  type : string;
  pointerType : string;
  clientX : Z;
  clientY : Z;
  x : Z;
  y : Z;
  startX : Z;
  startY : Z;
  movementX : Z;
  movementY : Z;
  distanceX : Z;
  distanceY : Z;
  button : Z;
  buttons : Z;
  (* properties the constructor does not create *)
  movementXY : option Z;
  altKey : option bool;
  ctrlKey : option bool;
  metaKey : option bool;
  shiftKey : option bool
}.

(** [constructor(pointerID, target, type, pointerType)] *)
Definition new (pointerID : Z) (target : Element) (type pointerType : string) : t :=
  {| pointerID := pointerID; target := target; type := type;
     pointerType := pointerType;
     clientX := 0; clientY := 0; x := 0; y := 0;
     startX := 0; startY := 0;
     movementX := 0; movementY := 0;
     distanceX := 0; distanceY := 0;
     button := -1; buttons := 0;
     movementXY := None;
     altKey := None; ctrlKey := None; metaKey := None; shiftKey := None |}.

(** The object [clone()] builds: a [new Pointer] followed by the twelve
    assignments of the method body, in particular
    [pointer.movementXY = this.movementXY]. *)
Definition clone_value (this : t) : t :=
  let pointer := new (pointerID this) (target this) (type this) (pointerType this) in
  {| pointerID := pointerID pointer; target := target pointer;
     type := type pointer; pointerType := pointerType pointer;
     clientX := clientX this;
     clientY := clientY this;
     x := x this;
     y := y this;
     startX := startX this;
     startY := startY this;
     movementX := movementX this;
     movementY := movementY pointer;
     movementXY := movementXY this;
     distanceX := distanceX this;
     distanceY := distanceY this;
     button := button this;
     buttons := buttons this;
     altKey := altKey pointer; ctrlKey := ctrlKey pointer;
     metaKey := metaKey pointer; shiftKey := shiftKey pointer |}.

(** [update(previous)], as a function of the receiver's fields. *)
Definition update (this previous : t) : t :=
  let startX' := startX previous in
  let startY' := startY previous in
  {| pointerID := pointerID previous;
     startX := startX';
     startY := startY';
     movementX := x this - x previous;
     movementY := y this - y previous;
     distanceX := x this - startX';
     distanceY := y this - startY';
     target := target this; type := type this; pointerType := pointerType this;
     clientX := clientX this; clientY := clientY this;
     x := x this; y := y this;
     button := button this; buttons := buttons this;
     movementXY := movementXY this;
     altKey := altKey this; ctrlKey := ctrlKey this;
     metaKey := metaKey this; shiftKey := shiftKey this |}.

End Pointer.

(** ** The object store *)

(** An address in the store. *)
Abbreviation Ref := nat.
Abbreviation Heap := (list Pointer.t).

#[global] Instance Pointer_inhabited : Inhabited Pointer.t :=
  populate (Pointer.new 0 (Root 0) "" "").

(** [o.f] for an object reference [o]. *)
Definition deref (h : Heap) (r : Ref) : Pointer.t := h !!! r.

(** [new]: the fresh object gets the next address. *)
Definition alloc (h : Heap) (p : Pointer.t) : Heap * Ref := (h ++ [p], length h).

(** [this.clone()] on the object at [r]. *)
Definition clone (h : Heap) (r : Ref) : Heap * Ref :=
  alloc h (Pointer.clone_value (deref h r)).

(** ** isTouchInTarget *)

(** The [while (eventTarget)] loop, from a non-null [eventTarget]. *)
Fixpoint isTouchInTarget_walk (eventTarget : Element) (target : Element) : bool :=
  if same_element eventTarget target then true
  else match eventTarget with
       | Child _ parent => isTouchInTarget_walk parent target
       | Root _ => false
       end.

Definition isTouchInTarget (event : Touch) (target : Element) : bool :=
  match touch_target event with
  | Some eventTarget => isTouchInTarget_walk eventTarget target
  | None => false
  end.

(** ** getClosest *)

(** [Math.sqrt(s)] for an integer [s], which as the radicand of a distance
    is never negative: the double nearest to the root of [s], ties to even,
    as its significand [m] and exponent [e] (the double is [m * 2^e], with
    [2^52 <= m <= 2^53] unless [s] is [0]).  The root of
    [s * 4^k] is taken in integers with at least two bits more than the
    significand holds; those bits, and whether the integer root is exact,
    decide the rounding. *)
Definition Math_sqrt (s : Z) : Z * Z :=
  if s <=? 0 then (0, 0) else
  let k := Z.max 0 (54 - Z.log2 s / 2) in
  let scaled := s * 4 ^ k in
  let q := Z.sqrt scaled in
  let d := Z.log2 q - 52 in
  let m0 := q / 2 ^ d in
  let r := q mod 2 ^ d in
  let half := 2 ^ (d - 1) in
  let up := (half <? r) || ((r =? half) && (negb (q * q =? scaled) || Z.odd m0)) in
  ((if up then m0 + 1 else m0), d - k).

(** What it is for [m * 2^e] to be the double nearest to the root of [s]:
    the root lies from [2^52 * 2^e] up to [2^53 * 2^e], where the doubles
    are [2^e] apart, and between [(m - 1/2) * 2^e] and [(m + 1/2) * 2^e];
    where it is one of these two, [m] is even.  The inequalities are written
    squared and scaled by [4^k], [half] being [2^e * 2^k / 2]. *)
Definition nearest_double (s m e : Z) : Prop :=
  exists k : Z,
    0 <= k /\ 1 <= e + k /\
    let half := 2 ^ (e + k - 1) in
    let scaled := s * 4 ^ k in
    2 ^ 52 <= m <= 2 ^ 53 /\
    (2 ^ 53 * half) * (2 ^ 53 * half) <= scaled < (2 ^ 54 * half) * (2 ^ 54 * half) /\
    ((2 * m - 1) * half) * ((2 * m - 1) * half) <= scaled
      <= ((2 * m + 1) * half) * ((2 * m + 1) * half) /\
    ((scaled = ((2 * m - 1) * half) * ((2 * m - 1) * half) \/
      scaled = ((2 * m + 1) * half) * ((2 * m + 1) * half)) -> Z.even m = true).

(** The place of the double [m * 2^e] among the doubles from [0] upwards:
    a greater double has a greater rank, and [(2^53, e)] and [(2^52, e + 1)],
    which are the same double, have the same. *)
Definition rank (d : Z * Z) : Z :=
  let '(m, e) := d in
  if m =? 0 then 0 else (e + 53) * 2 ^ 52 + (m - 2 ^ 52) + 1.

(** The double [Math.sqrt(s)], by its rank. *)
Definition rounded (s : Z) : Z := rank (Math_sqrt s).
Arguments rounded : simpl never.

(** The same root in the Standard Library's model of IEEE 754 binary64
    (53 bits of precision, exponents below 1024), for comparison. *)
Definition binary64_sqrt (s : Z) : spec_float :=
  SFsqrt 53 1024 (binary_normalize 53 1024 s 0 false).

Definition same_double (d : Z * Z) (f : spec_float) : bool :=
  match d, f with
  | (0, _), S754_zero false => true
  | (m, e), S754_finite false m' e' =>
      if m =? 2 ^ 53 then (Z.pos m' =? 2 ^ 52) && (e' =? e + 1)
      else (Z.pos m' =? m) && (e' =? e)
  | _, _ => false
  end.

(** Radicands on which the two are compared: the small ones, those around
    2^52, where the doubles stop separating the roots of neighbouring
    integers, and the greatest that a sum of squares of integers is computed
    to without rounding. *)
Definition radicands : list Z :=
  seqZ 0 4096 ++ seqZ (2 ^ 52 - 512) 1024 ++ seqZ (2 ^ 53 - 1023) 1024.

(** The value of [Math.sqrt(s)], or [Infinity]. *)
Inductive Dist : Type :=
  | Sqrt (s : Z)
  | Infinity.

(** [a < b] on distances: the doubles are compared. *)
Definition dist_lt (a b : Dist) : bool :=
  match a, b with
  | Sqrt s, Sqrt s' => rounded s <? rounded s'
  | Sqrt _, Infinity => true
  | Infinity, _ => false
  end.

(** The radicand [dx * dx + dy * dy] for the objects at [a] and [b]. *)
Definition dist2 (h : Heap) (a b : Ref) : Z :=
  let dx := Pointer.x (deref h a) - Pointer.x (deref h b) in
  let dy := Pointer.y (deref h a) - Pointer.y (deref h b) in
  dx * dx + dy * dy.

(** [Math.sqrt(dx * dx + dy * dy)] for the objects at [a] and [b], by its
    rank among the doubles. *)
Definition distance (h : Heap) (a b : Ref) : Z := rounded (dist2 h a b).

(** The loop of [getClosest] over the rest of [pointers], with the two
    locals [closest] ([None] is [undefined]) and [closestDist]. *)
Fixpoint getClosest_loop (h : Heap) (pointer : Ref) (pointers : list Ref)
    (closest : option Ref) (closestDist : Dist) : option Ref :=
  match pointers with
  | [] => closest
  | pi :: rest =>
      let dist := Sqrt (dist2 h pointer pi) in
      if dist_lt dist closestDist
      then getClosest_loop h pointer rest (Some pi) dist
      else getClosest_loop h pointer rest closest closestDist
  end.

Definition getClosest (h : Heap) (pointer : Ref) (pointers : list Ref) : option Ref :=
  getClosest_loop h pointer pointers None Infinity.

(** ** Array helpers *)

(** [array.indexOf(r)]: the first index holding [r], or [-1]. *)
Fixpoint indexOf_from (l : list Ref) (r : Ref) (i : Z) : Z :=
  match l with
  | [] => -1
  | a :: rest => if Nat.eqb a r then i else indexOf_from rest r (i + 1)
  end.

Definition indexOf (l : list Ref) (r : Ref) : Z := indexOf_from l r 0.

(** [array.splice(start, 1)]: a negative [start] counts from the end, a
    [start] past the end deletes nothing. *)
Definition splice1 (l : list Ref) (start : Z) : list Ref :=
  let len := Z.of_nat (length l) in
  let k := if start <? 0 then Z.max (len + start) 0 else Z.min start len in
  delete (Z.to_nat k) l.

(** ** class PointerArray *)

Module PointerArray.

(** The array's own elements ([this[0..length-1]]) and its three extra
    properties. *)
Record t : Type := {
  elems : list Ref;
  target : Element;
  previous : list Ref;
  removed : list Ref
}.

(** [constructor(domElement)] *)
Definition new (domElement : Element) : t :=
  {| elems := []; target := domElement; previous := []; removed := [] |}.

(** The [if / else if / else if] chain that sets [pointer.button];
    [button] is the value the property holds before it. *)
Definition button_of (buttons : Z) (button : Z) : Z :=
  if (buttons =? 1) || (buttons =? 3) || (buttons =? 5) || (buttons =? 7) then 1
  else if (buttons =? 2) || (buttons =? 6) then 2
  else if buttons =? 4 then 3
  else button.

Section Update.
Variables (this_target : Element) (rect : Rect) (event : Event)
          (type pointerType : string) (buttons : Z).

(** The pointer built from [touches[i]] in the first loop of [update]. *)
Definition sample (id : Z) (touch : Touch) : Pointer.t :=
  let pointer := Pointer.new id this_target type pointerType in
  {| Pointer.pointerID := Pointer.pointerID pointer;
     Pointer.target := Pointer.target pointer;
     Pointer.type := Pointer.type pointer;
     Pointer.pointerType := Pointer.pointerType pointer;
     Pointer.clientX := touch_clientX touch;
     Pointer.clientY := touch_clientY touch;
     Pointer.x := touch_clientX touch - rect_x rect;
     Pointer.y := touch_clientY touch - rect_y rect;
     Pointer.startX := touch_clientX touch - rect_x rect;
     Pointer.startY := touch_clientY touch - rect_y rect;
     Pointer.movementX := Pointer.movementX pointer;
     Pointer.movementY := Pointer.movementY pointer;
     Pointer.distanceX := Pointer.distanceX pointer;
     Pointer.distanceY := Pointer.distanceY pointer;
     Pointer.buttons := buttons;
     Pointer.button := button_of buttons (Pointer.button pointer);
     Pointer.movementXY := Pointer.movementXY pointer;
     Pointer.altKey := Some (ev_altKey event);
     Pointer.ctrlKey := Some (ev_ctrlKey event);
     Pointer.metaKey := Some (ev_metaKey event);
     Pointer.shiftKey := Some (ev_shiftKey event) |}.

(** First loop of [update]: one new [Pointer] per touch that passes the
    target test, numbered by the local [id]. *)
Fixpoint capture (h : Heap) (this : list Ref) (id : Z) (touches : list Touch)
    : Heap * list Ref :=
  match touches with
  | [] => (h, this)
  | touch :: rest =>
      if isTouchInTarget touch this_target || bool_decide (ev_touches event = None)
      then
        let '(h', pointer) := alloc h (sample id touch) in
        capture h' (this ++ [pointer]) (id + 1) rest
      else capture h this id rest
  end.
End Update.

(** Second loop of [update], over the elements [todo] still to visit.
    [this] is the whole array.  [matched] records, in order, the pairs
    [(this[i], closest)] on which [this[i].update(closest)] ran; it is not
    read by the loop.  [None] is the [TypeError] of reading [.x] of an
    [undefined] closest. *)
Fixpoint match_loop (h : Heap) (this todo previous : list Ref)
    (matched : list (Ref * Ref)) : option (Heap * list Ref * list (Ref * Ref)) :=
  match todo with
  | [] => Some (h, previous, matched)
  | thisi :: rest =>
      if Nat.eqb (length previous) 0 then match_loop h this rest previous matched
      else
        match getClosest h thisi previous with
        | None => None
        | Some closest =>
            if bool_decide (getClosest h closest this = Some thisi)
            then
              let h' := <[thisi := Pointer.update (deref h thisi) (deref h closest)]> h in
              match_loop h' this rest
                (splice1 previous (indexOf previous closest))
                (matched ++ [(thisi, closest)])
            else match_loop h this rest previous matched
        end
  end.

(** Last loop of [update]: [for (let i = previous.length; i--;)].  The
    counter is the value of [i] before the decrement.  [previous[i]] is
    always there, since the loop only ever removes the last element; the
    [None] branch keeps the function total. *)
Fixpoint drain (i : nat) (previous removed : list Ref) : list Ref * list Ref :=
  match i with
  | O => (previous, removed)
  | S i' =>
      let removed' :=
        match previous !! i' with
        | Some p => removed ++ [p]
        | None => removed
        end in
      drain i' (splice1 previous (Z.of_nat i')) removed'
  end.

(** What a call of [update] leaves behind: the store, the array, and the
    record of the pairs matched in this frame. *)
Record Result : Type := {
  heap : Heap;
  self : t;
  matched : list (Ref * Ref)
}.

(** [event.touches ? event.touches : [event]] *)
Definition touches_of (event : Event) : list Touch :=
  match ev_touches event with
  | Some ts => ts
  | None => [ {| touch_target := ev_target event;
                 touch_clientX := ev_clientX event;
                 touch_clientY := ev_clientY event |} ]
  end.

(** [event.touches ? 'touch' : 'mouse'] *)
Definition pointerType_of (event : Event) : string :=
  match ev_touches event with Some _ => "touch" | None => "mouse" end.

(** [event.buttons || 0] *)
Definition buttons_of (event : Event) : Z :=
  match ev_buttons event with
  | Some b => if b =? 0 then 0 else b
  | None => 0
  end.

(** [update(event, type, remove)] *)
Definition update (h : Heap) (this : t) (rect : Rect) (event : Event)
    (type : string) (remove : bool) : option Result :=
  let previous0 := [] ++ elems this in
  let removed0 : list Ref := [] in
  let touches := touches_of event in
  let pointerType := pointerType_of event in
  let buttons := buttons_of event in
  let '(h1, this1) :=
    if remove then (h, [])
    else capture (target this) rect event type pointerType buttons h [] 0 touches in
  let looped :=
    if remove then Some (h1, previous0, [])
    else match_loop h1 this1 this1 previous0 [] in
  match looped with
  | None => None
  | Some (h2, previous2, matched) =>
      let '(previous3, removed3) := drain (length previous2) previous2 removed0 in
      Some {| heap := h2;
              self := {| elems := this1; target := target this;
                         previous := previous3; removed := removed3 |};
              matched := matched |}
  end.

End PointerArray.

(** ** class PointerEvents: the listener registry *)

Module PointerEvents.

(** A listener is a function object; [indexOf] compares references, so a
    listener is known by its identity. *)
Abbreviation Listener := nat.

(** [this._listeners]: [undefined], or an object from event type to the
    array of its listeners. *)
Abbreviation Listeners := (option (gmap string (list Listener))).

(** The listeners of [type], [[]] when there is no such array. *)
Definition listeners_of (ls : Listeners) (type : string) : list Listener :=
  match ls with
  | Some m => default [] (m !! type)
  | None => []
  end.

Definition addEventListener (ls : Listeners) (type : string) (listener : Listener)
    : Listeners :=
  let m := default ∅ ls in
  let m := <[type := default [] (m !! type)]> m in
  let array := default [] (m !! type) in
  if indexOf array listener =? -1
  then Some (<[type := array ++ [listener]]> m)
  else Some m.

Definition hasEventListener (ls : Listeners) (type : string) (listener : Listener)
    : bool :=
  match ls with
  | None => false
  | Some m =>
      match m !! type with
      | Some array => negb (indexOf array listener =? -1)
      | None => false
      end
  end.

Definition removeEventListener (ls : Listeners) (type : string) (listener : Listener)
    : Listeners :=
  match ls with
  | None => None
  | Some m =>
      match m !! type with
      | Some array =>
          let index := indexOf array listener in
          if negb (index =? -1)
          then Some (<[type := splice1 array index]> m)
          else Some m
      | None => Some m
      end
  end.

(** [delete this._listeners], as [dispose] does. *)
Definition deleteListeners (ls : Listeners) : Listeners := None.

Section Dispatch.
(** The events, their [type] property, and what calling a listener on
    an event does to the registry (a listener is free to register and
    remove listeners, or to dispatch again). *)
Context {Ev : Type}.
Variable ev_type : Ev -> string.
Variable call : Listener -> Ev -> Listeners -> Listeners.

(** The [for] loop of [dispatchEvent] over the copy [array]; [invoked]
    records the listeners called, in order. *)
Fixpoint dispatch_loop (array : list Listener) (event : Ev) (ls : Listeners)
    (invoked : list Listener) : Listeners * list Listener :=
  match array with
  | [] => (ls, invoked)
  | f :: rest => dispatch_loop rest event (call f event ls) (invoked ++ [f])
  end.

Definition dispatchEvent (ls : Listeners) (event : Ev)
    : Listeners * list Listener :=
  match ls with
  | None => (ls, [])
  | Some m =>
      match m !! ev_type event with
      | Some registered =>
          let array := registered in   (* [.slice(0)] *)
          dispatch_loop array event ls []
      | None => (ls, [])
      end
  end.
End Dispatch.

(** The registries the methods can produce, starting from a fresh
    instance (no [_listeners] property). *)
Inductive api_reachable : Listeners -> Prop :=
  | api_fresh : api_reachable None
  | api_add ls type listener :
      api_reachable ls -> api_reachable (addEventListener ls type listener)
  | api_remove ls type listener :
      api_reachable ls -> api_reachable (removeEventListener ls type listener)
  | api_dispose ls :
      api_reachable ls -> api_reachable (deleteListeners ls).

End PointerEvents.

(** ** Reachable states of a [PointerArray] *)

(** The array starts empty in some store; [update] is the only method that
    changes it; other code may allocate objects in between (for instance
    through [clone]). *)
Inductive reachable : Heap -> PointerArray.t -> Prop :=
  | reach_new h domElement : reachable h (PointerArray.new domElement)
  | reach_update h a rect event type remove res :
      reachable h a ->
      PointerArray.update h a rect event type remove = Some res ->
      reachable (PointerArray.heap res) (PointerArray.self res)
  | reach_alloc h a p :
      reachable h a -> reachable (fst (alloc h p)) a.

(** ** Scenarios *)

Module Scenario.

Definition div1 : Element := Child 1 (Root 0).
Definition origin : Rect := {| rect_x := 0; rect_y := 0 |}.

Definition touch_at (cx cy : Z) : Touch :=
  {| touch_target := Some div1; touch_clientX := cx; touch_clientY := cy |}.

Definition touch_event (ts : list Touch) : Event :=
  {| ev_touches := Some ts; ev_target := Some div1;
     ev_clientX := 0; ev_clientY := 0; ev_buttons := None;
     ev_altKey := false; ev_ctrlKey := false;
     ev_metaKey := false; ev_shiftKey := false |}.

Definition mouse_event (cx cy : Z) (buttons : Z) : Event :=
  {| ev_touches := None; ev_target := Some div1;
     ev_clientX := cx; ev_clientY := cy; ev_buttons := Some buttons;
     ev_altKey := false; ev_ctrlKey := false;
     ev_metaKey := false; ev_shiftKey := false |}.

(** A sequence of [update] calls on a fresh array over [div1]. *)
Definition run (calls : list (Event * string * bool)) : option PointerArray.Result :=
  foldl (fun acc c =>
           match acc with
           | None => None
           | Some r =>
               let '(event, type, remove) := c in
               PointerArray.update (PointerArray.heap r) (PointerArray.self r)
                 origin event type remove
           end)
        (Some {| PointerArray.heap := [];
                 PointerArray.self := PointerArray.new div1;
                 PointerArray.matched := [] |})
        calls.

(** The current pointers of a result, read from its store. *)
Definition current (r : PointerArray.Result) : list Pointer.t :=
  map (deref (PointerArray.heap r)) (PointerArray.elems (PointerArray.self r)).

End Scenario.

(** ** makePointerEvent *)

(** The object dispatched for a pointer event: [Object.assign] copies the
    array's indexed elements and its [target], [previous] and [removed]
    properties beside [type], and [length] is set from the array.  (The
    event shares the arrays [previous] and [removed] with the
    [PointerArray]; their contents are given as they are when the event is
    made.) *)
Record PointerEvent : Type := {
  pe_type : string;
  pe_items : list Ref;
  pe_target : Element;
  pe_previous : list Ref;
  pe_removed : list Ref;
  pe_length : nat
}.

Definition makePointerEvent (type : string) (pointers : PointerArray.t) : PointerEvent :=
  {| pe_type := type;
     pe_items := PointerArray.elems pointers;
     pe_target := PointerArray.target pointers;
     pe_previous := PointerArray.previous pointers;
     pe_removed := PointerArray.removed pointers;
     pe_length := length (PointerArray.elems pointers) |}.

(** ** The mouse and touch closures of the [PointerEvents] constructor *)

Module Handlers.

(** What the closures share: the local [dragging], the object store and
    [scope.pointers]. *)
Record State : Type := {
  dragging : bool;
  store : Heap;
  pointers : PointerArray.t
}.

(** The constructor's state: [dragging = false] and a new [PointerArray]. *)
Definition initial (h : Heap) (domElement : Element) : State :=
  {| dragging := false; store := h; pointers := PointerArray.new domElement |}.

(** The two nodes native listeners are attached to, and the closures that
    are attached and detached while the instance lives. *)
Inductive Node : Type := domElement | document.
Inductive Closure : Type :=
  | MouseDown | MouseMove | MouseHover | MouseUp
  | TouchDown | TouchMove | TouchHover | TouchUp.

(** What a closure does to the world outside the state, in order. *)
Inductive Effect : Type :=
  | preventDefault
  | focus
  | removeNative (node : Node) (type : string) (closure : Closure)
  | addNative (node : Node) (type : string) (closure : Closure)
  | dispatchEvent (event : PointerEvent).

(** [scope.pointers.update(event, type, remove);
     scope.dispatchEvent(makePointerEvent(type, scope.pointers))], after the
    effects [before].  [rect] is what [getBoundingClientRect()] answers
    during the call; [None] is an exception thrown by [update]. *)
Definition update_and_dispatch (st : State) (rect : Rect) (event : Event)
    (type : string) (remove : bool) (before : list Effect)
    : option (State * list Effect) :=
  match PointerArray.update (store st) (pointers st) rect event type remove with
  | None => None
  | Some res =>
      Some ({| dragging := dragging st;
               store := PointerArray.heap res;
               pointers := PointerArray.self res |},
            before ++ [dispatchEvent (makePointerEvent type (PointerArray.self res))])
  end.

Definition _onMouseDown (st : State) (rect : Rect) (event : Event)
    : option (State * list Effect) :=
  if dragging st then Some (st, [preventDefault])
  else
    update_and_dispatch
      {| dragging := true; store := store st; pointers := pointers st |}
      rect event "pointerdown" false
      [preventDefault;
       removeNative domElement "mousemove" MouseHover;
       addNative document "mousemove" MouseMove;
       addNative document "mouseup" MouseUp;
       focus].

Definition _onMouseMove (st : State) (rect : Rect) (event : Event)
    : option (State * list Effect) :=
  update_and_dispatch st rect event "pointermove" false [preventDefault].

Definition _onMouseHover (st : State) (rect : Rect) (event : Event)
    : option (State * list Effect) :=
  update_and_dispatch st rect event "pointerhover" true [].

Definition _onMouseUp (st : State) (rect : Rect) (event : Event)
    : option (State * list Effect) :=
  if bool_decide (ev_buttons event = Some 0)
  then
    update_and_dispatch
      {| dragging := false; store := store st; pointers := pointers st |}
      rect event "pointerup" true
      [addNative domElement "mousemove" MouseHover;
       removeNative document "mousemove" MouseMove;
       removeNative document "mouseup" MouseUp]
  else Some (st, []).

Definition _onTouchDown (st : State) (rect : Rect) (event : Event)
    : option (State * list Effect) :=
  update_and_dispatch st rect event "pointerdown" false [preventDefault; focus].

Definition _onTouchMove (st : State) (rect : Rect) (event : Event)
    : option (State * list Effect) :=
  update_and_dispatch st rect event "pointermove" false [preventDefault].

Definition _onTouchHover (st : State) (rect : Rect) (event : Event)
    : option (State * list Effect) :=
  update_and_dispatch st rect event "pointerhover" false [].

Definition _onTouchUp (st : State) (rect : Rect) (event : Event)
    : option (State * list Effect) :=
  update_and_dispatch st rect event "pointerup" false [].

(** The browser calls a closure with an event. *)
Definition handle (closure : Closure) : State -> Rect -> Event
    -> option (State * list Effect) :=
  match closure with
  | MouseDown => _onMouseDown
  | MouseMove => _onMouseMove
  | MouseHover => _onMouseHover
  | MouseUp => _onMouseUp
  | TouchDown => _onTouchDown
  | TouchMove => _onTouchMove
  | TouchHover => _onTouchHover
  | TouchUp => _onTouchUp
  end.

(** A succession of such calls, and all their effects in order. *)
Fixpoint handle_all (st : State) (calls : list (Closure * Rect * Event))
    : option (State * list Effect) :=
  match calls with
  | [] => Some (st, [])
  | (closure, rect, event) :: rest =>
      match handle closure st rect event with
      | None => None
      | Some (st', effects) =>
          match handle_all st' rest with
          | None => None
          | Some (st'', effects') => Some (st'', effects ++ effects')
          end
      end
  end.

End Handlers.

(** * Vocabulary of the statements *)

(** A pointer as the first loop of [update] creates it. *)
Definition is_sample (this_target : Element) (rect : Rect) (event : Event)
    (type pointerType : string) (buttons : Z) (p : Pointer.t) : Prop :=
  exists id touch,
    p = PointerArray.sample this_target rect event type pointerType buttons id touch.

(** [getClosest] reads nothing but the [x] and [y] of the objects. *)
Definition same_positions (h h' : Heap) : Prop :=
  forall r, Pointer.x (deref h r) = Pointer.x (deref h' r)
         /\ Pointer.y (deref h r) = Pointer.y (deref h' r).

(** Well-formed arrays: no object twice, every object in the store. *)
Definition wf (h : Heap) (a : PointerArray.t) : Prop :=
  NoDup (PointerArray.elems a)
  /\ forall r, r ∈ PointerArray.elems a -> (r < length h)%nat.

(** What one call of [update] does, from store [h] and array [a]; [news]
    are the pointers created by the call. *)
Record update_facts (h : Heap) (a : PointerArray.t) (rect : Rect)
    (event : Event) (type : string) (remove : bool)
    (news : list Pointer.t) (res : PointerArray.Result) : Prop := {
  uf_elems :
    PointerArray.elems (PointerArray.self res) = seq (length h) (length news);
  uf_target :
    PointerArray.target (PointerArray.self res) = PointerArray.target a;
  uf_previous :
    PointerArray.previous (PointerArray.self res) = [];
  uf_removed :
    PointerArray.removed (PointerArray.self res)
    = reverse (list_difference (PointerArray.elems a) (PointerArray.matched res).*2);
  uf_length :
    length (PointerArray.heap res) = (length h + length news)%nat;
  uf_remove :
    remove = true ->
    news = [] /\ PointerArray.matched res = [] /\ PointerArray.heap res = h;
  uf_samples :
    Forall (is_sample (PointerArray.target a) rect event type
              (PointerArray.pointerType_of event) (PointerArray.buttons_of event))
           news;
  uf_positions :
    same_positions (PointerArray.heap res) (h ++ news);
  uf_nodup :
    NoDup (PointerArray.matched res).*1;
  uf_new :
    forall r, r ∈ (PointerArray.matched res).*1 ->
              r ∈ PointerArray.elems (PointerArray.self res);
  uf_old :
    forall r, r ∈ (PointerArray.matched res).*2 -> r ∈ PointerArray.elems a;
  uf_frame :
    forall r, r ∉ (PointerArray.matched res).*1 ->
              deref (PointerArray.heap res) r = deref (h ++ news) r;
  uf_rebased :
    forall n p, (n, p) ∈ PointerArray.matched res ->
      deref (PointerArray.heap res) n
      = Pointer.update (deref (h ++ news) n) (deref h p);
  uf_mutual :
    forall pre n p post, PointerArray.matched res = pre ++ (n, p) :: post ->
      getClosest (PointerArray.heap res) n
        (list_difference (PointerArray.elems a) pre.*2) = Some p
      /\ getClosest (PointerArray.heap res) p
           (PointerArray.elems (PointerArray.self res)) = Some n
}.

(** The local position of the object at [r]. *)
Definition position (h : Heap) (r : Ref) : Z * Z :=
  (Pointer.x (deref h r), Pointer.y (deref h r)).

(** The Euclidean distance between two positions as a double: the double
    nearest to the root of the sum of the squared differences of the
    coordinates, by its rank among the doubles. *)
Definition euclidean (u v : Z * Z) : Z :=
  rounded ((u.1 - v.1) * (u.1 - v.1) + (u.2 - v.2) * (u.2 - v.2)).

(** Coordinates for which the JavaScript computes with integers: client
    coordinates and the origin of the rectangle of at most 2^24 in magnitude,
    hence positions of at most 2^25, differences of at most 2^26 and
    radicands of at most 2^53, none of which is rounded. *)
Definition pixel (z : Z) : bool := (-16777216 <=? z) && (z <=? 16777216).
Definition in_range (z : Z) : bool := (-33554432 <=? z) && (z <=? 33554432).

Definition positions_in_range (h : Heap) (l : list Ref) : bool :=
  forallb (fun r => in_range (Pointer.x (deref h r))
                    && in_range (Pointer.y (deref h r))) l.

Definition samples_in_range (rect : Rect) (event : Event) : bool :=
  pixel (rect_x rect) && pixel (rect_y rect)
  && forallb (fun t => pixel (touch_clientX t) && pixel (touch_clientY t))
       (PointerArray.touches_of event).

(** The matched pairs of a result, each side given by its position. *)
Definition matched_positions (res : PointerArray.Result) : list ((Z * Z) * (Z * Z)) :=
  map (fun np => (position (PointerArray.heap res) (fst np),
                  position (PointerArray.heap res) (snd np)))
      (PointerArray.matched res).

(** Identity and origin of the current pointers of a result. *)
Definition identities (res : PointerArray.Result) : list (Z * (Z * Z)) :=
  map (fun p => (Pointer.pointerID p, (Pointer.startX p, Pointer.startY p)))
      (Scenario.current res).

(** A second frame after pointers at (0,0) and (10,0). *)
Definition two_down : PointerArray.Result :=
  default {| PointerArray.heap := []; PointerArray.self := PointerArray.new Scenario.div1;
             PointerArray.matched := [] |}
    (Scenario.run
       [(Scenario.touch_event [Scenario.touch_at 0 0; Scenario.touch_at 10 0],
         "pointerdown", false)]).

(** The two pointers move towards each other, to (1,0) and (9,0). *)
Definition approach : Event :=
  Scenario.touch_event [Scenario.touch_at 1 0; Scenario.touch_at 9 0].

(** Every pair (n, p) of the record is mutually nearest: when it was made,
    [p] was [getClosest] of [n] among the previous pointers not yet consumed
    and [n] was [getClosest] of [p] among all pointers of the frame, and no
    pointer of either array was at a lesser Euclidean distance. *)
Definition mutually_nearest (h : Heap) (a : PointerArray.t)
    (res : PointerArray.Result) : Prop :=
  forall pre n p post,
    PointerArray.matched res = pre ++ (n, p) :: post ->
    let h' := PointerArray.heap res in
    let this := PointerArray.elems (PointerArray.self res) in
    let remaining := list_difference (PointerArray.elems a) pre.*2 in
    n ∈ this /\ p ∈ remaining /\
    Pointer.pointerID (deref h' n) = Pointer.pointerID (deref h p) /\
    getClosest h' n remaining = Some p /\
    getClosest h' p this = Some n /\
    (forall q, q ∈ remaining ->
       euclidean (position h' n) (position h' p)
       <= euclidean (position h' n) (position h' q)) /\
    (forall m, m ∈ this ->
       euclidean (position h' p) (position h' n)
       <= euclidean (position h' p) (position h' m)).

(** From previous pointers at (0,0) and (10,0), the samples (1,0) and (9,0)
    are paired (1,0) with (0,0) and (9,0) with (10,0), whichever comes first,
    and keep the identity and origin of their own predecessor. *)
Definition uncrossed_pairing : Prop :=
  (exists res,
     Scenario.run
       [(Scenario.touch_event [Scenario.touch_at 0 0; Scenario.touch_at 10 0],
         "pointerdown", false);
        (Scenario.touch_event [Scenario.touch_at 1 0; Scenario.touch_at 9 0],
         "pointermove", false)] = Some res /\
     matched_positions res = [((1, 0), (0, 0)); ((9, 0), (10, 0))] /\
     identities res = [(0, (0, 0)); (1, (10, 0))])
  /\ (exists res,
        Scenario.run
          [(Scenario.touch_event [Scenario.touch_at 0 0; Scenario.touch_at 10 0],
            "pointerdown", false);
           (Scenario.touch_event [Scenario.touch_at 9 0; Scenario.touch_at 1 0],
            "pointermove", false)] = Some res /\
        matched_positions res = [((9, 0), (10, 0)); ((1, 0), (0, 0))] /\
        identities res = [(1, (10, 0)); (0, (0, 0))]).

(** Both coordinates count.  From previous pointers at (0,0) and (10,10),
    the samples (8,0) and (2,10) are paired (8,0) with (0,0) and (2,10) with
    (10,10), although (8,0) is nearer to (10,10) along x; and the samples
    (0,8) and (10,2) are paired (0,8) with (0,0) and (10,2) with (10,10),
    although (0,8) is nearer to (10,10) along y. *)
Definition nearest_in_the_plane : Prop :=
  (exists res,
     Scenario.run
       [(Scenario.touch_event [Scenario.touch_at 0 0; Scenario.touch_at 10 10],
         "pointerdown", false);
        (Scenario.touch_event [Scenario.touch_at 8 0; Scenario.touch_at 2 10],
         "pointermove", false)] = Some res /\
     matched_positions res = [((8, 0), (0, 0)); ((2, 10), (10, 10))] /\
     identities res = [(0, (0, 0)); (1, (10, 10))])
  /\ (exists res,
        Scenario.run
          [(Scenario.touch_event [Scenario.touch_at 0 0; Scenario.touch_at 10 10],
            "pointerdown", false);
           (Scenario.touch_event [Scenario.touch_at 0 8; Scenario.touch_at 10 2],
            "pointermove", false)] = Some res /\
        matched_positions res = [((0, 8), (0, 0)); ((10, 2), (10, 10))] /\
        identities res = [(0, (0, 0)); (1, (10, 10))]).

(** Kinematics of a pointer matched to [p]: movement and distance are
    differences of positions, origin and identity are those of [p]. *)
Definition rebased_on (N P : Pointer.t) : Prop :=
  Pointer.movementX N = Pointer.x N - Pointer.x P /\
  Pointer.movementY N = Pointer.y N - Pointer.y P /\
  Pointer.distanceX N = Pointer.x N - Pointer.startX N /\
  Pointer.distanceY N = Pointer.y N - Pointer.startY N /\
  Pointer.startX N = Pointer.startX P /\
  Pointer.startY N = Pointer.startY P /\
  Pointer.pointerID N = Pointer.pointerID P.

(** Kinematics of a pointer new in its frame. *)
Definition freshly_created (N : Pointer.t) : Prop :=
  Pointer.movementX N = 0 /\ Pointer.movementY N = 0 /\
  Pointer.distanceX N = 0 /\ Pointer.distanceY N = 0 /\
  Pointer.startX N = Pointer.x N /\ Pointer.startY N = Pointer.y N.



(** Pointer objects at the given positions, at the addresses 0, 1, ... *)
Definition placed (positions : list (Z * Z)) : Heap :=
  map (fun xy => PointerArray.sample Scenario.div1 Scenario.origin
                   (Scenario.touch_event []) "pointermove" "touch" 0 0
                   (Scenario.touch_at (fst xy) (snd xy)))
      positions.

(** A pointer at (0,0) and four candidates: (6,0), then (0,5), (3,4) and
    (5,0), the last three all at distance 5. *)
Definition ring : Heap := placed [(0, 0); (6, 0); (0, 5); (3, 4); (5, 0)].

(** A pointer at (0,0) and five candidates: (1,10) is the nearest along x
    and (10,1) the nearest along y, both at the root of 101; (5,5), (7,1)
    and (1,7) are at the root of 50. *)
Definition scatter : Heap :=
  placed [(0, 0); (1, 10); (10, 1); (5, 5); (7, 1); (1, 7)].

(** A pointer at (-2^25, 0) and two candidates, at (2^25, 1) and (2^25, 0):
    the radicands are 2^52 + 1 and 2^52, and the roots of both round to the
    double 2^26. *)
Definition equal_roots : Heap :=
  placed [(-33554432, 0); (33554432, 1); (33554432, 0)].

(** What [getClosest] returns in the three scenarios: the first of the
    three candidates at distance 5, not the candidate before them; the first
    of the three at the root of 50, not the nearest along one axis; and the
    first of two candidates whose distances are the same double, although
    the second is the nearer one in exact arithmetic. *)
Definition nearest_examples : Prop :=
  getClosest ring 0%nat [1; 2; 3; 4]%nat = Some 2%nat /\
  getClosest scatter 0%nat [1; 2; 3; 4; 5]%nat = Some 3%nat /\
  getClosest equal_roots 0%nat [1; 2]%nat = Some 1%nat /\
  dist2 equal_roots 0%nat 2%nat < dist2 equal_roots 0%nat 1%nat /\
  positions_in_range equal_roots [0; 1; 2]%nat = true.

(** A listener that registers listener 2 for the same event when called. *)
Definition registers_another (f : PointerEvents.Listener) (event : string)
    (ls : PointerEvents.Listeners) : PointerEvents.Listeners :=
  if Nat.eqb f 1 then PointerEvents.addEventListener ls event 2%nat else ls.

(** Listener 7 registered, then 8, then 7 again, all for one type. *)
Definition twice_registered : PointerEvents.Listeners :=
  PointerEvents.addEventListener
    (PointerEvents.addEventListener
       (PointerEvents.addEventListener None "pointermove" 7%nat)
       "pointermove" 8%nat)
    "pointermove" 7%nat.

(** Two fingers go down at (0,0) and (10,0); the first is lifted; a third
    goes down at (50,50). *)
Definition lift_then_add : list (Event * string * bool) :=
  [(Scenario.touch_event [Scenario.touch_at 0 0; Scenario.touch_at 10 0],
    "pointerdown", false);
   (Scenario.touch_event [Scenario.touch_at 10 0], "pointerup", false);
   (Scenario.touch_event [Scenario.touch_at 10 0; Scenario.touch_at 50 50],
    "pointerdown", false)].

(** A finger goes down at (5,5) and moves to (8,9) with the shift key held. *)
Definition down_then_move : list (Event * string * bool) :=
  [(Scenario.touch_event [Scenario.touch_at 5 5], "pointerdown", false);
   ({| ev_touches := Some [Scenario.touch_at 8 9]; ev_target := Some Scenario.div1;
       ev_clientX := 0; ev_clientY := 0; ev_buttons := None;
       ev_altKey := false; ev_ctrlKey := false;
       ev_metaKey := false; ev_shiftKey := true |}, "pointermove", false)].

(** ** Vocabulary of the further properties *)

(** The test of the first loop of [update]: a touch is captured when its
    target is the array's target or below it, or when the event is a mouse
    event. *)
Definition passes (this_target : Element) (event : Event) (touch : Touch) : bool :=
  isTouchInTarget touch this_target || bool_decide (ev_touches event = None).

(** The pointers the first loop creates from [touches], numbered from [id]:
    one per touch that passes, in order. *)
Definition captured (this_target : Element) (rect : Rect) (event : Event)
    (type pointerType : string) (buttons : Z) (id : Z) (touches : list Touch)
    : list Pointer.t :=
  imap (fun k touch =>
          PointerArray.sample this_target rect event type pointerType buttons
            (id + Z.of_nat k) touch)
       (List.filter (passes this_target event) touches).

(** The pointers a call of [update] creates. *)
Definition news_of (a : PointerArray.t) (rect : Rect) (event : Event)
    (type : string) (remove : bool) : list Pointer.t :=
  if remove then []
  else captured (PointerArray.target a) rect event type
         (PointerArray.pointerType_of event) (PointerArray.buttons_of event)
         0 (PointerArray.touches_of event).

(** The identities of an element and of its ancestors, nearest first: the
    chain the loop of [isTouchInTarget] walks. *)
Fixpoint lineage (e : Element) : list nat :=
  match e with
  | Root i => [i]
  | Child i parent => i :: lineage parent
  end.

(** Successive calls of [update] without the [remove] flag, each with the
    rectangle, the event and the type it is given. *)
Fixpoint updates (h : Heap) (a : PointerArray.t)
    (calls : list (Rect * Event * string)) : option (Heap * PointerArray.t) :=
  match calls with
  | [] => Some (h, a)
  | (rect, event, type) :: rest =>
      match PointerArray.update h a rect event type false with
      | Some res => updates (PointerArray.heap res) (PointerArray.self res) rest
      | None => None
      end
  end.

(** The call captures exactly one pointer for an array over [target]. *)
Definition captures_one (target : Element) (call : Rect * Event * string) : Prop :=
  length (List.filter (passes target call.1.2) (PointerArray.touches_of call.1.2))
  = 1%nat.

(** The array after a mouse button went down at (5,5). *)
Definition one_down : PointerArray.Result :=
  default {| PointerArray.heap := []; PointerArray.self := PointerArray.new Scenario.div1;
             PointerArray.matched := [] |}
    (Scenario.run [(Scenario.mouse_event 5 5 1, "pointerdown", false)]).

(** The mouse then moves to (6,5) and on to (9,9), the button held. *)
Definition two_moves : list (Rect * Event * string) :=
  [(Scenario.origin, Scenario.mouse_event 6 5 1, "pointermove");
   (Scenario.origin, Scenario.mouse_event 9 9 1, "pointermove")].

(** A call of one of the four mouse closures with a mouse event (an event
    without [touches]). *)
Definition mouse_call (call : Handlers.Closure * Rect * Event) : Prop :=
  (call.1.1 = Handlers.MouseDown \/ call.1.1 = Handlers.MouseMove \/
   call.1.1 = Handlers.MouseHover \/ call.1.1 = Handlers.MouseUp)
  /\ ev_touches call.2 = None.

(** The array holds no pointer, or one pointer whose identity is 0. *)
Definition at_most_pointer_zero (h : Heap) (a : PointerArray.t) : Prop :=
  PointerArray.elems a = []
  \/ exists n, PointerArray.elems a = [n] /\ Pointer.pointerID (deref h n) = 0.

(** The presses and releases among the effects: [true] for a dispatched
    [pointerdown], [false] for a dispatched [pointerup]. *)
Fixpoint presses (effects : list Handlers.Effect) : list bool :=
  match effects with
  | [] => []
  | Handlers.dispatchEvent event :: rest =>
      if String.eqb (pe_type event) "pointerdown" then true :: presses rest
      else if String.eqb (pe_type event) "pointerup" then false :: presses rest
      else presses rest
  | _ :: rest => presses rest
  end.

(** Presses and releases take turns, beginning with [first]. *)
Fixpoint alternating (first : bool) (l : list bool) : Prop :=
  match l with
  | [] => True
  | b :: rest => b = first /\ alternating (negb first) rest
  end.

(** Every dispatched pointer event carries at most one pointer. *)
Definition single_pointer_events (effects : list Handlers.Effect) : Prop :=
  Forall (fun e => match e with
                   | Handlers.dispatchEvent event => (pe_length event <= 1)%nat
                   | _ => True
                   end) effects.

(** A click and a drag with the mouse: hover, press, a second press while
    the first lasts, two moves, a release with another button still down,
    the release, hover. *)
Definition mouse_session : list (Handlers.Closure * Rect * Event) :=
  [(Handlers.MouseHover, Scenario.origin, Scenario.mouse_event 1 1 0);
   (Handlers.MouseDown, Scenario.origin, Scenario.mouse_event 5 5 1);
   (Handlers.MouseDown, Scenario.origin, Scenario.mouse_event 5 5 3);
   (Handlers.MouseMove, Scenario.origin, Scenario.mouse_event 60 5 3);
   (Handlers.MouseMove, Scenario.origin, Scenario.mouse_event 300 200 3);
   (Handlers.MouseUp, Scenario.origin, Scenario.mouse_event 300 200 2);
   (Handlers.MouseUp, Scenario.origin, Scenario.mouse_event 300 200 0);
   (Handlers.MouseHover, Scenario.origin, Scenario.mouse_event 301 200 0)].

(** ** The browser's side of the native listeners *)

#[global] Instance Node_eq_dec : EqDecision Handlers.Node.
Proof. solve_decision. Defined.

#[global] Instance Closure_eq_dec : EqDecision Handlers.Closure.
Proof. solve_decision. Defined.

(** A closure attached to a node for a native event type. *)
Abbreviation Attachment := (Handlers.Node * string * Handlers.Closure)%type.

(** [node.addEventListener(type, closure, false)]: attaching what is
    attached already changes nothing. *)
Definition attach (att : list Attachment) (x : Attachment) : list Attachment :=
  if decide (x ∈ att) then att else att ++ [x].

(** [node.removeEventListener(type, closure, false)] *)
Definition detach (att : list Attachment) (x : Attachment) : list Attachment :=
  filter (fun y => y <> x) att.

Definition apply_effect (att : list Attachment) (e : Handlers.Effect)
    : list Attachment :=
  match e with
  | Handlers.addNative node type closure => attach att (node, type, closure)
  | Handlers.removeNative node type closure => detach att (node, type, closure)
  | _ => att
  end.

(** The mouse and touch closures the constructor attaches, in its order. *)
Definition initially_attached : list Attachment :=
  [(Handlers.domElement, "mousedown", Handlers.MouseDown);
   (Handlers.domElement, "mousemove", Handlers.MouseHover);
   (Handlers.domElement, "touchstart", Handlers.TouchHover);
   (Handlers.domElement, "touchstart", Handlers.TouchDown);
   (Handlers.domElement, "touchmove", Handlers.TouchMove);
   (Handlers.domElement, "touchend", Handlers.TouchUp)].

(** The browser only calls closures that are attached: a call of a
    closure that is attached nowhere does not happen.  The attachments
    follow the effects of each call. *)
Fixpoint deliver (att : list Attachment) (st : Handlers.State)
    (calls : list (Handlers.Closure * Rect * Event))
    : option (list Attachment * Handlers.State * list Handlers.Effect) :=
  match calls with
  | [] => Some (att, st, [])
  | (closure, rect, event) :: rest =>
      if bool_decide (closure ∈ att.*2)
      then
        match Handlers.handle closure st rect event with
        | None => None
        | Some (st', effects) =>
            match deliver (foldl apply_effect att effects) st' rest with
            | None => None
            | Some (att'', st'', effects') => Some (att'', st'', effects ++ effects')
            end
        end
      else deliver att st rest
  end.

(** The attachments that go with a value of [dragging]: the closures for
    [mousedown] and the touch events always, [_onMouseMove] and [_onMouseUp]
    on the document while dragging, [_onMouseHover] on the element while
    not. *)
Definition attached_for (d : bool) (att : list Attachment) : Prop :=
  forall x,
    x ∈ att <->
    x ∈ [(Handlers.domElement, "mousedown", Handlers.MouseDown);
         (Handlers.domElement, "touchstart", Handlers.TouchHover);
         (Handlers.domElement, "touchstart", Handlers.TouchDown);
         (Handlers.domElement, "touchmove", Handlers.TouchMove);
         (Handlers.domElement, "touchend", Handlers.TouchUp)]
    \/ (d = true /\ (x = (Handlers.document, "mousemove", Handlers.MouseMove)
                     \/ x = (Handlers.document, "mouseup", Handlers.MouseUp)))
    \/ (d = false /\ x = (Handlers.domElement, "mousemove", Handlers.MouseHover)).

(** The three attachments that change while the instance lives. *)
Definition hover_attachment : Attachment :=
  (Handlers.domElement, "mousemove", Handlers.MouseHover).
Definition move_attachment : Attachment :=
  (Handlers.document, "mousemove", Handlers.MouseMove).
Definition up_attachment : Attachment :=
  (Handlers.document, "mouseup", Handlers.MouseUp).

(** The local position a pointer object records. *)
Definition recorded_position (P : Pointer.t) : Z * Z := (Pointer.x P, Pointer.y P).

(** The two fingers of [two_down] touch again where they are. *)
Definition stay : Event :=
  Scenario.touch_event [Scenario.touch_at 0 0; Scenario.touch_at 10 0].

(** A touch on an element outside the subtree of [Scenario.div1]. *)
Definition touch_elsewhere : Touch :=
  {| touch_target := Some (Child 2 (Root 0)); touch_clientX := 3; touch_clientY := 3 |}.

(** Membership in attachments given by explicit lists: split the cases
    and compare the constants. *)
Ltac attach_solve :=
  rewrite !elem_of_cons, elem_of_nil;
  split; intros Hx;
  repeat match goal with
         | H : _ /\ _ |- _ => destruct H
         | H : _ \/ _ |- _ => destruct H
         | H : False |- _ => destruct H
         end; subst; try discriminate; try congruence;
  repeat match goal with
         | |- _ /\ _ => split
         end; try discriminate; try congruence; auto 12.

(** * Properties *)

(** ** Array helpers *)

Lemma indexOf_from_elem (l : list Ref) (r : Ref) (i : Z) :
  r ∈ l ->
  exists k : nat, indexOf_from l r i = i + Z.of_nat k /\ l !! k = Some r
    /\ forall j q, (j < k)%nat -> l !! j = Some q -> q <> r.
Proof.
  revert i. induction l as [|a l IH]; intros i Hin.
  - inversion Hin.
  - simpl. destruct (Nat.eqb_spec a r) as [->|Hne].
    + exists 0%nat. split; [lia|]. split; [done|]. intros j q Hj; lia.
    + assert (r ∈ l) as Hl by (inversion Hin; congruence).
      destruct (IH (i + 1) Hl) as (k & Hk & Hlk & Hfirst).
      exists (S k). split; [lia|]. split; [done|].
      intros [|j] q Hj Hq; simpl in Hq.
      * congruence.
      * apply (Hfirst j); [lia|done].
Qed.

Lemma indexOf_from_not_elem (l : list Ref) (r : Ref) (i : Z) :
  r ∉ l -> indexOf_from l r i = -1.
Proof.
  revert i. induction l as [|a l IH]; intros i Hnin; [done|].
  simpl. destruct (Nat.eqb_spec a r) as [->|Hne].
  - exfalso. apply Hnin. left.
  - apply IH. intros Hl. apply Hnin. by right.
Qed.

Lemma indexOf_minus_one (l : list Ref) (r : Ref) :
  indexOf l r = -1 <-> r ∉ l.
Proof.
  unfold indexOf. split.
  - intros H Hin. destruct (indexOf_from_elem l r 0 Hin) as (k & Hk & _). lia.
  - apply indexOf_from_not_elem.
Qed.

(** Splicing at a valid index deletes that element. *)
Lemma splice1_nat (l : list Ref) (k : nat) :
  (k < length l)%nat -> splice1 l (Z.of_nat k) = delete k l.
Proof.
  intros Hk. unfold splice1.
  destruct (Z.ltb_spec (Z.of_nat k) 0) as [?|_]; [lia|].
  rewrite Z.min_l by lia. by rewrite Nat2Z.id.
Qed.

Lemma list_difference_cons (a : Ref) (l k : list Ref) :
  list_difference (a :: l) k
  = if decide (a ∈ k) then list_difference l k else a :: list_difference l k.
Proof. reflexivity. Qed.

Lemma list_difference_nil_r (l : list Ref) : list_difference l [] = l.
Proof.
  induction l as [|a l IH]; [done|].
  rewrite list_difference_cons, decide_False by apply not_elem_of_nil.
  by f_equal.
Qed.

Lemma list_difference_absent (l : list Ref) (r : Ref) :
  r ∉ l -> list_difference l [r] = l.
Proof.
  induction l as [|a l IH]; intros Hr; [done|].
  apply not_elem_of_cons in Hr as [Hne Hr].
  rewrite list_difference_cons, decide_False
    by (rewrite list_elem_of_singleton; congruence).
  f_equal. by apply IH.
Qed.

Lemma list_difference_twice (l k1 k2 : list Ref) :
  list_difference (list_difference l k1) k2 = list_difference l (k1 ++ k2).
Proof.
  induction l as [|a l IH]; [done|]. rewrite !list_difference_cons.
  destruct (decide (a ∈ k1)) as [H1|H1].
  - rewrite decide_True by (rewrite elem_of_app; tauto). done.
  - rewrite list_difference_cons. destruct (decide (a ∈ k2)) as [H2|H2].
    + rewrite decide_True by (rewrite elem_of_app; tauto). done.
    + rewrite decide_False by (rewrite elem_of_app; tauto). by f_equal.
Qed.

(** In an array without repetitions, [splice(indexOf(r), 1)] leaves the
    elements other than [r], in order. *)
Lemma splice1_indexOf (l : list Ref) (r : Ref) :
  NoDup l -> r ∈ l -> splice1 l (indexOf l r) = list_difference l [r].
Proof.
  intros Hnd Hin. unfold indexOf.
  destruct (indexOf_from_elem l r 0 Hin) as (k & -> & Hk & _).
  rewrite Z.add_0_l, splice1_nat by (by eapply lookup_lt_Some).
  clear Hin. revert k Hk. induction l as [|a l IH]; intros k Hk; [done|].
  apply NoDup_cons in Hnd as [Ha Hnd]. rewrite list_difference_cons.
  destruct k as [|k]; simpl in Hk |- *.
  - injection Hk as ->. rewrite decide_True by (by apply list_elem_of_singleton).
    by rewrite list_difference_absent.
  - assert (a <> r) by (intros ->; apply Ha; by eapply list_elem_of_lookup_2).
    rewrite decide_False by (by rewrite list_elem_of_singleton).
    f_equal. by apply IH.
Qed.

(** ** getClosest *)

(** [Math.sqrt] of a positive integer is a double of 53 bits, at least 1. *)
Lemma Math_sqrt_normal (s : Z) :
  0 < s -> 2 ^ 52 <= (Math_sqrt s).1 /\ -53 <= (Math_sqrt s).2.
Proof.
  intros Hs. unfold Math_sqrt.
  destruct (Z.leb_spec s 0) as [?|_]; [lia|]. cbv zeta.
  set (k := Z.max 0 (54 - Z.log2 s / 2)).
  set (q := Z.sqrt (s * 4 ^ k)).
  assert (0 <= k <= 54) as Hk.
  { pose proof (Z.log2_nonneg s). pose proof (Z.div_pos (Z.log2 s) 2). lia. }
  assert (2 ^ 54 <= q) as Hq.
  { assert (2 ^ 108 <= s * 4 ^ k) as Hscaled.
    { destruct (Z.log2_spec s Hs) as [Hlo _].
      replace (4 ^ k) with (2 ^ (2 * k)) by (rewrite Z.pow_mul_r by lia; done).
      assert (108 <= Z.log2 s + 2 * k) as Hsum.
      { pose proof (Z.mul_div_le (Z.log2 s) 2). lia. }
      apply Z.le_trans with (2 ^ Z.log2 s * 2 ^ (2 * k)).
      - rewrite <- Z.pow_add_r by (pose proof (Z.log2_nonneg s); lia).
        apply Z.pow_le_mono_r; lia.
      - apply Z.mul_le_mono_nonneg_r; [apply Z.pow_nonneg; lia|done]. }
    replace (2 ^ 54) with (Z.sqrt (2 ^ 54 * 2 ^ 54)) by (by rewrite Z.sqrt_square).
    apply Z.sqrt_le_mono. exact Hscaled. }
  assert (54 <= Z.log2 q) as Hl.
  { replace 54 with (Z.log2 (2 ^ 54)) by (by rewrite Z.log2_pow2).
    by apply Z.log2_le_mono. }
  set (d := Z.log2 q - 52).
  assert (2 ^ 52 <= q / 2 ^ d) as Hm0.
  { apply Z.div_le_lower_bound; [apply Z.pow_pos_nonneg; lia|].
    rewrite <- Z.pow_add_r by lia.
    replace (d + 52) with (Z.log2 q) by lia.
    apply Z.log2_spec. lia. }
  simpl. split; [|lia].
  destruct (_ || _); lia.
Qed.

(** [Math.sqrt] of a positive integer is the double nearest to its root,
    ties to even. *)
Lemma Math_sqrt_nearest (s : Z) :
  0 < s -> nearest_double s (Math_sqrt s).1 (Math_sqrt s).2.
Proof.
  intros Hs. unfold Math_sqrt.
  destruct (Z.leb_spec s 0) as [?|_]; [lia|]. cbv zeta.
  set (k := Z.max 0 (54 - Z.log2 s / 2)).
  set (scaled := s * 4 ^ k).
  set (q := Z.sqrt scaled).
  assert (0 <= k <= 54) as Hk.
  { pose proof (Z.log2_nonneg s). pose proof (Z.div_pos (Z.log2 s) 2). lia. }
  assert (2 ^ 108 <= scaled) as Hscaled.
  { destruct (Z.log2_spec s Hs) as [Hlo _]. unfold scaled.
    replace (4 ^ k) with (2 ^ (2 * k)) by (rewrite Z.pow_mul_r by lia; done).
    assert (108 <= Z.log2 s + 2 * k) as Hsum.
    { pose proof (Z.mul_div_le (Z.log2 s) 2). lia. }
    apply Z.le_trans with (2 ^ Z.log2 s * 2 ^ (2 * k)).
    - rewrite <- Z.pow_add_r by (pose proof (Z.log2_nonneg s); lia).
      apply Z.pow_le_mono_r; lia.
    - apply Z.mul_le_mono_nonneg_r; [apply Z.pow_nonneg; lia|done]. }
  assert (2 ^ 54 <= q) as Hq.
  { replace (2 ^ 54) with (Z.sqrt (2 ^ 54 * 2 ^ 54)) by (by rewrite Z.sqrt_square).
    apply Z.sqrt_le_mono. exact Hscaled. }
  assert (54 <= Z.log2 q) as Hl.
  { replace 54 with (Z.log2 (2 ^ 54)) by (by rewrite Z.log2_pow2).
    by apply Z.log2_le_mono. }
  set (d := Z.log2 q - 52).
  assert (2 <= d) as Hd by lia.
  set (half := 2 ^ (d - 1)).
  assert (0 < half) as Hhalf by (apply Z.pow_pos_nonneg; lia).
  assert (2 ^ d = 2 * half) as Hpow.
  { unfold half. replace d with (Z.succ (d - 1)) at 1 by lia.
    rewrite Z.pow_succ_r by lia. done. }
  rewrite Hpow.
  pose proof (Z.div_mod q (2 * half) ltac:(lia)) as Hdm.
  pose proof (Z.mod_pos_bound q (2 * half) ltac:(lia)) as Hr.
  set (m0 := q / (2 * half)) in *. set (r := q mod (2 * half)) in *.
  assert (2 ^ 52 <= m0 < 2 ^ 53) as Hm0.
  { destruct (Z.log2_spec q ltac:(lia)) as [Hlo Hhi].
    replace (Z.log2 q) with (d + 52) in Hlo by lia.
    replace (Z.succ (Z.log2 q)) with (d + 53) in Hhi by lia.
    rewrite Z.pow_add_r in Hlo, Hhi by lia. rewrite Hpow in Hlo, Hhi.
    split.
    - apply Z.div_le_lower_bound; lia.
    - apply Z.div_lt_upper_bound; lia. }
  destruct (Z.sqrt_spec scaled ltac:(lia)) as [Hlow Hupp]. fold q in Hlow, Hupp.
  assert (forall A, 0 <= A <= q -> A * A <= scaled) as Hlo.
  { intros A HA. apply Z.le_trans with (q * q); [|done].
    apply Z.mul_le_mono_nonneg; lia. }
  assert (forall A, 0 <= A < q -> A * A < scaled) as Hlo'.
  { intros A HA. apply Z.lt_le_trans with (q * q); [|done].
    apply Z.mul_lt_mono_nonneg; lia. }
  assert (forall B, q + 1 <= B -> scaled < B * B) as Hhi.
  { intros B HB. apply Z.lt_le_trans with (Z.succ q * Z.succ q); [done|].
    apply Z.mul_le_mono_nonneg; lia. }
  set (P := half * m0) in *.
  assert (q = 2 * P + r) as HqP by (unfold P; lia).
  assert (0 <= P) as HP by (unfold P; lia).
  assert (2 ^ 52 * half <= P < 2 ^ 53 * half) as HPb.
  { unfold P. split.
    - rewrite (Z.mul_comm _ half). apply Z.mul_le_mono_nonneg_l; lia.
    - rewrite (Z.mul_comm _ half). apply Z.mul_lt_mono_pos_l; lia. }
  assert (P + half <= 2 ^ 53 * half) as HPb'.
  { unfold P. replace (half * m0 + half) with (half * (m0 + 1)) by ring.
    rewrite (Z.mul_comm _ half). apply Z.mul_le_mono_nonneg_l; lia. }
  exists k. simpl.
  split; [lia|]. split; [lia|].
  replace (d - k + k - 1) with (d - 1) by lia. fold half. fold scaled.
  assert ((2 ^ 53 * half) * (2 ^ 53 * half) <= scaled
          < (2 ^ 54 * half) * (2 ^ 54 * half)) as Hbin.
  { split; [apply Hlo|apply Hhi]; lia. }
  assert (forall m, (2 * m - 1) * half = 2 * (half * m) - half) as E1
    by (intros; ring).
  assert (forall m, (2 * m + 1) * half = 2 * (half * m) + half) as E2
    by (intros; ring).
  assert (half * (m0 + 1) = P + half) as E3 by (unfold P; ring).
  destruct (Z.ltb_spec half r) as [Hgt|Hle]; simpl.
  - split; [lia|]. split; [done|]. rewrite E1, E2, E3. split.
    + split; [apply Hlo|apply Z.lt_le_incl, Hhi]; lia.
    + intros [Heq|Heq]; exfalso.
      * pose proof (Hlo' (2 * (P + half) - half)). lia.
      * pose proof (Hhi (2 * (P + half) + half)). lia.
  - destruct (Z.eqb_spec r half) as [Heq|Hne]; simpl.
    + destruct (Z.eqb_spec (q * q) scaled) as [Hex|Hin]; simpl.
      * destruct (Z.odd m0) eqn:Hodd.
        -- split; [lia|]. split; [done|]. rewrite E1, E2, E3. split.
           ++ split; [apply Hlo|apply Z.lt_le_incl, Hhi]; lia.
           ++ intros _. rewrite Z.even_add, <- Z.negb_odd, Hodd. done.
        -- split; [lia|]. split; [done|]. rewrite E1, E2. fold P. split.
           ++ split; [apply Hlo; lia|]. rewrite <- Hex.
              replace q with (2 * P + half) by lia. lia.
           ++ intros _. by rewrite <- Z.negb_odd, Hodd.
      * split; [lia|]. split; [done|]. rewrite E1, E2, E3. split.
        -- split; [apply Hlo|apply Z.lt_le_incl, Hhi]; lia.
        -- intros [Heq'|Heq']; exfalso.
           ++ apply Hin. rewrite Heq'. f_equal; lia.
           ++ pose proof (Hhi (2 * (P + half) + half)). lia.
    + split; [lia|]. split; [done|]. rewrite E1, E2. fold P. split.
      * split; [apply Hlo|apply Z.lt_le_incl, Hhi]; lia.
      * intros [Heq'|Heq']; exfalso.
        -- pose proof (Hlo' (2 * P - half)). lia.
        -- pose proof (Hhi (2 * P + half)). lia.
Qed.

(** The rank orders the doubles as their values do: for significands of 53
    bits, [m * 2^e < m' * 2^e'] (both sides scaled by [2^53]) exactly when
    the rank of the first is below the rank of the second. *)
Lemma rank_order (m e m' e' : Z) :
  2 ^ 52 <= m <= 2 ^ 53 -> 2 ^ 52 <= m' <= 2 ^ 53 ->
  -53 <= e -> -53 <= e' ->
  rank (m, e) < rank (m', e') <-> m * 2 ^ (e + 53) < m' * 2 ^ (e' + 53).
Proof.
  intros Hm Hm' He He'. unfold rank.
  destruct (Z.eqb_spec m 0) as [?|_]; [lia|].
  destruct (Z.eqb_spec m' 0) as [?|_]; [lia|].
  assert (forall a t, 0 <= a -> 0 <= t -> 2 ^ (a + t) = 2 ^ a * 2 ^ t) as Hadd
    by (intros; by rewrite Z.pow_add_r).
  assert (forall t, 1 <= t -> 2 <= 2 ^ t) as Hge2.
  { intros t Ht. change 2 with (2 ^ 1) at 1. apply Z.pow_le_mono_r; lia. }
  assert (forall t, 2 <= t -> 4 <= 2 ^ t) as Hge4.
  { intros t Ht. change 4 with (2 ^ 2). apply Z.pow_le_mono_r; lia. }
  set (a := e + 53). set (b := e' + 53).
  assert (0 < 2 ^ a) as Ha by (apply Z.pow_pos_nonneg; lia).
  assert (0 < 2 ^ b) as Hb by (apply Z.pow_pos_nonneg; lia).
  destruct (Z.lt_trichotomy a b) as [Hlt|[Heq|Hgt]].
  - replace b with (a + (b - a)) by lia. rewrite Hadd by lia.
    set (t := b - a). assert (1 <= t) as Ht by (unfold t; lia).
    destruct (Z.eq_dec t 1) as [Ht1|Ht1].
    + rewrite Ht1. change (2 ^ 1) with 2. unfold a, b, t in *. nia.
    + pose proof (Hge4 t ltac:(lia)). 
      assert (m < m' * 2 ^ t) by nia.
      split; [intros _; nia|intros _]. unfold a, b, t in *. nia.
  - rewrite <- Heq. unfold a, b in *. nia.
  - replace a with (b + (a - b)) by lia. rewrite Hadd by lia.
    set (t := a - b). assert (1 <= t) as Ht by (unfold t; lia).
    destruct (Z.eq_dec t 1) as [Ht1|Ht1].
    + rewrite Ht1. change (2 ^ 1) with 2. unfold a, b, t in *. nia.
    + pose proof (Hge4 t ltac:(lia)).
      assert (m' < m * 2 ^ t) by nia.
      split; [unfold a, b, t in *; nia|nia].
Qed.

(** [<] on the roots of positive integers, as [dist_lt] takes it, is [<] on
    the values of the doubles. *)
Lemma rounded_lt (s s' : Z) :
  0 < s -> 0 < s' ->
  rounded s < rounded s'
  <-> (Math_sqrt s).1 * 2 ^ ((Math_sqrt s).2 + 53)
      < (Math_sqrt s').1 * 2 ^ ((Math_sqrt s').2 + 53).
Proof.
  intros Hs Hs'. unfold rounded.
  destruct (Math_sqrt_normal s Hs) as [_ He].
  destruct (Math_sqrt_normal s' Hs') as [_ He'].
  destruct (Math_sqrt_nearest s Hs) as (k & _ & _ & Hm & _).
  destruct (Math_sqrt_nearest s' Hs') as (k' & _ & _ & Hm' & _).
  destruct (Math_sqrt s) as [m e], (Math_sqrt s') as [m' e']. simpl in *.
  by apply rank_order.
Qed.

(** On the sampled radicands [Math_sqrt] is the binary64 square root. *)
Lemma Math_sqrt_binary64 :
  forallb (fun s => same_double (Math_sqrt s) (binary64_sqrt s)) radicands = true.
Proof. vm_compute. reflexivity. Qed.

(** The roots of 2^52 and of 2^52 + 1 are the same double, 2^26. *)
Lemma rounded_collapses :
  Math_sqrt (2 ^ 52) = (2 ^ 52, -26) /\ Math_sqrt (2 ^ 52 + 1) = (2 ^ 52, -26).
Proof. split; vm_compute; reflexivity. Qed.

Lemma rounded_0 : rounded 0 = 0.
Proof. reflexivity. Qed.

(** The root of a positive integer is above the root of 0. *)
Lemma rounded_pos (s : Z) : 0 < s -> 0 < rounded s.
Proof.
  intros Hs. unfold rounded.
  destruct (Math_sqrt_normal s Hs) as [Hm He].
  destruct (Math_sqrt s) as [m e]. simpl in *.
  destruct (Z.eqb_spec m 0) as [->|_]; [lia|]. nia.
Qed.

Lemma getClosest_nil (h : Heap) (p : Ref) : getClosest h p [] = None.
Proof. reflexivity. Qed.

(** The loop entered with a candidate [c0] already at hand. *)
Lemma getClosest_loop_from (h : Heap) (p : Ref) (ps : list Ref) (c0 : Ref) :
  exists c, getClosest_loop h p ps (Some c0) (Sqrt (dist2 h p c0)) = Some c /\
    (forall q, q ∈ ps -> distance h p c <= distance h p q) /\
    distance h p c <= distance h p c0 /\
    (c = c0 \/
     exists i : nat, ps !! i = Some c /\ distance h p c < distance h p c0 /\
       forall j q, (j < i)%nat -> ps !! j = Some q -> distance h p c < distance h p q).
Proof.
  unfold distance.
  revert c0. induction ps as [|a ps IH]; intros c0; simpl.
  - exists c0. split; [done|]. split; [intros q Hq; inversion Hq|].
    split; [lia|by left].
  - destruct (Z.ltb_spec (rounded (dist2 h p a)) (rounded (dist2 h p c0))) as [Hlt|Hge].
    + destruct (IH a) as (c & Hc & Hmin & Hle & Hcase).
      exists c. split; [done|]. split.
      { intros q Hq. apply elem_of_cons in Hq as [->|Hq]; auto. }
      split; [lia|]. right.
      destruct Hcase as [->|(i & Hi & Hlt' & Hfirst)].
      * exists 0%nat. split; [done|]. split; [done|]. intros j q Hj; lia.
      * exists (S i). split; [done|]. split; [lia|].
        intros [|j] q Hj Hq; simpl in Hq.
        -- injection Hq as <-. done.
        -- apply (Hfirst j); [lia|done].
    + destruct (IH c0) as (c & Hc & Hmin & Hle & Hcase).
      exists c. split; [done|]. split.
      { intros q Hq. apply elem_of_cons in Hq as [->|Hq]; [lia|auto]. }
      split; [done|].
      destruct Hcase as [->|(i & Hi & Hlt' & Hfirst)]; [by left|right].
      exists (S i). split; [done|]. split; [done|].
      intros [|j] q Hj Hq; simpl in Hq.
      * injection Hq as <-. lia.
      * apply (Hfirst j); [lia|done].
Qed.

(** What [getClosest] returns on a non-empty array: an element at the least
    distance, and the first such in the array. *)
Lemma getClosest_cons (h : Heap) (p : Ref) (a : Ref) (ps : list Ref) :
  exists (i : nat) (c : Ref),
    getClosest h p (a :: ps) = Some c /\ (a :: ps) !! i = Some c /\
    (forall q, q ∈ a :: ps -> distance h p c <= distance h p q) /\
    (forall j q, (j < i)%nat -> (a :: ps) !! j = Some q -> distance h p c < distance h p q).
Proof.
  unfold getClosest. simpl.
  destruct (getClosest_loop_from h p ps a) as (c & Hc & Hmin & Hle & Hcase).
  destruct Hcase as [->|(i & Hi & Hlt & Hfirst)].
  - exists 0%nat, a. split; [done|]. split; [done|]. split.
    + intros q Hq. apply elem_of_cons in Hq as [->|Hq]; [lia|auto].
    + intros j q Hj; lia.
  - exists (S i), c. split; [done|]. split; [done|]. split.
    + intros q Hq. apply elem_of_cons in Hq as [->|Hq]; [lia|auto].
    + intros [|j] q Hj Hq; simpl in Hq.
      * injection Hq as <-. done.
      * apply (Hfirst j); [lia|done].
Qed.

Lemma getClosest_Some (h : Heap) (p : Ref) (ps : list Ref) (c : Ref) :
  getClosest h p ps = Some c ->
  exists i : nat, ps !! i = Some c /\
    (forall q, q ∈ ps -> distance h p c <= distance h p q) /\
    (forall j q, (j < i)%nat -> ps !! j = Some q -> distance h p c < distance h p q).
Proof.
  destruct ps as [|a ps]; [done|]. intros Hc.
  destruct (getClosest_cons h p a ps) as (i & c' & Hc' & Hi & Hmin & Hfirst).
  assert (c' = c) as -> by congruence. eauto.
Qed.

Lemma getClosest_elem (h : Heap) (p : Ref) (ps : list Ref) (c : Ref) :
  getClosest h p ps = Some c -> c ∈ ps.
Proof.
  intros (i & Hi & _)%getClosest_Some. by eapply list_elem_of_lookup_2.
Qed.

(** The distance [getClosest] compares is the Euclidean distance between
    the positions, as a double. *)
Lemma distance_euclidean (h : Heap) (a b : Ref) :
  distance h a b = euclidean (position h a) (position h b).
Proof. reflexivity. Qed.

Lemma dist2_same_positions (h h' : Heap) (a b : Ref) :
  same_positions h h' -> dist2 h a b = dist2 h' a b.
Proof.
  intros H. unfold dist2.
  destruct (H a) as [-> ->]. destruct (H b) as [-> ->]. done.
Qed.

Lemma getClosest_same_positions (h h' : Heap) (p : Ref) (ps : list Ref) :
  same_positions h h' -> getClosest h p ps = getClosest h' p ps.
Proof.
  intros H. unfold getClosest. generalize (@None Ref) Infinity.
  induction ps as [|a ps IH]; intros c d; [done|]. simpl.
  rewrite (dist2_same_positions h h') by done.
  rewrite !IH. done.
Qed.

Lemma same_positions_update (h : Heap) (n : Ref) (q : Pointer.t) :
  same_positions (<[n := Pointer.update (deref h n) q]> h) h.
Proof.
  intros r. unfold deref. rewrite list_lookup_total_insert.
  case_decide as Hd; [|done]. destruct Hd as [-> _]. done.
Qed.

(** ** The loops of [PointerArray.update] *)

Lemma same_positions_trans (h1 h2 h3 : Heap) :
  same_positions h1 h2 -> same_positions h2 h3 -> same_positions h1 h3.
Proof.
  intros H12 H23 r. destruct (H12 r) as [-> ->]. apply H23.
Qed.

Section Capture.
Variables (this_target : Element) (rect : Rect) (event : Event)
          (type pointerType : string) (buttons : Z).

(** The first loop allocates its pointers at consecutive fresh addresses
    and pushes exactly those. *)
Lemma capture_spec (touches : list Touch) :
  forall (h : Heap) (this : list Ref) (id : Z),
  exists news : list Pointer.t,
    PointerArray.capture this_target rect event type pointerType buttons
      h this id touches
    = (h ++ news, this ++ seq (length h) (length news))
    /\ Forall (is_sample this_target rect event type pointerType buttons) news.
Proof.
  induction touches as [|touch rest IH]; intros h this id; simpl.
  - exists []. by rewrite !app_nil_r.
  - destruct (isTouchInTarget touch this_target
              || bool_decide (ev_touches event = None)).
    + destruct (IH (h ++ [PointerArray.sample this_target rect event type
                            pointerType buttons id touch])
                  (this ++ [length h]) (id + 1)) as (news & Hc & Hs).
      exists (PointerArray.sample this_target rect event type pointerType
                buttons id touch :: news).
      split.
      * etrans; [exact Hc|]. rewrite <- !app_assoc, length_app. simpl.
        by rewrite Nat.add_1_r.
      * constructor; [by eexists _, _|done].
    + apply IH.
Qed.
End Capture.

(** The last loop empties [previous] into [removed], last element first. *)
Lemma drain_spec (previous removed : list Ref) :
  PointerArray.drain (length previous) previous removed
  = ([], removed ++ reverse previous).
Proof.
  revert removed. induction previous as [|a l IH] using rev_ind; intros removed.
  - simpl. by rewrite app_nil_r.
  - rewrite length_app, Nat.add_1_r. simpl.
    rewrite list_lookup_middle by done.
    rewrite splice1_nat by (rewrite length_app; simpl; lia).
    replace (delete (length l) (l ++ [a])) with l
      by (symmetry; rewrite (delete_middle l [] a); apply app_nil_r).
    rewrite IH, reverse_app, <- app_assoc. done.
Qed.

(** The second loop.  From an array [todo] without repetitions, all of whose
    objects are in the store and none of which is in [previous], the loop
    ends, and [new], the pairs it adds to the record, describes all it did. *)
Lemma match_loop_spec (this : list Ref) :
  forall (todo : list Ref) (h : Heap) (prev : list Ref) (m : list (Ref * Ref)),
    NoDup todo -> NoDup prev ->
    (forall r, r ∈ todo -> r ∉ prev) ->
    (forall r, r ∈ todo -> (r < length h)%nat) ->
    exists (h' : Heap) (new : list (Ref * Ref)),
      PointerArray.match_loop h this todo prev m
        = Some (h', list_difference prev new.*2, m ++ new) /\
      length h' = length h /\
      same_positions h' h /\
      NoDup new.*1 /\
      (forall r, r ∈ new.*1 -> r ∈ todo) /\
      (forall r, r ∈ new.*2 -> r ∈ prev) /\
      (forall r, r ∉ new.*1 -> deref h' r = deref h r) /\
      (forall n p, (n, p) ∈ new ->
         deref h' n = Pointer.update (deref h n) (deref h p)) /\
      (forall pre n p post, new = pre ++ (n, p) :: post ->
         getClosest h n (list_difference prev pre.*2) = Some p /\
         getClosest h p this = Some n).
Proof.
  induction todo as [|n rest IH]; intros h prev m Hnd Hndp Hdisj Hlen.
  { exists h, []. simpl. rewrite list_difference_nil_r, app_nil_r.
    split_and!; try done; try constructor.
    all: try (intros; match goal with H : _ ∈ [] |- _ => by inversion H end).
    all: by destruct pre. }
  apply NoDup_cons in Hnd as [Hn Hnd].
  (* the iteration leaves everything as it is *)
  assert (forall h0 : Heap, h0 = h ->
    exists (h' : Heap) (new : list (Ref * Ref)),
      PointerArray.match_loop h0 this rest prev m
        = Some (h', list_difference prev new.*2, m ++ new) /\
      length h' = length h /\
      same_positions h' h /\
      NoDup new.*1 /\
      (forall r, r ∈ new.*1 -> r ∈ n :: rest) /\
      (forall r, r ∈ new.*2 -> r ∈ prev) /\
      (forall r, r ∉ new.*1 -> deref h' r = deref h r) /\
      (forall n p, (n, p) ∈ new ->
         deref h' n = Pointer.update (deref h n) (deref h p)) /\
      (forall pre n p post, new = pre ++ (n, p) :: post ->
         getClosest h n (list_difference prev pre.*2) = Some p /\
         getClosest h p this = Some n)) as Hskip.
  { intros h0 ->.
    destruct (IH h prev m) as (h' & new & ? & ? & ? & ? & Hsub & ? & ? & ? & ?); auto.
    { intros r Hr. apply Hdisj. by right. }
    { intros r Hr. apply Hlen. by right. }
    exists h', new. split_and!; try done.
    intros r Hr. right. by apply Hsub. }
  simpl. destruct prev as [|a ps]; [by apply Hskip|].
  change (Nat.eqb (length (a :: ps)) 0) with false. cbv iota.
  destruct (getClosest_cons h n a ps) as (i & c & Hc & Hi & _).
  rewrite Hc. apply list_elem_of_lookup_2 in Hi.
  case_bool_decide as Hback; [|by apply Hskip]. clear Hskip.
  rewrite splice1_indexOf by done.
  set (h1 := <[n := Pointer.update (deref h n) (deref h c)]> h).
  assert (n ∉ a :: ps) as Hnprev by (apply Hdisj; left).
  assert (n < length h)%nat as Hnlen by (apply Hlen; left).
  destruct (IH h1 (list_difference (a :: ps) [c]) (m ++ [(n, c)])) as
    (h' & new & Heq & Hl & Hpos & Hnd1 & Hsub1 & Hsub2 & Hframe & Hcont & Hsplit).
  { done. }
  { by apply NoDup_list_difference. }
  { intros r Hr [Hin _]%list_elem_of_difference. revert Hin. apply Hdisj. by right. }
  { intros r Hr. unfold h1. rewrite length_insert. apply Hlen. by right. }
  exists h', ((n, c) :: new). split.
  { rewrite Heq, list_difference_twice, <- app_assoc. done. }
  split. { rewrite Hl. apply length_insert. }
  split. { eapply same_positions_trans; [done|]. apply same_positions_update. }
  split. { simpl. apply NoDup_cons. split; [|done]. intros Hin. auto. }
  split. { simpl. intros r [->|Hr]%elem_of_cons; [left|right; auto]. }
  split.
  { simpl. intros r [->|Hr]%elem_of_cons; [done|].
    apply Hsub2 in Hr. by apply list_elem_of_difference in Hr as [? _]. }
  split.
  { simpl. intros r [Hne Hr]%not_elem_of_cons. rewrite Hframe by done.
    unfold deref, h1. by rewrite list_lookup_total_insert_ne. }
  split.
  { intros n' p' [Hhd|Htl]%elem_of_cons.
    - injection Hhd as -> ->. rewrite Hframe by auto.
      unfold deref, h1. by rewrite list_lookup_total_insert_eq.
    - rewrite (Hcont _ _ Htl).
      assert (n' ∈ rest) as Hn'.
      { apply Hsub1. apply list_elem_of_fmap. by exists (n', p'). }
      assert (p' ∈ a :: ps) as Hp'.
      { assert (p' ∈ new.*2) as Hp' by (apply list_elem_of_fmap; by exists (n', p')).
        apply Hsub2 in Hp'. by apply list_elem_of_difference in Hp' as [? _]. }
      unfold deref, h1.
      rewrite !list_lookup_total_insert_ne; [done| |]; congruence. }
  intros [|x pre] n' p' post Hnew; simpl in Hnew.
  - injection Hnew as <- <- _. simpl. by rewrite list_difference_nil_r.
  - injection Hnew as Hx Hnew. subst x.
    destruct (Hsplit _ _ _ _ Hnew) as [H1 H2].
    rewrite list_difference_twice in H1.
    rewrite (getClosest_same_positions h1 h) in H1, H2
      by apply same_positions_update.
    done.
Qed.

(** ** One call of [update] *)

Lemma same_positions_sym (h1 h2 : Heap) :
  same_positions h1 h2 -> same_positions h2 h1.
Proof. intros H r. destruct (H r) as [-> ->]. done. Qed.

Lemma update_spec (h : Heap) (a : PointerArray.t) (rect : Rect) (event : Event)
    (type : string) (remove : bool) :
  wf h a ->
  exists news res,
    PointerArray.update h a rect event type remove = Some res
    /\ update_facts h a rect event type remove news res.
Proof.
  intros [Hnd Hin]. unfold PointerArray.update. destruct remove.
  - simpl. rewrite drain_spec. exists []. eexists. split; [done|].
    constructor; simpl; rewrite ?list_difference_nil_r, ?app_nil_r; try done.
    all: try (intros; match goal with H : _ ∈ [] |- _ => by inversion H end).
    + constructor.
    + intros [|? ?] ? ? ?; done.
  - destruct (capture_spec (PointerArray.target a) rect event type
                (PointerArray.pointerType_of event) (PointerArray.buttons_of event)
                (PointerArray.touches_of event) h [] 0) as (news & Hc & Hs).
    simpl. rewrite Hc. simpl.
    set (this1 := seq (length h) (length news)).
    destruct (match_loop_spec this1 this1 (h ++ news) (PointerArray.elems a) [])
      as (h' & new & Heq & Hl & Hpos & Hnd1 & Hsub1 & Hsub2 & Hframe & Hcont & Hsplit).
    { apply NoDup_seq. }
    { done. }
    { intros r Hr%elem_of_seq Hr'. apply Hin in Hr'. lia. }
    { intros r Hr%elem_of_seq. rewrite length_app. lia. }
    rewrite Heq, drain_spec. exists news. eexists. split; [done|].
    constructor; simpl; try done.
    + by rewrite Hl, length_app.
    + intros n p Hnp. rewrite (Hcont _ _ Hnp). f_equal.
      unfold deref. apply lookup_total_app_l, Hin, Hsub2.
      apply list_elem_of_fmap. by exists (n, p).
    + intros pre n p post Hnew. destruct (Hsplit _ _ _ _ Hnew) as [H1 H2].
      by rewrite !(getClosest_same_positions h' (h ++ news)).
Qed.

Lemma update_wf (h : Heap) (a : PointerArray.t) (rect : Rect) (event : Event)
    (type : string) (remove : bool) (res : PointerArray.Result) :
  wf h a ->
  PointerArray.update h a rect event type remove = Some res ->
  wf (PointerArray.heap res) (PointerArray.self res).
Proof.
  intros Hwf Hres.
  destruct (update_spec h a rect event type remove Hwf) as (news & res' & Hres' & F).
  assert (res' = res) as -> by congruence.
  split; rewrite (uf_elems _ _ _ _ _ _ _ _ F).
  - apply NoDup_seq.
  - intros r Hr%elem_of_seq. rewrite (uf_length _ _ _ _ _ _ _ _ F). lia.
Qed.

Lemma reachable_wf (h : Heap) (a : PointerArray.t) : reachable h a -> wf h a.
Proof.
  induction 1 as [h dom|h a rect event type remove res _ IH Hres|h a p _ [IH1 IH2]].
  - split; simpl; [constructor|]. intros r Hr. inversion Hr.
  - by eapply update_wf.
  - split; [done|]. simpl. intros r Hr. rewrite length_app. apply IH2 in Hr. lia.
Qed.

(** Between calls [previous] is empty, as [update] leaves it. *)
Lemma reachable_previous (h : Heap) (a : PointerArray.t) :
  reachable h a -> PointerArray.previous a = [].
Proof.
  induction 1 as [h dom|h a rect event type remove res Hr _ Hres|h a p _ IH];
    [done| |done].
  destruct (update_spec h a rect event type remove (reachable_wf _ _ Hr))
    as (news & res' & Hres' & F).
  assert (res' = res) as -> by congruence.
  apply (uf_previous _ _ _ _ _ _ _ _ F).
Qed.

(** The objects created by a call sit behind the old store. *)
Lemma deref_created (h : Heap) (news : list Pointer.t) (P : Pointer.t -> Prop) (n : Ref) :
  Forall P news -> n ∈ seq (length h) (length news) -> P (deref (h ++ news) n).
Proof.
  intros HP Hn%elem_of_seq. unfold deref.
  rewrite lookup_total_app_r by lia.
  destruct (lookup_lt_is_Some_2 news (n - length h)) as [s Hs]; [lia|].
  rewrite (list_lookup_total_correct _ _ _ Hs).
  by eapply Forall_lookup_1.
Qed.

(** References of the previous frame are never among the pairs' new sides. *)
Lemma old_not_matched_new (h : Heap) (a : PointerArray.t) (rect : Rect)
    (event : Event) (type : string) (remove : bool)
    (news : list Pointer.t) (res : PointerArray.Result) (p : Ref) :
  wf h a -> update_facts h a rect event type remove news res ->
  p ∈ PointerArray.elems a -> p ∉ (PointerArray.matched res).*1.
Proof.
  intros [_ Hin] F Hp Hm. apply (uf_new _ _ _ _ _ _ _ _ F) in Hm.
  rewrite (uf_elems _ _ _ _ _ _ _ _ F) in Hm.
  apply elem_of_seq in Hm. apply Hin in Hp. lia.
Qed.

(** * The statements of the specification *)

Lemma two_down_reachable :
  reachable (PointerArray.heap two_down) (PointerArray.self two_down).
Proof.
  apply (reach_update [] (PointerArray.new Scenario.div1) Scenario.origin
           (Scenario.touch_event [Scenario.touch_at 0 0; Scenario.touch_at 10 0])
           "pointerdown" false two_down).
  - apply reach_new.
  - vm_compute. reflexivity.
Defined.

(** C1. In every call of [update] on a reachable array, with coordinates
    for which the JavaScript computes with integers, each pair (n, p) on
    which [n.update(p)] runs (so that [n] takes over the identity of [p]) is
    mutually nearest: [p] is what [getClosest] returns for [n] among the
    pointers of the previous frame not consumed by an earlier pair, and no
    pointer among them is at a lesser Euclidean distance from [n], the
    distances being the doubles that [Math.sqrt] returns; and [n] is what
    [getClosest] returns for [p] among all pointers of this frame, and no
    pointer among them is at a lesser distance from [p].  In particular,
    from previous pointers at (0,0) and (10,0), the samples (1,0) and (9,0)
    are paired (1,0) with (0,0) and (9,0) with (10,0), never crossed; and
    from previous pointers at (0,0) and (10,10) a sample is paired with
    the pointer nearest in the plane, not with the one nearest along one
    axis. *)
Theorem C1_mutual_nearest (h : Heap) (a : PointerArray.t) (rect : Rect)
    (event : Event) (type : string) (remove : bool) :
  reachable h a ->
  positions_in_range h (PointerArray.elems a) = true ->
  samples_in_range rect event = true ->
  (exists res,
     PointerArray.update h a rect event type remove = Some res /\
     mutually_nearest h a res)
  /\ uncrossed_pairing /\ nearest_in_the_plane.
Proof.
  intros Hr _ _. split;
    [|split; split; eexists; (split; [vm_compute; reflexivity|done])].
  pose proof (reachable_wf _ _ Hr) as Hwf.
  destruct (update_spec h a rect event type remove Hwf) as (news & res & Hres & F).
  exists res. split; [done|]. intros pre n p post Hm. simpl.
  destruct (uf_mutual _ _ _ _ _ _ _ _ F _ _ _ _ Hm) as [H1 H2].
  assert ((n, p) ∈ PointerArray.matched res) as Hnp.
  { rewrite Hm. apply elem_of_app. right. left. }
  split_and!; try done.
  - apply (uf_new _ _ _ _ _ _ _ _ F). apply list_elem_of_fmap. by exists (n, p).
  - by eapply getClosest_elem.
  - by rewrite (uf_rebased _ _ _ _ _ _ _ _ F _ _ Hnp).
  - apply getClosest_Some in H1 as (_ & _ & Hmin & _).
    intros q Hq. rewrite <- !distance_euclidean. by apply Hmin.
  - apply getClosest_Some in H2 as (_ & _ & Hmin & _).
    intros m Hm'. rewrite <- !distance_euclidean. by apply Hmin.
Qed.

Lemma C1_mutual_nearest_witness :
  reachable (PointerArray.heap two_down) (PointerArray.self two_down)
  /\ positions_in_range (PointerArray.heap two_down)
       (PointerArray.elems (PointerArray.self two_down)) = true
  /\ samples_in_range Scenario.origin approach = true
  /\ ((exists res,
         PointerArray.update (PointerArray.heap two_down) (PointerArray.self two_down)
           Scenario.origin approach "pointermove" false = Some res /\
         mutually_nearest (PointerArray.heap two_down) (PointerArray.self two_down) res)
      /\ uncrossed_pairing /\ nearest_in_the_plane).
Proof.
  split; [exact two_down_reachable|].
  split; [reflexivity|]. split; [reflexivity|].
  apply (C1_mutual_nearest (PointerArray.heap two_down) (PointerArray.self two_down)
           Scenario.origin approach "pointermove" false).
  - exact two_down_reachable.
  - reflexivity.
  - reflexivity.
Defined.

(** C3. After every call of [update] on a reachable array, [previous] is
    empty, [removed] holds exactly the pointers of the prior frame that no
    pair of this frame consumed (each once), and no object is in both the
    current array and [removed]. *)
Theorem C3_removed_exactly_unmatched (h : Heap) (a : PointerArray.t) (rect : Rect)
    (event : Event) (type : string) (remove : bool) :
  reachable h a ->
  exists res,
    PointerArray.update h a rect event type remove = Some res /\
    PointerArray.previous (PointerArray.self res) = [] /\
    (forall r, r ∈ PointerArray.removed (PointerArray.self res)
               <-> r ∈ PointerArray.elems a /\ r ∉ (PointerArray.matched res).*2) /\
    NoDup (PointerArray.removed (PointerArray.self res)) /\
    (forall r, r ∈ PointerArray.elems (PointerArray.self res) ->
               r ∉ PointerArray.removed (PointerArray.self res)).
Proof.
  intros Hr. pose proof (reachable_wf _ _ Hr) as Hwf.
  destruct (update_spec h a rect event type remove Hwf) as (news & res & Hres & F).
  exists res. split; [done|]. split; [apply (uf_previous _ _ _ _ _ _ _ _ F)|].
  rewrite (uf_removed _ _ _ _ _ _ _ _ F), (uf_elems _ _ _ _ _ _ _ _ F).
  split; [|split].
  - intros r. by rewrite elem_of_reverse, list_elem_of_difference.
  - rewrite reverse_Permutation. apply NoDup_list_difference, Hwf.
  - intros r Hnew%elem_of_seq.
    rewrite elem_of_reverse, list_elem_of_difference. intros [Hold _].
    apply Hwf in Hold. lia.
Qed.

Lemma C3_removed_exactly_unmatched_witness :
  reachable (PointerArray.heap two_down) (PointerArray.self two_down)
  /\ exists res,
       PointerArray.update (PointerArray.heap two_down) (PointerArray.self two_down)
         Scenario.origin (Scenario.touch_event [Scenario.touch_at 9 0])
         "pointermove" false = Some res /\
       PointerArray.previous (PointerArray.self res) = [] /\
       (forall r, r ∈ PointerArray.removed (PointerArray.self res)
                  <-> r ∈ PointerArray.elems (PointerArray.self two_down)
                      /\ r ∉ (PointerArray.matched res).*2) /\
       NoDup (PointerArray.removed (PointerArray.self res)) /\
       (forall r, r ∈ PointerArray.elems (PointerArray.self res) ->
                  r ∉ PointerArray.removed (PointerArray.self res)).
Proof.
  split; [exact two_down_reachable|].
  apply (C3_removed_exactly_unmatched (PointerArray.heap two_down)
           (PointerArray.self two_down)).
  exact two_down_reachable.
Defined.

(** C4. After every call of [update] on a reachable array, a pointer [n]
    matched to a predecessor [p] has movement = position - position of [p],
    distance = position - start, and start (and identity) copied from [p];
    a current pointer that was not matched has zero movement, zero distance
    and start = position. *)
Theorem C4_kinematics (h : Heap) (a : PointerArray.t) (rect : Rect)
    (event : Event) (type : string) (remove : bool) :
  reachable h a ->
  exists res,
    PointerArray.update h a rect event type remove = Some res /\
    (forall n p, (n, p) ∈ PointerArray.matched res ->
       rebased_on (deref (PointerArray.heap res) n) (deref (PointerArray.heap res) p)) /\
    (forall n, n ∈ PointerArray.elems (PointerArray.self res) ->
       n ∉ (PointerArray.matched res).*1 ->
       freshly_created (deref (PointerArray.heap res) n)).
Proof.
  intros Hr. pose proof (reachable_wf _ _ Hr) as Hwf.
  destruct (update_spec h a rect event type remove Hwf) as (news & res & Hres & F).
  exists res. split; [done|]. split.
  - intros n p Hnp.
    assert (p ∈ PointerArray.elems a) as Hp.
    { apply (uf_old _ _ _ _ _ _ _ _ F), list_elem_of_fmap. by exists (n, p). }
    rewrite (uf_rebased _ _ _ _ _ _ _ _ F _ _ Hnp).
    rewrite (uf_frame _ _ _ _ _ _ _ _ F p)
      by (by eapply old_not_matched_new).
    replace (deref (h ++ news) p) with (deref h p)
      by (symmetry; apply lookup_total_app_l, Hwf, Hp).
    repeat split.
  - intros n Hn Hnm. rewrite (uf_frame _ _ _ _ _ _ _ _ F n Hnm).
    rewrite (uf_elems _ _ _ _ _ _ _ _ F) in Hn.
    destruct (deref_created h news _ n (uf_samples _ _ _ _ _ _ _ _ F) Hn)
      as (id & touch & ->).
    repeat split.
Qed.

Lemma C4_kinematics_witness :
  reachable (PointerArray.heap two_down) (PointerArray.self two_down)
  /\ exists res,
       PointerArray.update (PointerArray.heap two_down) (PointerArray.self two_down)
         Scenario.origin
         (Scenario.touch_event [Scenario.touch_at 3 4; Scenario.touch_at 50 50;
                                Scenario.touch_at 12 1])
         "pointermove" false = Some res /\
       (forall n p, (n, p) ∈ PointerArray.matched res ->
          rebased_on (deref (PointerArray.heap res) n)
                     (deref (PointerArray.heap res) p)) /\
       (forall n, n ∈ PointerArray.elems (PointerArray.self res) ->
          n ∉ (PointerArray.matched res).*1 ->
          freshly_created (deref (PointerArray.heap res) n)).
Proof.
  split; [exact two_down_reachable|].
  apply (C4_kinematics (PointerArray.heap two_down) (PointerArray.self two_down)).
  exact two_down_reachable.
Defined.

(** C6. A call of [update] with the [remove] flag set creates no pointer:
    the store is as before, the current array is empty, nothing is
    matched, and [removed] holds every pointer of the prior frame (last
    one first). *)
Theorem C6_remove_flag (h : Heap) (a : PointerArray.t) (rect : Rect)
    (event : Event) (type : string) :
  exists res,
    PointerArray.update h a rect event type true = Some res /\
    PointerArray.heap res = h /\
    PointerArray.matched res = [] /\
    PointerArray.elems (PointerArray.self res) = [] /\
    PointerArray.previous (PointerArray.self res) = [] /\
    PointerArray.removed (PointerArray.self res) = reverse (PointerArray.elems a) /\
    (forall r, r ∈ PointerArray.elems a ->
               r ∈ PointerArray.removed (PointerArray.self res)).
Proof.
  unfold PointerArray.update. simpl. rewrite drain_spec.
  eexists. split; [done|]. simpl. split_and!; try done.
  intros r Hr. by apply elem_of_reverse.
Qed.




(** C8. On a non-empty array of candidates, with positions for which the
    JavaScript computes with integers, [getClosest] returns a candidate at
    the least Euclidean distance from the query pointer, the distances being
    the doubles that [Math.sqrt] returns, and among the candidates at that
    distance the one met first: every candidate before it in the array is
    strictly farther.  The result is determined by the positions and the
    order of the candidates alone.  Three scenarios show the choice: a tie
    of three at distance 5 after a farther candidate, candidates that are
    nearest along one axis only, and two candidates whose distances round to
    the same double. *)
Theorem C8_first_of_the_nearest (h : Heap) (pointer : Ref) (pointers : list Ref) :
  pointers <> [] ->
  positions_in_range h (pointer :: pointers) = true ->
  (exists (i : nat) (closest : Ref),
     getClosest h pointer pointers = Some closest /\
     pointers !! i = Some closest /\
     (forall q, q ∈ pointers ->
        euclidean (position h pointer) (position h closest)
        <= euclidean (position h pointer) (position h q)) /\
     (forall j q, (j < i)%nat -> pointers !! j = Some q ->
        euclidean (position h pointer) (position h closest)
        < euclidean (position h pointer) (position h q)))
  /\ (forall h', same_positions h h' ->
                 getClosest h' pointer pointers = getClosest h pointer pointers)
  /\ nearest_examples.
Proof.
  intros Hne _. split; [|split].
  - destruct pointers as [|a ps]; [done|].
    destruct (getClosest_cons h pointer a ps) as (i & c & Hc & Hi & Hmin & Hfirst).
    exists i, c. split; [done|]. split; [done|]. split.
    + intros q Hq. rewrite <- !distance_euclidean. by apply Hmin.
    + intros j q Hj Hq. rewrite <- !distance_euclidean. by eapply Hfirst.
  - intros h' Hpos. symmetry. by apply getClosest_same_positions.
  - unfold nearest_examples. split_and!; by vm_compute.
Qed.

Lemma C8_first_of_the_nearest_witness :
  [1; 2]%nat <> []
  /\ positions_in_range equal_roots [0; 1; 2]%nat = true
  /\ ((exists (i : nat) (closest : Ref),
         getClosest equal_roots 0%nat [1; 2]%nat = Some closest /\
         [1; 2]%nat !! i = Some closest /\
         (forall q, q ∈ [1; 2]%nat ->
            euclidean (position equal_roots 0%nat) (position equal_roots closest)
            <= euclidean (position equal_roots 0%nat) (position equal_roots q)) /\
         (forall j q, (j < i)%nat -> [1; 2]%nat !! j = Some q ->
            euclidean (position equal_roots 0%nat) (position equal_roots closest)
            < euclidean (position equal_roots 0%nat) (position equal_roots q)))
      /\ (forall h', same_positions equal_roots h' ->
                     getClosest h' 0%nat [1; 2]%nat
                     = getClosest equal_roots 0%nat [1; 2]%nat)
      /\ nearest_examples).
Proof.
  split; [discriminate|]. split; [reflexivity|].
  apply (C8_first_of_the_nearest equal_roots 0%nat [1; 2]%nat).
  - discriminate.
  - reflexivity.
Defined.

(** ** The listener registry *)

Lemma listeners_of_default (ls : PointerEvents.Listeners) (type : string) :
  PointerEvents.listeners_of ls type = default [] (default ∅ ls !! type).
Proof. destruct ls as [m|]; [done|]. simpl. by rewrite lookup_empty. Qed.

(** [addEventListener] appends a listener that is new for its type and
    changes nothing else. *)
Lemma listeners_of_add (ls : PointerEvents.Listeners) (type type' : string)
    (f : PointerEvents.Listener) :
  PointerEvents.listeners_of (PointerEvents.addEventListener ls type f) type'
  = if decide (type = type')
    then if decide (f ∈ PointerEvents.listeners_of ls type)
         then PointerEvents.listeners_of ls type
         else PointerEvents.listeners_of ls type ++ [f]
    else PointerEvents.listeners_of ls type'.
Proof.
  rewrite !listeners_of_default. unfold PointerEvents.addEventListener.
  generalize (default ∅ ls). intros m. rewrite lookup_insert_eq. simpl.
  destruct (indexOf _ f =? -1) eqn:Hi;
    [apply Z.eqb_eq in Hi|apply Z.eqb_neq in Hi];
    rewrite indexOf_minus_one in Hi; simpl.
  - destruct (decide (type = type')) as [<-|Hne].
    + destruct (decide (f ∈ default [] (m !! type))); [contradiction|].
      by rewrite lookup_insert_eq.
    + by rewrite !lookup_insert_ne.
  - destruct (decide (type = type')) as [<-|Hne].
    + destruct (decide (f ∈ default [] (m !! type))); [|contradiction].
      by rewrite lookup_insert_eq.
    + by rewrite lookup_insert_ne.
Qed.

(** [removeEventListener] takes out the first occurrence of the listener
    and changes nothing else. *)
Lemma listeners_of_remove (ls : PointerEvents.Listeners) (type type' : string)
    (f : PointerEvents.Listener) :
  PointerEvents.listeners_of (PointerEvents.removeEventListener ls type f) type'
  = if decide (type = type')
    then splice1 (PointerEvents.listeners_of ls type)
           (if decide (f ∈ PointerEvents.listeners_of ls type)
            then indexOf (PointerEvents.listeners_of ls type) f
            else Z.of_nat (length (PointerEvents.listeners_of ls type)))
    else PointerEvents.listeners_of ls type'.
Proof.
  assert (forall l : list Ref, splice1 l (Z.of_nat (length l)) = l) as Hend.
  { intros l. unfold splice1.
    destruct (Z.ltb_spec (Z.of_nat (length l)) 0); [lia|].
    rewrite Z.min_id, Nat2Z.id. rewrite delete_take_drop.
    rewrite take_ge, drop_ge by lia. apply app_nil_r. }
  destruct ls as [m|]; simpl; cycle 1.
  { destruct (decide (type = type')); [|done].
    destruct (decide (f ∈ [])) as [Hin|_]; [inversion Hin|done]. }
  destruct (m !! type) as [array|] eqn:Harr; simpl.
  - destruct (indexOf _ f =? -1) eqn:Hi;
      [apply Z.eqb_eq in Hi|apply Z.eqb_neq in Hi];
      rewrite indexOf_minus_one in Hi; simpl.
    + destruct (decide (type = type')) as [<-|Hne]; [|done].
      destruct (decide (f ∈ array)); [contradiction|].
      by rewrite Harr, Hend.
    + destruct (decide (type = type')) as [<-|Hne].
      * destruct (decide (f ∈ array)); [|contradiction].
        by rewrite lookup_insert_eq.
      * by rewrite lookup_insert_ne.
  - destruct (decide (type = type')) as [<-|Hne]; [|done].
    by rewrite Harr.
Qed.

Lemma splice1_sublist (l : list Ref) (i : Z) : splice1 l i `sublist_of` l.
Proof. unfold splice1. apply sublist_delete. Qed.

(** No method registers a listener twice for a type. *)
Lemma api_reachable_NoDup (ls : PointerEvents.Listeners) (type : string) :
  PointerEvents.api_reachable ls -> NoDup (PointerEvents.listeners_of ls type).
Proof.
  intros H. revert type.
  induction H as [|ls t f _ IH|ls t f _ IH|ls _ IH]; intros type.
  - constructor.
  - rewrite listeners_of_add. destruct (decide (t = type)) as [<-|]; [|done].
    destruct (decide (f ∈ PointerEvents.listeners_of ls t)); [done|].
    apply NoDup_app. split; [done|]. split; [|apply NoDup_singleton].
    intros x Hx ->%list_elem_of_singleton. done.
  - rewrite listeners_of_remove. destruct (decide (t = type)) as [<-|]; [|done].
    eapply sublist_NoDup; [apply IH|apply splice1_sublist].
  - constructor.
Qed.

Section DispatchFacts.
Context {Ev : Type}.
Variable ev_type : Ev -> string.
Variable call : PointerEvents.Listener -> Ev -> PointerEvents.Listeners
                -> PointerEvents.Listeners.

Lemma dispatch_loop_spec (array : list PointerEvents.Listener) (event : Ev) :
  forall (ls : PointerEvents.Listeners) (invoked : list PointerEvents.Listener),
    PointerEvents.dispatch_loop call array event ls invoked
    = (foldl (fun acc f => call f event acc) ls array, invoked ++ array).
Proof.
  induction array as [|f rest IH]; intros ls invoked; simpl.
  - by rewrite app_nil_r.
  - by rewrite IH, <- app_assoc.
Qed.

Lemma dispatchEvent_spec (ls : PointerEvents.Listeners) (event : Ev) :
  PointerEvents.dispatchEvent ev_type call ls event
  = (foldl (fun acc f => call f event acc) ls
       (PointerEvents.listeners_of ls (ev_type event)),
     PointerEvents.listeners_of ls (ev_type event)).
Proof.
  destruct ls as [m|]; simpl; [|done].
  destruct (m !! ev_type event); simpl; [|done].
  apply dispatch_loop_spec.
Qed.
End DispatchFacts.

(** C9. A dispatch invokes exactly the listeners registered for the event's
    type when it begins, in the order of the registry, whatever the
    listeners do to the registry while they run; so a listener that is not
    registered when the pass begins is not invoked in it, even if a
    listener registers it during the pass.  The order of the registry is the
    order of registration: [addEventListener] puts a listener that is new
    for its type after all those already there and leaves the arrays of the
    other types alone. *)
Theorem C9_dispatch_snapshot {Ev : Type} (ev_type : Ev -> string)
    (call : PointerEvents.Listener -> Ev -> PointerEvents.Listeners
            -> PointerEvents.Listeners)
    (ls : PointerEvents.Listeners) (event : Ev) :
  let registered := PointerEvents.listeners_of ls (ev_type event) in
  PointerEvents.dispatchEvent ev_type call ls event
    = (foldl (fun acc f => call f event acc) ls registered, registered)
  /\ (forall f, f ∉ registered ->
                f ∉ (PointerEvents.dispatchEvent ev_type call ls event).2)
  /\ (forall type f,
        PointerEvents.listeners_of (PointerEvents.addEventListener ls type f) type
        = if decide (f ∈ PointerEvents.listeners_of ls type)
          then PointerEvents.listeners_of ls type
          else PointerEvents.listeners_of ls type ++ [f])
  /\ (forall type type' f, type <> type' ->
        PointerEvents.listeners_of (PointerEvents.addEventListener ls type f) type'
        = PointerEvents.listeners_of ls type')
  /\ (let ls1 := PointerEvents.addEventListener None "pointerdown" 1%nat in
      let pass1 := PointerEvents.dispatchEvent id registers_another ls1 "pointerdown" in
      let pass2 := PointerEvents.dispatchEvent id registers_another pass1.1 "pointerdown" in
      pass1.2 = [1%nat] /\
      PointerEvents.listeners_of pass1.1 "pointerdown" = [1%nat; 2%nat] /\
      pass2.2 = [1%nat; 2%nat]).
Proof.
  simpl. rewrite dispatchEvent_spec. simpl. split_and!; try done.
  - intros type f. rewrite listeners_of_add. by rewrite decide_True.
  - intros type type' f Hne. rewrite listeners_of_add. by rewrite decide_False.
Qed.

(** C10. Registering a pair (type, listener) that is already registered
    leaves the registry as it is, so registering twice is the same as
    registering once; hence, in a registry built through the methods, no
    listener is twice in an array, and a dispatch invokes every registered
    listener at most once. *)
Theorem C10_register_idempotent {Ev : Type} (ev_type : Ev -> string)
    (call : PointerEvents.Listener -> Ev -> PointerEvents.Listeners
            -> PointerEvents.Listeners)
    (ls : PointerEvents.Listeners) (type : string)
    (listener : PointerEvents.Listener) (event : Ev) :
  PointerEvents.api_reachable ls ->
  (PointerEvents.hasEventListener ls type listener = true ->
   PointerEvents.addEventListener ls type listener = ls)
  /\ PointerEvents.addEventListener
       (PointerEvents.addEventListener ls type listener) type listener
     = PointerEvents.addEventListener ls type listener
  /\ NoDup (PointerEvents.dispatchEvent ev_type call ls event).2.
Proof.
  intros Hls.
  assert (forall ls0 : PointerEvents.Listeners,
            PointerEvents.hasEventListener ls0 type listener = true ->
            PointerEvents.addEventListener ls0 type listener = ls0) as Hid.
  { intros [m|]; simpl; [|done].
    destruct (m !! type) as [array|] eqn:Harr; [|done].
    intros Hhas. unfold PointerEvents.addEventListener. simpl.
    rewrite Harr. simpl. rewrite insert_id by done. rewrite Harr. simpl.
    by destruct (indexOf array listener =? -1). }
  split; [apply Hid|]. split.
  - apply Hid. unfold PointerEvents.addEventListener.
    generalize (default ∅ ls). intros m.
    rewrite lookup_insert_eq. simpl.
    destruct (indexOf _ listener =? -1) eqn:Hi; simpl; rewrite lookup_insert_eq.
    + destruct (indexOf (_ ++ _) listener =? -1) eqn:Hj; [|done].
      apply Z.eqb_eq, indexOf_minus_one in Hj. exfalso. apply Hj.
      apply elem_of_app. right. left.
    + simpl. by rewrite Hi.
  - rewrite dispatchEvent_spec. simpl. by apply api_reachable_NoDup.
Qed.

Lemma C10_register_idempotent_witness :
  PointerEvents.api_reachable twice_registered
  /\ ((PointerEvents.hasEventListener twice_registered "pointermove" 7%nat = true ->
       PointerEvents.addEventListener twice_registered "pointermove" 7%nat
       = twice_registered)
      /\ PointerEvents.addEventListener
           (PointerEvents.addEventListener twice_registered "pointermove" 7%nat)
           "pointermove" 7%nat
         = PointerEvents.addEventListener twice_registered "pointermove" 7%nat
      /\ NoDup (PointerEvents.dispatchEvent id registers_another
                  twice_registered "pointermove").2).
Proof.
  assert (PointerEvents.api_reachable twice_registered) as H.
  { repeat apply PointerEvents.api_add. apply PointerEvents.api_fresh. }
  split; [exact H|].
  apply (C10_register_idempotent id registers_another twice_registered
           "pointermove" 7%nat "pointermove" H).
Defined.

(** Every state [Scenario.run] goes through is reachable. *)
Lemma run_from_reachable (calls : list (Event * string * bool)) :
  forall start res,
    reachable (PointerArray.heap start) (PointerArray.self start) ->
    foldl (fun acc c =>
             match acc with
             | None => None
             | Some r =>
                 let '(event, type, remove) := c in
                 PointerArray.update (PointerArray.heap r) (PointerArray.self r)
                   Scenario.origin event type remove
             end) (Some start) calls = Some res ->
    reachable (PointerArray.heap res) (PointerArray.self res).
Proof.
  induction calls as [|[[event type] remove] calls IH]; intros start res Hs; simpl.
  - intros [= <-]. done.
  - destruct (PointerArray.update (PointerArray.heap start) (PointerArray.self start)
                Scenario.origin event type remove) as [next|] eqn:Hn.
    + apply IH. by eapply reach_update.
    + intros Hnone. exfalso. clear -Hnone.
      induction calls as [|c calls IHc]; simpl in Hnone; [done|auto].
Qed.

Lemma run_reachable (calls : list (Event * string * bool)) (res : PointerArray.Result) :
  Scenario.run calls = Some res ->
  reachable (PointerArray.heap res) (PointerArray.self res).
Proof. apply run_from_reachable. simpl. apply reach_new. Qed.

(** C2 fails on the code.  After the three calls of [lift_then_add] the
    array is reachable and its two pointers, at (10,0) and (50,50), both
    carry [pointerID] 1: the finger that stayed inherits 1 from its
    predecessor, and the new finger keeps the provisional 1 it was numbered
    with. *)
Theorem C2_identity_collision :
  exists res,
    Scenario.run lift_then_add = Some res /\
    reachable (PointerArray.heap res) (PointerArray.self res) /\
    map (fun p => (Pointer.pointerID p, (Pointer.x p, Pointer.y p)))
        (Scenario.current res)
    = [(1, (10, 0)); (1, (50, 50))] /\
    ~ NoDup (map Pointer.pointerID (Scenario.current res)).
Proof.
  eexists. split; [vm_compute; reflexivity|]. split; [|split].
  - apply (run_reachable lift_then_add). vm_compute. reflexivity.
  - vm_compute. reflexivity.
  - vm_compute. intros Hnd. apply NoDup_cons in Hnd as [Hnot _].
    apply Hnot. left.
Qed.

(** What [clone] does copy: identity, target, type, kind, client and local
    position, start, horizontal movement, distance, button and buttons;
    the copy is a new object and the store before it is unchanged. *)
Lemma clone_copies (h : Heap) (r : Ref) :
  let this := deref h r in
  let copy := deref (clone h r).1 (clone h r).2 in
  (clone h r).2 = length h /\
  (forall q, (q < length h)%nat -> deref (clone h r).1 q = deref h q) /\
  Pointer.pointerID copy = Pointer.pointerID this /\
  Pointer.target copy = Pointer.target this /\
  Pointer.type copy = Pointer.type this /\
  Pointer.pointerType copy = Pointer.pointerType this /\
  Pointer.clientX copy = Pointer.clientX this /\
  Pointer.clientY copy = Pointer.clientY this /\
  Pointer.x copy = Pointer.x this /\
  Pointer.y copy = Pointer.y this /\
  Pointer.startX copy = Pointer.startX this /\
  Pointer.startY copy = Pointer.startY this /\
  Pointer.movementX copy = Pointer.movementX this /\
  Pointer.distanceX copy = Pointer.distanceX this /\
  Pointer.distanceY copy = Pointer.distanceY this /\
  Pointer.button copy = Pointer.button this /\
  Pointer.buttons copy = Pointer.buttons this.
Proof.
  unfold clone, alloc, deref. simpl.
  rewrite (list_lookup_total_middle h [] (Pointer.clone_value (h !!! r))
             (length h) eq_refl).
  split_and!; try done.
  intros q Hq. by rewrite lookup_total_app_l.
Qed.

(** C5 fails on the code.  The pointer of [down_then_move] has movement
    (3,4) and [shiftKey] false; its clone has movement (3,0) and no
    [shiftKey]: [clone] assigns [movementXY] where [movementY] is meant and
    does not copy the modifier keys. *)
Theorem C5_clone_loses_movementY :
  exists res r,
    Scenario.run down_then_move = Some res /\
    PointerArray.elems (PointerArray.self res) = [r] /\
    let this := deref (PointerArray.heap res) r in
    let copy := deref (clone (PointerArray.heap res) r).1
                      (clone (PointerArray.heap res) r).2 in
    (Pointer.movementX this, Pointer.movementY this) = (3, 4) /\
    (Pointer.movementX copy, Pointer.movementY copy) = (3, 0) /\
    Pointer.shiftKey this = Some true /\
    Pointer.shiftKey copy = None.
Proof.
  eexists. eexists. split; [vm_compute; reflexivity|].
  split; [vm_compute; reflexivity|]. vm_compute. done.
Qed.

(** * Further properties of the code *)

(** ** The first loop of [update], in closed form *)

Section Captured.
Variables (this_target : Element) (rect : Rect) (event : Event)
          (type pointerType : string) (buttons : Z).

Lemma capture_captured (touches : list Touch) :
  forall (h : Heap) (this : list Ref) (id : Z),
    PointerArray.capture this_target rect event type pointerType buttons
      h this id touches
    = (h ++ captured this_target rect event type pointerType buttons id touches,
       this ++ seq (length h)
                 (length (List.filter (passes this_target event) touches))).
Proof.
  unfold captured.
  induction touches as [|touch rest IH]; intros h this id; simpl.
  - by rewrite !app_nil_r.
  - fold (passes this_target event touch).
    destruct (passes this_target event touch); [|apply IH].
    rewrite IH. simpl. rewrite Z.add_0_r, <- !app_assoc, length_app. simpl.
    rewrite Nat.add_1_r. do 3 f_equal.
    apply imap_ext. intros k t _. simpl. f_equal. lia.
Qed.

Lemma captured_samples (id : Z) (touches : list Touch) :
  Forall (is_sample this_target rect event type pointerType buttons)
         (captured this_target rect event type pointerType buttons id touches).
Proof.
  apply Forall_lookup_2. intros k p. unfold captured.
  rewrite list_lookup_imap. destruct (_ !! k); [|done].
  intros [= <-]. by eexists _, _.
Qed.

Lemma captured_length (id : Z) (touches : list Touch) :
  length (captured this_target rect event type pointerType buttons id touches)
  = length (List.filter (passes this_target event) touches).
Proof. unfold captured. apply length_imap. Qed.
End Captured.

(** [update_spec] with the created pointers made explicit. *)
Lemma update_spec_news (h : Heap) (a : PointerArray.t) (rect : Rect) (event : Event)
    (type : string) (remove : bool) :
  wf h a ->
  exists res,
    PointerArray.update h a rect event type remove = Some res
    /\ update_facts h a rect event type remove (news_of a rect event type remove) res.
Proof.
  intros Hwf. destruct remove.
  - destruct (update_spec h a rect event type true Hwf) as (news & res & Hres & F).
    exists res. split; [done|].
    destruct (uf_remove _ _ _ _ _ _ _ _ F eq_refl) as (-> & _). done.
  - destruct Hwf as [Hnd Hin]. unfold PointerArray.update, news_of.
    set (news := captured (PointerArray.target a) rect event type
                   (PointerArray.pointerType_of event) (PointerArray.buttons_of event)
                   0 (PointerArray.touches_of event)).
    simpl. rewrite capture_captured. fold news.
    rewrite <- (captured_length (PointerArray.target a) rect event type
                  (PointerArray.pointerType_of event) (PointerArray.buttons_of event) 0).
    fold news. simpl.
    set (this1 := seq (length h) (length news)).
    destruct (match_loop_spec this1 this1 (h ++ news) (PointerArray.elems a) [])
      as (h' & new & Heq & Hl & Hpos & Hnd1 & Hsub1 & Hsub2 & Hframe & Hcont & Hsplit).
    { apply NoDup_seq. }
    { done. }
    { intros r Hr%elem_of_seq Hr'. apply Hin in Hr'. lia. }
    { intros r Hr%elem_of_seq. rewrite length_app. lia. }
    rewrite Heq, drain_spec. eexists. split; [done|].
    constructor; simpl; try done.
    + by rewrite Hl, length_app.
    + apply captured_samples.
    + intros n p Hnp. rewrite (Hcont _ _ Hnp). f_equal.
      unfold deref. apply lookup_total_app_l, Hin, Hsub2.
      apply list_elem_of_fmap. by exists (n, p).
    + intros pre n p post Hnew. destruct (Hsplit _ _ _ _ Hnew) as [H1 H2].
      by rewrite !(getClosest_same_positions h' (h ++ news)).
Qed.

(** A list none of whose elements occurs before itself has no repetition. *)
Lemma NoDup_snd_splits (m : list (Ref * Ref)) :
  (forall pre n p post, m = pre ++ (n, p) :: post -> p ∉ pre.*2) ->
  NoDup m.*2.
Proof.
  induction m as [|[n p] m IH] using rev_ind; intros H; [constructor|].
  rewrite fmap_app. apply NoDup_app. split; [|split].
  - apply IH. intros pre n' p' post ->.
    apply (H pre n' p' (post ++ [(n, p)])). by rewrite <- app_assoc.
  - intros x Hx ->%list_elem_of_singleton. revert Hx. by apply (H m n p []).
  - apply NoDup_singleton.
Qed.

(** Within a call, no predecessor is consumed by two pairs. *)
Lemma update_facts_NoDup_old (h : Heap) (a : PointerArray.t) (rect : Rect)
    (event : Event) (type : string) (remove : bool)
    (news : list Pointer.t) (res : PointerArray.Result) :
  update_facts h a rect event type remove news res ->
  NoDup (PointerArray.matched res).*2.
Proof.
  intros F. apply NoDup_snd_splits. intros pre n p post Hm.
  destruct (uf_mutual _ _ _ _ _ _ _ _ F _ _ _ _ Hm) as [H1 _].
  apply getClosest_elem, list_elem_of_difference in H1. tauto.
Qed.

Lemma list_difference_length (l k : list Ref) :
  NoDup l -> NoDup k -> (forall x, x ∈ k -> x ∈ l) ->
  (length (list_difference l k) + length k = length l)%nat.
Proof.
  intros Hl Hk Hsub. rewrite <- length_app. apply Permutation_length.
  apply NoDup_Permutation; [|done|].
  - apply NoDup_app. split; [by apply NoDup_list_difference|]. split; [|done].
    intros x Hx%list_elem_of_difference. tauto.
  - intros x. rewrite elem_of_app, list_elem_of_difference.
    split; [intros [[? ?]|?]; auto|].
    intros ?. destruct (decide (x ∈ k)); auto.
Qed.

(** X1. In every call of [update] on a reachable array the matched pairs
    form a one-to-one correspondence between some pointers of the new frame
    and some pointers of the previous frame: no new pointer is rebased twice
    and no previous pointer is taken over by two new pointers. *)
Theorem X_matching_one_to_one (h : Heap) (a : PointerArray.t) (rect : Rect)
    (event : Event) (type : string) (remove : bool) :
  reachable h a ->
  exists res,
    PointerArray.update h a rect event type remove = Some res /\
    NoDup (PointerArray.matched res).*1 /\
    NoDup (PointerArray.matched res).*2 /\
    (forall n p, (n, p) ∈ PointerArray.matched res ->
       n ∈ PointerArray.elems (PointerArray.self res) /\ p ∈ PointerArray.elems a).
Proof.
  intros Hr. pose proof (reachable_wf _ _ Hr) as Hwf.
  destruct (update_spec h a rect event type remove Hwf) as (news & res & Hres & F).
  exists res. split; [done|]. split; [apply (uf_nodup _ _ _ _ _ _ _ _ F)|].
  split; [by eapply update_facts_NoDup_old|].
  intros n p Hnp. split.
  - apply (uf_new _ _ _ _ _ _ _ _ F), list_elem_of_fmap. by exists (n, p).
  - apply (uf_old _ _ _ _ _ _ _ _ F), list_elem_of_fmap. by exists (n, p).
Qed.

Lemma X_matching_one_to_one_witness :
  reachable (PointerArray.heap two_down) (PointerArray.self two_down)
  /\ exists res,
       PointerArray.update (PointerArray.heap two_down) (PointerArray.self two_down)
         Scenario.origin approach "pointermove" false = Some res /\
       NoDup (PointerArray.matched res).*1 /\
       NoDup (PointerArray.matched res).*2 /\
       (forall n p, (n, p) ∈ PointerArray.matched res ->
          n ∈ PointerArray.elems (PointerArray.self res)
          /\ p ∈ PointerArray.elems (PointerArray.self two_down)).
Proof.
  split; [exact two_down_reachable|].
  apply (X_matching_one_to_one (PointerArray.heap two_down)
           (PointerArray.self two_down)).
  exact two_down_reachable.
Defined.

(** X2. Every pointer of the previous frame is accounted for exactly once:
    the number of matched pairs plus the number of removed pointers is the
    number of pointers the array held before the call. *)
Theorem X_previous_accounted (h : Heap) (a : PointerArray.t) (rect : Rect)
    (event : Event) (type : string) (remove : bool) :
  reachable h a ->
  exists res,
    PointerArray.update h a rect event type remove = Some res /\
    (length (PointerArray.matched res)
     + length (PointerArray.removed (PointerArray.self res))
     = length (PointerArray.elems a))%nat /\
    (length (PointerArray.matched res)
     <= length (PointerArray.elems (PointerArray.self res)))%nat.
Proof.
  intros Hr. pose proof (reachable_wf _ _ Hr) as Hwf.
  destruct (update_spec h a rect event type remove Hwf) as (news & res & Hres & F).
  exists res. split; [done|]. split.
  - rewrite (uf_removed _ _ _ _ _ _ _ _ F), length_reverse.
    rewrite <- (length_fmap snd (PointerArray.matched res)), Nat.add_comm.
    apply list_difference_length.
    + apply Hwf.
    + by eapply update_facts_NoDup_old.
    + apply (uf_old _ _ _ _ _ _ _ _ F).
  - rewrite <- (length_fmap fst (PointerArray.matched res)).
    apply submseteq_length, NoDup_submseteq.
    + apply (uf_nodup _ _ _ _ _ _ _ _ F).
    + apply (uf_new _ _ _ _ _ _ _ _ F).
Qed.

Lemma X_previous_accounted_witness :
  reachable (PointerArray.heap two_down) (PointerArray.self two_down)
  /\ exists res,
       PointerArray.update (PointerArray.heap two_down) (PointerArray.self two_down)
         Scenario.origin (Scenario.touch_event [Scenario.touch_at 9 0])
         "pointermove" false = Some res /\
       (length (PointerArray.matched res)
        + length (PointerArray.removed (PointerArray.self res))
        = length (PointerArray.elems (PointerArray.self two_down)))%nat /\
       (length (PointerArray.matched res)
        <= length (PointerArray.elems (PointerArray.self res)))%nat.
Proof.
  split; [exact two_down_reachable|].
  apply (X_previous_accounted (PointerArray.heap two_down)
           (PointerArray.self two_down)).
  exact two_down_reachable.
Defined.

(** The [k]-th pointer of the new frame as the first loop built it. *)
Lemma created_lookup (h : Heap) (a : PointerArray.t) (rect : Rect) (event : Event)
    (type : string) (k : nat) (n : Ref) :
  seq (length h) (length (news_of a rect event type false)) !! k = Some n ->
  exists touch,
    List.filter (passes (PointerArray.target a) event)
      (PointerArray.touches_of event) !! k = Some touch /\
    deref (h ++ news_of a rect event type false) n
    = PointerArray.sample (PointerArray.target a) rect event type
        (PointerArray.pointerType_of event) (PointerArray.buttons_of event)
        (Z.of_nat k) touch.
Proof.
  intros Hk. apply lookup_seq in Hk as [-> Hlt].
  unfold news_of in Hlt |- *. rewrite captured_length in Hlt.
  destruct (lookup_lt_is_Some_2 _ _ Hlt) as [touch Ht].
  exists touch. split; [done|]. unfold deref.
  rewrite lookup_total_app_r by lia.
  replace (length h + k - length h)%nat with k by lia.
  apply list_lookup_total_correct. unfold captured.
  by rewrite list_lookup_imap, Ht.
Qed.

(** X3. A call of [update] on a reachable array changes no object that
    existed before the call (in particular the pointers of the previous
    frame, which listeners may still hold) and creates exactly one object
    per pointer of the new frame. *)
Theorem X_update_frame (h : Heap) (a : PointerArray.t) (rect : Rect)
    (event : Event) (type : string) (remove : bool) :
  reachable h a ->
  exists res,
    PointerArray.update h a rect event type remove = Some res /\
    (forall r, (r < length h)%nat -> deref (PointerArray.heap res) r = deref h r) /\
    length (PointerArray.heap res)
    = (length h + length (PointerArray.elems (PointerArray.self res)))%nat /\
    PointerArray.target (PointerArray.self res) = PointerArray.target a.
Proof.
  intros Hr. pose proof (reachable_wf _ _ Hr) as Hwf.
  destruct (update_spec h a rect event type remove Hwf) as (news & res & Hres & F).
  exists res. split; [done|]. split; [|split].
  - intros r Hlt. rewrite (uf_frame _ _ _ _ _ _ _ _ F).
    + unfold deref. by apply lookup_total_app_l.
    + intros Hm. apply (uf_new _ _ _ _ _ _ _ _ F) in Hm.
      rewrite (uf_elems _ _ _ _ _ _ _ _ F) in Hm. apply elem_of_seq in Hm. lia.
  - rewrite (uf_length _ _ _ _ _ _ _ _ F), (uf_elems _ _ _ _ _ _ _ _ F).
    by rewrite length_seq.
  - apply (uf_target _ _ _ _ _ _ _ _ F).
Qed.

Lemma X_update_frame_witness :
  reachable (PointerArray.heap two_down) (PointerArray.self two_down)
  /\ exists res,
       PointerArray.update (PointerArray.heap two_down) (PointerArray.self two_down)
         Scenario.origin approach "pointermove" false = Some res /\
       (forall r, (r < length (PointerArray.heap two_down))%nat ->
          deref (PointerArray.heap res) r = deref (PointerArray.heap two_down) r) /\
       length (PointerArray.heap res)
       = (length (PointerArray.heap two_down)
          + length (PointerArray.elems (PointerArray.self res)))%nat /\
       PointerArray.target (PointerArray.self res)
       = PointerArray.target (PointerArray.self two_down).
Proof.
  split; [exact two_down_reachable|].
  apply (X_update_frame (PointerArray.heap two_down) (PointerArray.self two_down)).
  exact two_down_reachable.
Defined.

(** X4. Without the [remove] flag, the new frame has one pointer for each
    touch of the event that passes the target test, in the order of the
    touches; a mouse event (no [touches]) always gives exactly one pointer,
    whatever its target. *)
Theorem X_capture_count (h : Heap) (a : PointerArray.t) (rect : Rect)
    (event : Event) (type : string) :
  reachable h a ->
  exists res,
    PointerArray.update h a rect event type false = Some res /\
    length (PointerArray.elems (PointerArray.self res))
    = length (List.filter (passes (PointerArray.target a) event)
                (PointerArray.touches_of event)) /\
    (forall k n, PointerArray.elems (PointerArray.self res) !! k = Some n ->
       exists touch,
         List.filter (passes (PointerArray.target a) event)
           (PointerArray.touches_of event) !! k = Some touch /\
         Pointer.clientX (deref (PointerArray.heap res) n) = touch_clientX touch /\
         Pointer.clientY (deref (PointerArray.heap res) n) = touch_clientY touch) /\
    (ev_touches event = None ->
     length (PointerArray.elems (PointerArray.self res)) = 1%nat).
Proof.
  intros Hr. pose proof (reachable_wf _ _ Hr) as Hwf.
  destruct (update_spec_news h a rect event type false Hwf) as (res & Hres & F).
  exists res. split; [done|].
  assert (length (PointerArray.elems (PointerArray.self res))
          = length (List.filter (passes (PointerArray.target a) event)
                      (PointerArray.touches_of event))) as Hlen.
  { rewrite (uf_elems _ _ _ _ _ _ _ _ F), length_seq. apply captured_length. }
  split; [done|]. split.
  - intros k n Hk. rewrite (uf_elems _ _ _ _ _ _ _ _ F) in Hk.
    destruct (created_lookup h a rect event type k n Hk) as (touch & Ht & Hs).
    exists touch. split; [done|].
    destruct (decide (n ∈ (PointerArray.matched res).*1)) as [Hm|Hm].
    + apply list_elem_of_fmap in Hm as ([n' p] & -> & Hnp). simpl in Hs |- *.
      rewrite (uf_rebased _ _ _ _ _ _ _ _ F _ _ Hnp). simpl. by rewrite Hs.
    + rewrite (uf_frame _ _ _ _ _ _ _ _ F n Hm). by rewrite Hs.
  - intros Hmouse. rewrite Hlen. unfold PointerArray.touches_of, passes.
    rewrite Hmouse. simpl. by rewrite orb_true_r.
Qed.

Lemma X_capture_count_witness :
  reachable (PointerArray.heap two_down) (PointerArray.self two_down)
  /\ exists res,
       PointerArray.update (PointerArray.heap two_down) (PointerArray.self two_down)
         Scenario.origin (Scenario.mouse_event 5 5 1) "pointerdown" false = Some res /\
       length (PointerArray.elems (PointerArray.self res))
       = length (List.filter
                   (passes (PointerArray.target (PointerArray.self two_down))
                      (Scenario.mouse_event 5 5 1))
                   (PointerArray.touches_of (Scenario.mouse_event 5 5 1))) /\
       (forall k n, PointerArray.elems (PointerArray.self res) !! k = Some n ->
          exists touch,
            List.filter
              (passes (PointerArray.target (PointerArray.self two_down))
                 (Scenario.mouse_event 5 5 1))
              (PointerArray.touches_of (Scenario.mouse_event 5 5 1)) !! k
            = Some touch /\
            Pointer.clientX (deref (PointerArray.heap res) n) = touch_clientX touch /\
            Pointer.clientY (deref (PointerArray.heap res) n) = touch_clientY touch) /\
       (ev_touches (Scenario.mouse_event 5 5 1) = None ->
        length (PointerArray.elems (PointerArray.self res)) = 1%nat).
Proof.
  split; [exact two_down_reachable|].
  apply (X_capture_count (PointerArray.heap two_down) (PointerArray.self two_down)).
  exact two_down_reachable.
Defined.

(** X5. When no touch of the event passes the target test (for instance
    when [touches] is empty), a call without the [remove] flag does exactly
    what a call with the flag does: the new frame is empty and every pointer
    of the previous frame goes to [removed]. *)
Theorem X_no_sample_is_removal (h : Heap) (a : PointerArray.t) (rect : Rect)
    (event : Event) (type : string) :
  List.filter (passes (PointerArray.target a) event) (PointerArray.touches_of event)
    = [] ->
  PointerArray.update h a rect event type false
  = PointerArray.update h a rect event type true.
Proof.
  intros Hnone. unfold PointerArray.update. simpl.
  rewrite capture_captured. unfold captured. rewrite Hnone. simpl.
  by rewrite app_nil_r.
Qed.

Lemma X_no_sample_is_removal_witness :
  List.filter (passes (PointerArray.target (PointerArray.self two_down))
                 (Scenario.touch_event [touch_elsewhere]))
    (PointerArray.touches_of (Scenario.touch_event [touch_elsewhere])) = []
  /\ PointerArray.update (PointerArray.heap two_down) (PointerArray.self two_down)
       Scenario.origin (Scenario.touch_event [touch_elsewhere]) "pointermove" false
     = PointerArray.update (PointerArray.heap two_down) (PointerArray.self two_down)
         Scenario.origin (Scenario.touch_event [touch_elsewhere]) "pointermove" true.
Proof.
  split; [reflexivity|].
  apply (X_no_sample_is_removal (PointerArray.heap two_down)
           (PointerArray.self two_down) Scenario.origin
           (Scenario.touch_event [touch_elsewhere]) "pointermove").
  reflexivity.
Defined.

(** X6. A pointer of the new frame that is not matched keeps the
    provisional identity it was numbered with: its index in the array. *)
Theorem X_unmatched_identity_is_index (h : Heap) (a : PointerArray.t) (rect : Rect)
    (event : Event) (type : string) :
  reachable h a ->
  exists res,
    PointerArray.update h a rect event type false = Some res /\
    forall k n,
      PointerArray.elems (PointerArray.self res) !! k = Some n ->
      n ∉ (PointerArray.matched res).*1 ->
      Pointer.pointerID (deref (PointerArray.heap res) n) = Z.of_nat k.
Proof.
  intros Hr. pose proof (reachable_wf _ _ Hr) as Hwf.
  destruct (update_spec_news h a rect event type false Hwf) as (res & Hres & F).
  exists res. split; [done|]. intros k n Hk Hm.
  rewrite (uf_elems _ _ _ _ _ _ _ _ F) in Hk.
  destruct (created_lookup h a rect event type k n Hk) as (touch & _ & Hs).
  rewrite (uf_frame _ _ _ _ _ _ _ _ F n Hm). by rewrite Hs.
Qed.

Lemma X_unmatched_identity_is_index_witness :
  reachable (PointerArray.heap two_down) (PointerArray.self two_down)
  /\ exists res,
       PointerArray.update (PointerArray.heap two_down) (PointerArray.self two_down)
         Scenario.origin
         (Scenario.touch_event [Scenario.touch_at 3 4; Scenario.touch_at 50 50;
                                Scenario.touch_at 12 1])
         "pointermove" false = Some res /\
       forall k n,
         PointerArray.elems (PointerArray.self res) !! k = Some n ->
         n ∉ (PointerArray.matched res).*1 ->
         Pointer.pointerID (deref (PointerArray.heap res) n) = Z.of_nat k.
Proof.
  split; [exact two_down_reachable|].
  apply (X_unmatched_identity_is_index (PointerArray.heap two_down)
           (PointerArray.self two_down)).
  exact two_down_reachable.
Defined.

(** X7. On an array that holds no pointer (a new array, or one emptied by
    the previous call) [update] matches nothing and removes nothing, and
    numbers the pointers of the frame 0, 1, 2, ... in order, so their
    identities are pairwise distinct. *)
Theorem X_first_frame_numbering (h : Heap) (a : PointerArray.t) (rect : Rect)
    (event : Event) (type : string) :
  reachable h a ->
  PointerArray.elems a = [] ->
  exists res,
    PointerArray.update h a rect event type false = Some res /\
    PointerArray.matched res = [] /\
    PointerArray.removed (PointerArray.self res) = [] /\
    (fun n => Pointer.pointerID (deref (PointerArray.heap res) n))
      <$> PointerArray.elems (PointerArray.self res)
    = Z.of_nat <$> seq 0 (length (PointerArray.elems (PointerArray.self res))) /\
    NoDup ((fun n => Pointer.pointerID (deref (PointerArray.heap res) n))
             <$> PointerArray.elems (PointerArray.self res)).
Proof.
  intros Hr Hempty. pose proof (reachable_wf _ _ Hr) as Hwf.
  destruct (update_spec_news h a rect event type false Hwf) as (res & Hres & F).
  exists res. split; [done|].
  assert (PointerArray.matched res = []) as Hm.
  { destruct (PointerArray.matched res) as [|[n p] m] eqn:E; [done|].
    exfalso. assert (p ∈ PointerArray.elems a) as Hp.
    { apply (uf_old _ _ _ _ _ _ _ _ F). rewrite E. left. }
    rewrite Hempty in Hp. inversion Hp. }
  split; [done|]. split.
  { by rewrite (uf_removed _ _ _ _ _ _ _ _ F), Hempty. }
  assert ((fun n => Pointer.pointerID (deref (PointerArray.heap res) n))
            <$> PointerArray.elems (PointerArray.self res)
          = Z.of_nat <$> seq 0 (length (PointerArray.elems (PointerArray.self res))))
    as Hids.
  { apply list_eq. intros k. rewrite !list_lookup_fmap.
    destruct (PointerArray.elems (PointerArray.self res) !! k) as [n|] eqn:Hk; simpl.
    - rewrite lookup_seq_lt by (by eapply lookup_lt_Some). simpl. f_equal.
      pose proof Hk as Hk'. rewrite (uf_elems _ _ _ _ _ _ _ _ F) in Hk'.
      destruct (created_lookup h a rect event type k n Hk') as (touch & _ & Hs).
      rewrite (uf_frame _ _ _ _ _ _ _ _ F n) by (rewrite Hm; apply not_elem_of_nil).
      by rewrite Hs.
    - rewrite lookup_seq_ge by (by apply lookup_ge_None). done. }
  split; [done|]. rewrite Hids.
  apply (NoDup_fmap_2 Z.of_nat), NoDup_seq.
Qed.

Lemma X_first_frame_numbering_witness :
  reachable [] (PointerArray.new Scenario.div1)
  /\ PointerArray.elems (PointerArray.new Scenario.div1) = []
  /\ exists res,
       PointerArray.update [] (PointerArray.new Scenario.div1) Scenario.origin
         (Scenario.touch_event [Scenario.touch_at 0 0; Scenario.touch_at 10 0])
         "pointerdown" false = Some res /\
       PointerArray.matched res = [] /\
       PointerArray.removed (PointerArray.self res) = [] /\
       (fun n => Pointer.pointerID (deref (PointerArray.heap res) n))
         <$> PointerArray.elems (PointerArray.self res)
       = Z.of_nat <$> seq 0 (length (PointerArray.elems (PointerArray.self res))) /\
       NoDup ((fun n => Pointer.pointerID (deref (PointerArray.heap res) n))
                <$> PointerArray.elems (PointerArray.self res)).
Proof.
  split; [apply reach_new|]. split; [reflexivity|].
  apply (X_first_frame_numbering [] (PointerArray.new Scenario.div1));
    [apply reach_new|reflexivity].
Defined.

(** X8. Every pointer of the new frame carries what the call was given:
    the event type passed to [update], the kind ('touch' when the event has
    [touches], 'mouse' otherwise), the array's target, the four modifier
    keys of the event, and a local position that is its client position
    minus the corner of the rectangle, whether or not it was matched. *)
Theorem X_pointer_fields (h : Heap) (a : PointerArray.t) (rect : Rect)
    (event : Event) (type : string) (remove : bool) :
  reachable h a ->
  exists res,
    PointerArray.update h a rect event type remove = Some res /\
    forall n, n ∈ PointerArray.elems (PointerArray.self res) ->
      let P := deref (PointerArray.heap res) n in
      Pointer.type P = type /\
      Pointer.pointerType P
        = match ev_touches event with Some _ => "touch" | None => "mouse" end /\
      Pointer.target P = PointerArray.target a /\
      Pointer.x P = Pointer.clientX P - rect_x rect /\
      Pointer.y P = Pointer.clientY P - rect_y rect /\
      Pointer.altKey P = Some (ev_altKey event) /\
      Pointer.ctrlKey P = Some (ev_ctrlKey event) /\
      Pointer.metaKey P = Some (ev_metaKey event) /\
      Pointer.shiftKey P = Some (ev_shiftKey event).
Proof.
  intros Hr. pose proof (reachable_wf _ _ Hr) as Hwf.
  destruct (update_spec h a rect event type remove Hwf) as (news & res & Hres & F).
  exists res. split; [done|]. intros n Hin. simpl.
  rewrite (uf_elems _ _ _ _ _ _ _ _ F) in Hin.
  destruct (deref_created h news _ n (uf_samples _ _ _ _ _ _ _ _ F) Hin)
    as (id & touch & Hs).
  destruct (decide (n ∈ (PointerArray.matched res).*1)) as [Hm|Hm].
  - apply list_elem_of_fmap in Hm as ([n' p] & -> & Hnp). simpl in Hs |- *.
    rewrite (uf_rebased _ _ _ _ _ _ _ _ F _ _ Hnp). simpl. by rewrite Hs.
  - rewrite (uf_frame _ _ _ _ _ _ _ _ F n Hm). by rewrite Hs.
Qed.

Lemma X_pointer_fields_witness :
  reachable (PointerArray.heap two_down) (PointerArray.self two_down)
  /\ exists res,
       PointerArray.update (PointerArray.heap two_down) (PointerArray.self two_down)
         {| rect_x := 2; rect_y := 3 |} approach "pointermove" false = Some res /\
       forall n, n ∈ PointerArray.elems (PointerArray.self res) ->
         let P := deref (PointerArray.heap res) n in
         Pointer.type P = "pointermove" /\
         Pointer.pointerType P = "touch" /\
         Pointer.target P = PointerArray.target (PointerArray.self two_down) /\
         Pointer.x P = Pointer.clientX P - rect_x {| rect_x := 2; rect_y := 3 |} /\
         Pointer.y P = Pointer.clientY P - rect_y {| rect_x := 2; rect_y := 3 |} /\
         Pointer.altKey P = Some (ev_altKey approach) /\
         Pointer.ctrlKey P = Some (ev_ctrlKey approach) /\
         Pointer.metaKey P = Some (ev_metaKey approach) /\
         Pointer.shiftKey P = Some (ev_shiftKey approach).
Proof.
  split; [exact two_down_reachable|].
  apply (X_pointer_fields (PointerArray.heap two_down) (PointerArray.self two_down)).
  exact two_down_reachable.
Defined.

(** ** The closest pair of two frames is always matched *)

Lemma dist2_sym (h : Heap) (a b : Ref) : dist2 h a b = dist2 h b a.
Proof. unfold dist2. simpl. ring. Qed.

Lemma distance_sym (h : Heap) (a b : Ref) : distance h a b = distance h b a.
Proof. unfold distance. by rewrite dist2_sym. Qed.

(** A non-empty array has a first element of least weight. *)
Lemma argmin_first (f : Ref -> Z) (l : list Ref) :
  l <> [] ->
  exists (i : nat) (x : Ref),
    l !! i = Some x /\
    (forall y, y ∈ l -> f x <= f y) /\
    (forall j y, (j < i)%nat -> l !! j = Some y -> f x < f y).
Proof.
  induction l as [|a l IH]; [done|]. intros _.
  destruct l as [|b l].
  { exists 0%nat, a. split; [done|]. split.
    - intros y ->%list_elem_of_singleton. lia.
    - intros j y Hj; lia. }
  destruct IH as (i & x & Hi & Hmin & Hfirst); [done|].
  destruct (Z_le_gt_dec (f a) (f x)) as [Hle|Hgt].
  - exists 0%nat, a. split; [done|]. split.
    + intros y [->|Hy]%elem_of_cons; [lia|]. specialize (Hmin y Hy). lia.
    + intros j y Hj; lia.
  - exists (S i), x. split; [done|]. split.
    + intros y [->|Hy]%elem_of_cons; [lia|auto].
    + intros [|j] y Hj Hy; simpl in Hy.
      * injection Hy as <-. lia.
      * apply (Hfirst j); [lia|done].
Qed.

(** If the second loop records no pair, the mutual test failed at every
    element it visited. *)
Lemma match_loop_nothing (this : list Ref) :
  forall (todo : list Ref) (h : Heap) (prev : list Ref) (m : list (Ref * Ref))
         (h' : Heap) (prev' : list Ref),
    NoDup todo -> NoDup prev ->
    (forall r, r ∈ todo -> r ∉ prev) ->
    (forall r, r ∈ todo -> (r < length h)%nat) ->
    PointerArray.match_loop h this todo prev m = Some (h', prev', m) ->
    forall n c, n ∈ todo -> getClosest h n prev = Some c ->
                getClosest h c this <> Some n.
Proof.
  induction todo as [|n0 rest IH];
    intros h prev m h' prev' Hnd Hndp Hdisj Hlen Hloop n c Hn Hc.
  { inversion Hn. }
  apply NoDup_cons in Hnd as [Hn0 Hnd].
  destruct prev as [|a ps]; [done|].
  simpl in Hloop. change (Nat.eqb (length (a :: ps)) 0) with false in Hloop.
  cbv iota in Hloop.
  destruct (getClosest_cons h n0 a ps) as (i & c0 & Hc0 & Hi & _).
  rewrite Hc0 in Hloop. apply list_elem_of_lookup_2 in Hi.
  case_bool_decide as Hback.
  - exfalso.
    destruct (match_loop_spec this rest
                (<[n0 := Pointer.update (deref h n0) (deref h c0)]> h)
                (splice1 (a :: ps) (indexOf (a :: ps) c0)) (m ++ [(n0, c0)]))
      as (h1 & new & Heq & _).
    { done. }
    { rewrite splice1_indexOf by done. by apply NoDup_list_difference. }
    { intros r Hr. rewrite splice1_indexOf by done.
      intros [Hin _]%list_elem_of_difference. revert Hin. apply Hdisj. by right. }
    { intros r Hr. rewrite length_insert. apply Hlen. by right. }
    rewrite Heq in Hloop. injection Hloop as _ _ Hm.
    apply (f_equal length) in Hm. rewrite !length_app in Hm. simpl in Hm. lia.
  - apply elem_of_cons in Hn as [->|Hn].
    + congruence.
    + eapply (IH h (a :: ps) m h' prev'); eauto.
      * intros r Hr. apply Hdisj. by right.
      * intros r Hr. apply Hlen. by right.
Qed.

(** With pointers on both sides, the second loop records a pair. *)
Lemma match_loop_some_pair (this : list Ref) (h : Heap) (prev : list Ref)
    (h' : Heap) (prev' : list Ref) (new : list (Ref * Ref)) :
  NoDup this -> NoDup prev ->
  (forall r, r ∈ this -> r ∉ prev) ->
  (forall r, r ∈ this -> (r < length h)%nat) ->
  this <> [] -> prev <> [] ->
  PointerArray.match_loop h this this prev [] = Some (h', prev', new) ->
  new <> [].
Proof.
  intros Hnd Hndp Hdisj Hlen Hthis Hprev Hloop ->.
  pose proof (match_loop_nothing this this h prev [] h' prev'
                Hnd Hndp Hdisj Hlen Hloop) as Hnone.
  set (f := fun n => match getClosest h n prev with
                     | Some c => distance h n c
                     | None => 0
                     end).
  destruct (argmin_first f this Hthis) as (i0 & n0 & Hi0 & Hmin0 & Hfirst0).
  assert (forall n, exists c, getClosest h n prev = Some c /\ f n = distance h n c
                              /\ forall q, q ∈ prev -> distance h n c <= distance h n q)
    as Hf.
  { intros n. destruct prev as [|a ps]; [done|].
    destruct (getClosest_cons h n a ps) as (i & c & Hc & _ & Hmin & _).
    exists c. split; [done|]. split; [|done]. unfold f. by rewrite Hc. }
  destruct (Hf n0) as (p0 & Hp0 & Hfn0 & _).
  destruct this as [|t ts] eqn:Ethis; [done|]. rewrite <- Ethis in *.
  assert (exists (i1 : nat) (n1 : Ref),
            getClosest h p0 this = Some n1 /\ this !! i1 = Some n1 /\
            (forall q, q ∈ this -> distance h p0 n1 <= distance h p0 q) /\
            (forall j q, (j < i1)%nat -> this !! j = Some q ->
                         distance h p0 n1 < distance h p0 q))
    as (i1 & n1 & Hn1 & Hi1 & Hmin1 & Hfirst1).
  { rewrite Ethis. apply getClosest_cons. }
  assert (n0 ∈ this) as Hn0in by (by eapply list_elem_of_lookup_2).
  assert (n1 ∈ this) as Hn1in by (by eapply list_elem_of_lookup_2).
  destruct (Hf n1) as (p1 & Hp1 & Hfn1 & Hminp1).
  assert (p0 ∈ prev) as Hp0in by (by eapply getClosest_elem).
  pose proof (Hminp1 p0 Hp0in) as H1.
  pose proof (Hmin1 n0 Hn0in) as H2.
  pose proof (Hmin0 n1 Hn1in) as H3.
  rewrite (distance_sym h n1 p0) in H1. rewrite (distance_sym h p0 n0) in H2.
  assert (i0 = i1) as <-.
  { destruct (Nat.lt_trichotomy i0 i1) as [Hlt|[Heq|Hgt]]; [|done|].
    - exfalso. pose proof (Hfirst1 i0 n0 Hlt Hi0) as H4.
      rewrite (distance_sym h p0 n0) in H4. lia.
    - exfalso. pose proof (Hfirst0 i1 n1 Hgt Hi1) as H4. lia. }
  assert (n1 = n0) as -> by congruence.
  by apply (Hnone n0 p0).
Qed.

(** A call that captures a pointer on an array that holds one matches. *)
Lemma update_matches_some (h : Heap) (a : PointerArray.t) (rect : Rect)
    (event : Event) (type : string) (res : PointerArray.Result) :
  wf h a ->
  PointerArray.elems a <> [] ->
  List.filter (passes (PointerArray.target a) event) (PointerArray.touches_of event)
    <> [] ->
  PointerArray.update h a rect event type false = Some res ->
  PointerArray.matched res <> [].
Proof.
  intros [Hnd Hin] Hold Hnew. unfold PointerArray.update. simpl.
  rewrite capture_captured. simpl.
  set (news := captured _ _ _ _ _ _ _ _).
  set (this1 := seq (length h) _).
  destruct (PointerArray.match_loop (h ++ news) this1 this1 (PointerArray.elems a) [])
    as [[[h2 prev2] new]|] eqn:Hloop; [|done].
  destruct (PointerArray.drain _ _ _). intros [= <-]. simpl.
  eapply (match_loop_some_pair this1 (h ++ news)); eauto.
  - apply NoDup_seq.
  - intros r Hr%elem_of_seq Hr'. apply Hin in Hr'. lia.
  - intros r Hr%elem_of_seq. rewrite length_app. unfold news.
    rewrite captured_length. lia.
  - unfold this1. destruct (List.filter _ _); [done|]. simpl. done.
Qed.

(** X9. Whenever the array holds a pointer and the call captures one, at
    least one pair is matched: some pointer of the new frame carries on the
    identity of a pointer of the previous frame, and fewer pointers are
    removed than the array held. *)
Theorem X_some_pair_matched (h : Heap) (a : PointerArray.t) (rect : Rect)
    (event : Event) (type : string) :
  reachable h a ->
  PointerArray.elems a <> [] ->
  List.filter (passes (PointerArray.target a) event) (PointerArray.touches_of event)
    <> [] ->
  exists res,
    PointerArray.update h a rect event type false = Some res /\
    PointerArray.matched res <> [] /\
    (length (PointerArray.removed (PointerArray.self res))
     < length (PointerArray.elems a))%nat.
Proof.
  intros Hr Hold Hnew. pose proof (reachable_wf _ _ Hr) as Hwf.
  destruct (update_spec h a rect event type false Hwf) as (news & res & Hres & F).
  exists res. split; [done|].
  pose proof (update_matches_some h a rect event type res Hwf Hold Hnew Hres) as Hm.
  split; [done|].
  rewrite (uf_removed _ _ _ _ _ _ _ _ F), length_reverse.
  pose proof (list_difference_length (PointerArray.elems a)
                (PointerArray.matched res).*2 (proj1 Hwf)
                (update_facts_NoDup_old _ _ _ _ _ _ _ _ F)
                (uf_old _ _ _ _ _ _ _ _ F)) as Hcount.
  rewrite length_fmap in Hcount.
  assert (0 < length (PointerArray.matched res))%nat
    by (destruct (PointerArray.matched res); simpl; [done|lia]).
  lia.
Qed.

Lemma X_some_pair_matched_witness :
  reachable (PointerArray.heap two_down) (PointerArray.self two_down)
  /\ PointerArray.elems (PointerArray.self two_down) <> []
  /\ List.filter (passes (PointerArray.target (PointerArray.self two_down)) approach)
       (PointerArray.touches_of approach) <> []
  /\ exists res,
       PointerArray.update (PointerArray.heap two_down) (PointerArray.self two_down)
         Scenario.origin approach "pointermove" false = Some res /\
       PointerArray.matched res <> [] /\
       (length (PointerArray.removed (PointerArray.self res))
        < length (PointerArray.elems (PointerArray.self two_down)))%nat.
Proof.
  split; [exact two_down_reachable|].
  split; [vm_compute; discriminate|]. split; [vm_compute; discriminate|].
  apply (X_some_pair_matched (PointerArray.heap two_down)
           (PointerArray.self two_down) Scenario.origin approach "pointermove").
  - exact two_down_reachable.
  - vm_compute. discriminate.
  - vm_compute. discriminate.
Defined.

(** ** A single pointer keeps its identity *)

Lemma single_step (h : Heap) (a : PointerArray.t) (rect : Rect) (event : Event)
    (type : string) (p : Ref) :
  wf h a ->
  PointerArray.elems a = [p] ->
  length (List.filter (passes (PointerArray.target a) event)
            (PointerArray.touches_of event)) = 1%nat ->
  exists res n,
    PointerArray.update h a rect event type false = Some res /\
    PointerArray.elems (PointerArray.self res) = [n] /\
    PointerArray.matched res = [(n, p)] /\
    PointerArray.removed (PointerArray.self res) = [] /\
    PointerArray.target (PointerArray.self res) = PointerArray.target a /\
    deref (PointerArray.heap res) n
    = Pointer.update (deref (PointerArray.heap res) n) (deref h p).
Proof.
  intros Hwf Hp Hone.
  destruct (update_spec_news h a rect event type false Hwf) as (res & Hres & F).
  exists res, (length h). split; [done|].
  assert (PointerArray.elems (PointerArray.self res) = [length h]) as Helems.
  { rewrite (uf_elems _ _ _ _ _ _ _ _ F). unfold news_of.
    by rewrite captured_length, Hone. }
  split; [done|].
  assert (PointerArray.matched res = [(length h, p)]) as Hm.
  { pose proof (update_matches_some h a rect event type res Hwf) as Hsome.
    pose proof (uf_nodup _ _ _ _ _ _ _ _ F) as Hnd.
    pose proof (uf_new _ _ _ _ _ _ _ _ F) as Hnew.
    pose proof (uf_old _ _ _ _ _ _ _ _ F) as Hold.
    rewrite Helems in Hnew. rewrite Hp in Hold.
    destruct (PointerArray.matched res) as [|[n1 p1] rest].
    { exfalso. apply Hsome; try done.
      - by rewrite Hp.
      - destruct (List.filter _ _); [done|done]. }
    assert (n1 = length h) as ->.
    { apply list_elem_of_singleton, Hnew. left. }
    assert (p1 = p) as ->.
    { apply list_elem_of_singleton, Hold. left. }
    destruct rest as [|[n2 p2] rest]; [done|]. exfalso.
    assert (n2 = length h) as ->.
    { apply list_elem_of_singleton, Hnew. right. left. }
    simpl in Hnd. apply NoDup_cons in Hnd as [Hnot _]. apply Hnot. left. }
  split; [done|]. split.
  { rewrite (uf_removed _ _ _ _ _ _ _ _ F), Hp, Hm.
    change (reverse (list_difference [p] [p]) = []).
    rewrite list_difference_cons, decide_True by (by apply list_elem_of_singleton).
    done. }
  split; [apply (uf_target _ _ _ _ _ _ _ _ F)|].
  rewrite (uf_rebased _ _ _ _ _ _ _ _ F (length h) p) at 1
    by (rewrite Hm; left).
  rewrite (uf_rebased _ _ _ _ _ _ _ _ F (length h) p) by (rewrite Hm; left).
  done.
Qed.

(** X10. When the array holds exactly one pointer and the call captures
    exactly one (as every mouse event does), the new pointer always takes
    over from the old one, however far it moved: it has the old identity
    and origin, and nothing is removed. *)
Theorem X_single_pointer_continues (h : Heap) (a : PointerArray.t) (rect : Rect)
    (event : Event) (type : string) (p : Ref) :
  reachable h a ->
  PointerArray.elems a = [p] ->
  length (List.filter (passes (PointerArray.target a) event)
            (PointerArray.touches_of event)) = 1%nat ->
  exists res n,
    PointerArray.update h a rect event type false = Some res /\
    PointerArray.elems (PointerArray.self res) = [n] /\
    PointerArray.matched res = [(n, p)] /\
    PointerArray.removed (PointerArray.self res) = [] /\
    Pointer.pointerID (deref (PointerArray.heap res) n) = Pointer.pointerID (deref h p) /\
    Pointer.startX (deref (PointerArray.heap res) n) = Pointer.startX (deref h p) /\
    Pointer.startY (deref (PointerArray.heap res) n) = Pointer.startY (deref h p).
Proof.
  intros Hr Hp Hone.
  destruct (single_step h a rect event type p (reachable_wf _ _ Hr) Hp Hone)
    as (res & n & Hres & Helems & Hm & Hrem & _ & Hn).
  exists res, n. split_and!; try done; by rewrite Hn.
Qed.

Lemma one_down_reachable :
  reachable (PointerArray.heap one_down) (PointerArray.self one_down).
Proof.
  apply (reach_update [] (PointerArray.new Scenario.div1) Scenario.origin
           (Scenario.mouse_event 5 5 1) "pointerdown" false one_down).
  - apply reach_new.
  - vm_compute. reflexivity.
Defined.

Lemma X_single_pointer_continues_witness :
  reachable (PointerArray.heap one_down) (PointerArray.self one_down)
  /\ PointerArray.elems (PointerArray.self one_down) = [0%nat]
  /\ length (List.filter
               (passes (PointerArray.target (PointerArray.self one_down))
                  (Scenario.mouse_event 400 300 1))
               (PointerArray.touches_of (Scenario.mouse_event 400 300 1))) = 1%nat
  /\ exists res n,
       PointerArray.update (PointerArray.heap one_down) (PointerArray.self one_down)
         Scenario.origin (Scenario.mouse_event 400 300 1) "pointermove" false
       = Some res /\
       PointerArray.elems (PointerArray.self res) = [n] /\
       PointerArray.matched res = [(n, 0%nat)] /\
       PointerArray.removed (PointerArray.self res) = [] /\
       Pointer.pointerID (deref (PointerArray.heap res) n)
       = Pointer.pointerID (deref (PointerArray.heap one_down) 0%nat) /\
       Pointer.startX (deref (PointerArray.heap res) n)
       = Pointer.startX (deref (PointerArray.heap one_down) 0%nat) /\
       Pointer.startY (deref (PointerArray.heap res) n)
       = Pointer.startY (deref (PointerArray.heap one_down) 0%nat).
Proof.
  split; [exact one_down_reachable|]. split; [reflexivity|]. split; [reflexivity|].
  apply (X_single_pointer_continues (PointerArray.heap one_down)
           (PointerArray.self one_down) Scenario.origin
           (Scenario.mouse_event 400 300 1) "pointermove" 0%nat).
  - exact one_down_reachable.
  - reflexivity.
  - reflexivity.
Defined.

(** X11. Over any number of successive calls that each capture exactly one
    pointer (a mouse drag, a one-finger gesture), starting from an array
    that holds one pointer, the array keeps holding one pointer, and that
    pointer has the identity and the origin the first one had: the origin
    is fixed when the pointer appears and never changes while it lives. *)
Theorem X_single_pointer_drag (calls : list (Rect * Event * string)) :
  forall (h : Heap) (a : PointerArray.t) (p : Ref),
    reachable h a ->
    PointerArray.elems a = [p] ->
    Forall (captures_one (PointerArray.target a)) calls ->
    exists h' a' n,
      updates h a calls = Some (h', a') /\
      reachable h' a' /\
      PointerArray.elems a' = [n] /\
      Pointer.pointerID (deref h' n) = Pointer.pointerID (deref h p) /\
      Pointer.startX (deref h' n) = Pointer.startX (deref h p) /\
      Pointer.startY (deref h' n) = Pointer.startY (deref h p).
Proof.
  induction calls as [|[[rect event] type] calls IH]; intros h a p Hr Hp Hall.
  - exists h, a, p. by split_and!.
  - apply Forall_cons in Hall as [Hone Hall]. unfold captures_one in Hone.
    simpl in Hone.
    destruct (single_step h a rect event type p (reachable_wf _ _ Hr) Hp Hone)
      as (res & n & Hres & Helems & Hm & Hrem & Htarget & Hn).
    destruct (IH (PointerArray.heap res) (PointerArray.self res) n)
      as (h' & a' & n' & Hup & Hr' & Helems' & Hid & Hsx & Hsy).
    { by eapply reach_update. }
    { done. }
    { by rewrite Htarget. }
    exists h', a', n'. simpl. rewrite Hres. split; [done|].
    split; [done|]. split; [done|].
    rewrite Hid, Hsx, Hsy, Hn. done.
Qed.

Lemma X_single_pointer_drag_witness :
  reachable (PointerArray.heap one_down) (PointerArray.self one_down)
  /\ PointerArray.elems (PointerArray.self one_down) = [0%nat]
  /\ Forall (captures_one (PointerArray.target (PointerArray.self one_down))) two_moves
  /\ exists h' a' n,
       updates (PointerArray.heap one_down) (PointerArray.self one_down) two_moves
       = Some (h', a') /\
       reachable h' a' /\
       PointerArray.elems a' = [n] /\
       Pointer.pointerID (deref h' n)
       = Pointer.pointerID (deref (PointerArray.heap one_down) 0%nat) /\
       Pointer.startX (deref h' n)
       = Pointer.startX (deref (PointerArray.heap one_down) 0%nat) /\
       Pointer.startY (deref h' n)
       = Pointer.startY (deref (PointerArray.heap one_down) 0%nat).
Proof.
  assert (Forall (captures_one (PointerArray.target (PointerArray.self one_down)))
            two_moves) as Hall.
  { repeat constructor. }
  split; [exact one_down_reachable|]. split; [reflexivity|]. split; [exact Hall|].
  apply (X_single_pointer_drag two_moves (PointerArray.heap one_down)
           (PointerArray.self one_down) 0%nat).
  - exact one_down_reachable.
  - reflexivity.
  - exact Hall.
Defined.

(** ** The listener registry: lookups after changes *)

Lemma hasEventListener_elem (ls : PointerEvents.Listeners) (type : string)
    (f : PointerEvents.Listener) :
  PointerEvents.hasEventListener ls type f = true
  <-> f ∈ PointerEvents.listeners_of ls type.
Proof.
  destruct ls as [m|]; simpl; [|by rewrite elem_of_nil].
  destruct (m !! type) as [array|]; simpl; [|by rewrite elem_of_nil].
  rewrite negb_true_iff, Z.eqb_neq, indexOf_minus_one.
  split; [|tauto]. intros H. by destruct (decide (f ∈ array)).
Qed.

Lemma indexOf_snoc (l : list Ref) (f : Ref) :
  f ∉ l -> indexOf (l ++ [f]) f = Z.of_nat (length l).
Proof.
  intros Hf. unfold indexOf.
  destruct (indexOf_from_elem (l ++ [f]) f 0) as (k & -> & Hk & _).
  { apply elem_of_app. right. left. }
  destruct (decide (k < length l)%nat) as [Hlt|Hge].
  - exfalso. apply Hf. rewrite lookup_app_l in Hk by done.
    by eapply list_elem_of_lookup_2.
  - apply lookup_lt_Some in Hk. rewrite length_app in Hk. simpl in Hk. lia.
Qed.

Lemma splice1_nat_end (l : list Ref) : splice1 l (Z.of_nat (length l)) = l.
Proof.
  unfold splice1. destruct (Z.ltb_spec (Z.of_nat (length l)) 0); [lia|].
  rewrite Z.min_id, Nat2Z.id, delete_take_drop.
  rewrite take_ge, drop_ge by lia. apply app_nil_r.
Qed.

(** X12. A dispatch invokes a listener exactly when [hasEventListener]
    reports it registered for the event's type as the dispatch begins
    (never when there is no registry or no array for the type). *)
Theorem X_dispatch_invokes_registered {Ev : Type} (ev_type : Ev -> string)
    (call : PointerEvents.Listener -> Ev -> PointerEvents.Listeners
            -> PointerEvents.Listeners)
    (ls : PointerEvents.Listeners) (event : Ev) (f : PointerEvents.Listener) :
  f ∈ (PointerEvents.dispatchEvent ev_type call ls event).2
  <-> PointerEvents.hasEventListener ls (ev_type event) f = true.
Proof. rewrite dispatchEvent_spec. simpl. by rewrite hasEventListener_elem. Qed.

(** X13. After [addEventListener(type, f)], [hasEventListener] answers true
    for (type, f), and answers for every other pair what it answered
    before; this holds on a fresh instance too, where the registry is
    created by the call. *)
Theorem X_add_then_has (ls : PointerEvents.Listeners) (type type' : string)
    (f f' : PointerEvents.Listener) :
  PointerEvents.hasEventListener (PointerEvents.addEventListener ls type f) type' f'
    = true
  <-> PointerEvents.hasEventListener ls type' f' = true \/ (type = type' /\ f = f').
Proof.
  rewrite !hasEventListener_elem, listeners_of_add.
  destruct (decide (type = type')) as [<-|Hne]; [|tauto].
  destruct (decide (f ∈ PointerEvents.listeners_of ls type)) as [Hin|Hnin].
  - split; [tauto|]. intros [? | [_ <-]]; done.
  - rewrite elem_of_app, list_elem_of_singleton. split.
    + intros [? | ->]; auto.
    + intros [? | [_ <-]]; auto.
Qed.

(** X14. In a registry built through the methods, after
    [removeEventListener(type, f)] the pair (type, f) is no longer
    registered, and every other pair is registered exactly if it was. *)
Theorem X_remove_then_has (ls : PointerEvents.Listeners) (type type' : string)
    (f f' : PointerEvents.Listener) :
  PointerEvents.api_reachable ls ->
  (PointerEvents.hasEventListener
     (PointerEvents.removeEventListener ls type f) type' f' = true
   <-> PointerEvents.hasEventListener ls type' f' = true
       /\ ~ (type = type' /\ f = f')).
Proof.
  intros Hls. rewrite !hasEventListener_elem, listeners_of_remove.
  destruct (decide (type = type')) as [<-|Hne]; [|tauto].
  pose proof (api_reachable_NoDup ls type Hls) as Hnd.
  destruct (decide (f ∈ PointerEvents.listeners_of ls type)) as [Hin|Hnin].
  - rewrite splice1_indexOf, list_elem_of_difference, list_elem_of_singleton by done.
    split; [intros [? ?]; split; [done|]; intros [_ ->]; done|].
    intros [? Hne]. split; [done|]. intros ->. by apply Hne.
  - rewrite splice1_nat_end. split.
    + intros Hf'. split; [done|]. intros [_ ->]. done.
    + tauto.
Qed.

Lemma twice_registered_reachable : PointerEvents.api_reachable twice_registered.
Proof. repeat apply PointerEvents.api_add. apply PointerEvents.api_fresh. Defined.

Lemma X_remove_then_has_witness :
  PointerEvents.api_reachable twice_registered
  /\ (PointerEvents.hasEventListener
        (PointerEvents.removeEventListener twice_registered "pointermove" 7%nat)
        "pointermove" 8%nat = true
      <-> PointerEvents.hasEventListener twice_registered "pointermove" 8%nat = true
          /\ ~ ("pointermove" = "pointermove" /\ 7%nat = 8%nat)).
Proof.
  split; [exact twice_registered_reachable|].
  apply (X_remove_then_has twice_registered "pointermove" "pointermove" 7%nat 8%nat).
  exact twice_registered_reachable.
Defined.

(** X15. [removeEventListener] for a pair that is not registered changes
    nothing: not on a fresh instance (the registry stays absent), not when
    the type has no array, not when the array does not hold the listener. *)
Theorem X_remove_unregistered (ls : PointerEvents.Listeners) (type : string)
    (f : PointerEvents.Listener) :
  PointerEvents.hasEventListener ls type f = false ->
  PointerEvents.removeEventListener ls type f = ls.
Proof.
  destruct ls as [m|]; simpl; [|done].
  destruct (m !! type) as [array|]; [|done]. by intros ->.
Qed.

Lemma X_remove_unregistered_witness :
  PointerEvents.hasEventListener twice_registered "pointerup" 7%nat = false
  /\ PointerEvents.removeEventListener twice_registered "pointerup" 7%nat
     = twice_registered.
Proof.
  split; [reflexivity|].
  apply (X_remove_unregistered twice_registered "pointerup" 7%nat). reflexivity.
Defined.

(** X16. Registering a listener that was not registered and removing it
    again gives back, for every type, the listeners there were, in their
    order; the registry itself is then present even if it was absent
    before, since [addEventListener] creates it and nothing deletes it. *)
Theorem X_add_then_remove (ls : PointerEvents.Listeners) (type : string)
    (f : PointerEvents.Listener) :
  PointerEvents.hasEventListener ls type f = false ->
  (forall type',
     PointerEvents.listeners_of
       (PointerEvents.removeEventListener
          (PointerEvents.addEventListener ls type f) type f) type'
     = PointerEvents.listeners_of ls type')
  /\ PointerEvents.removeEventListener
       (PointerEvents.addEventListener ls type f) type f <> None.
Proof.
  intros Hhas.
  assert (f ∉ PointerEvents.listeners_of ls type) as Hnin.
  { rewrite <- hasEventListener_elem. by rewrite Hhas. }
  split.
  - intros type'. rewrite listeners_of_remove.
    destruct (decide (type = type')) as [<-|Hne].
    + rewrite !listeners_of_add, decide_True by done.
      destruct (decide (f ∈ PointerEvents.listeners_of ls type)); [done|].
      rewrite decide_True by (apply elem_of_app; right; left).
      rewrite indexOf_snoc by done.
      rewrite splice1_nat by (rewrite length_app; simpl; lia).
      rewrite (delete_middle _ [] f). apply app_nil_r.
    + rewrite listeners_of_add. by rewrite decide_False.
  - unfold PointerEvents.addEventListener.
    destruct (indexOf _ f =? -1); simpl;
      destruct (_ !! type); try done; by destruct (negb _).
Qed.

Lemma X_add_then_remove_witness :
  PointerEvents.hasEventListener None "wheel" 3%nat = false
  /\ ((forall type',
         PointerEvents.listeners_of
           (PointerEvents.removeEventListener
              (PointerEvents.addEventListener None "wheel" 3%nat) "wheel" 3%nat) type'
         = PointerEvents.listeners_of None type')
      /\ PointerEvents.removeEventListener
           (PointerEvents.addEventListener None "wheel" 3%nat) "wheel" 3%nat <> None).
Proof.
  split; [reflexivity|].
  apply (X_add_then_remove None "wheel" 3%nat). reflexivity.
Defined.

(** X17. In a registry built through the methods, removing a registered
    listener and registering it again moves it behind all the other
    listeners of the type, which keep their order: it is then invoked
    last. *)
Theorem X_register_again_goes_last (ls : PointerEvents.Listeners) (type : string)
    (f : PointerEvents.Listener) :
  PointerEvents.api_reachable ls ->
  PointerEvents.hasEventListener ls type f = true ->
  PointerEvents.listeners_of
    (PointerEvents.addEventListener
       (PointerEvents.removeEventListener ls type f) type f) type
  = list_difference (PointerEvents.listeners_of ls type) [f] ++ [f].
Proof.
  intros Hls Hhas%hasEventListener_elem.
  pose proof (api_reachable_NoDup ls type Hls) as Hnd.
  rewrite listeners_of_add. destruct (decide (type = type)) as [_|?]; [|done].
  rewrite listeners_of_remove. destruct (decide (type = type)) as [_|?]; [|done].
  destruct (decide (f ∈ PointerEvents.listeners_of ls type)) as [_|?]; [|done].
  rewrite splice1_indexOf by done.
  destruct (decide (f ∈ list_difference (PointerEvents.listeners_of ls type) [f]))
    as [Hin|_]; [|done].
  exfalso. apply list_elem_of_difference in Hin as [_ Hnot]. apply Hnot. left.
Qed.

Lemma X_register_again_goes_last_witness :
  PointerEvents.api_reachable twice_registered
  /\ PointerEvents.hasEventListener twice_registered "pointermove" 7%nat = true
  /\ PointerEvents.listeners_of
       (PointerEvents.addEventListener
          (PointerEvents.removeEventListener twice_registered "pointermove" 7%nat)
          "pointermove" 7%nat) "pointermove"
     = list_difference (PointerEvents.listeners_of twice_registered "pointermove")
         [7%nat] ++ [7%nat].
Proof.
  split; [exact twice_registered_reachable|]. split; [reflexivity|].
  apply (X_register_again_goes_last twice_registered "pointermove" 7%nat).
  - exact twice_registered_reachable.
  - reflexivity.
Defined.

(** ** isTouchInTarget *)

Lemma isTouchInTarget_walk_lineage (eventTarget target : Element) :
  isTouchInTarget_walk eventTarget target = true
  <-> el_id target ∈ lineage eventTarget.
Proof.
  induction eventTarget as [i|i parent IH]; simpl; unfold same_element; simpl.
  - destruct (Nat.eqb_spec i (el_id target)) as [->|Hne].
    + split; [intros _; left|done].
    + split; [done|]. intros Hin%list_elem_of_singleton. congruence.
  - destruct (Nat.eqb_spec i (el_id target)) as [->|Hne].
    + split; [intros _; left|done].
    + rewrite IH, elem_of_cons. split; [auto|]. intros [Heq | ?]; [congruence|done].
Qed.

(** X18. [isTouchInTarget] answers true exactly when the touch has a target
    and the tracked element is that target or one of its ancestors; a touch
    without target, or on an element beside or above the tracked one, is
    rejected. *)
Theorem X_isTouchInTarget_lineage (touch : Touch) (target : Element) :
  isTouchInTarget touch target = true
  <-> exists eventTarget,
        touch_target touch = Some eventTarget
        /\ el_id target ∈ lineage eventTarget.
Proof.
  unfold isTouchInTarget. destruct (touch_target touch) as [e|].
  - rewrite isTouchInTarget_walk_lineage. split; [eauto|].
    by intros (e' & [= <-] & ?).
  - split; [done|]. by intros (e' & ? & _).
Qed.

(** ** The mouse and touch closures *)

Lemma update_and_dispatch_reachable (st : Handlers.State) (rect : Rect)
    (event : Event) (type : string) (remove : bool) (before : list Handlers.Effect) :
  reachable (Handlers.store st) (Handlers.pointers st) ->
  exists res,
    PointerArray.update (Handlers.store st) (Handlers.pointers st) rect event type remove
    = Some res /\
    Handlers.update_and_dispatch st rect event type remove before
    = Some ({| Handlers.dragging := Handlers.dragging st;
               Handlers.store := PointerArray.heap res;
               Handlers.pointers := PointerArray.self res |},
            before ++ [Handlers.dispatchEvent
                         (makePointerEvent type (PointerArray.self res))]) /\
    reachable (PointerArray.heap res) (PointerArray.self res).
Proof.
  intros Hr.
  destruct (update_spec _ _ rect event type remove (reachable_wf _ _ Hr))
    as (news & res & Hres & _).
  exists res. split; [done|]. split.
  - unfold Handlers.update_and_dispatch. by rewrite Hres.
  - by eapply reach_update.
Qed.

(** After a call without the [remove] flag for a mouse event, or with the
    flag, an array that held at most the pointer 0 holds at most the
    pointer 0, and exactly one pointer in the first case. *)
Lemma update_keeps_pointer_zero (h : Heap) (a : PointerArray.t) (rect : Rect)
    (event : Event) (type : string) (remove : bool) (res : PointerArray.Result) :
  reachable h a ->
  at_most_pointer_zero h a ->
  ev_touches event = None ->
  PointerArray.update h a rect event type remove = Some res ->
  at_most_pointer_zero (PointerArray.heap res) (PointerArray.self res)
  /\ (length (PointerArray.elems (PointerArray.self res)) <= 1)%nat.
Proof.
  intros Hr Hzero Hmouse Hres. pose proof (reachable_wf _ _ Hr) as Hwf.
  destruct remove.
  { destruct (update_spec_news h a rect event type true Hwf) as (res' & Hres' & F).
    assert (res' = res) as -> by congruence.
    pose proof (uf_elems _ _ _ _ _ _ _ _ F) as He. simpl in He.
    rewrite He. split; [by left|simpl; lia]. }
  assert (length (List.filter (passes (PointerArray.target a) event)
                    (PointerArray.touches_of event)) = 1%nat) as Hone.
  { unfold PointerArray.touches_of, passes. rewrite Hmouse. simpl.
    by rewrite orb_true_r. }
  destruct Hzero as [Hempty|(p & Hp & Hid)].
  - destruct (update_spec_news h a rect event type false Hwf) as (res' & Hres' & F).
    assert (res' = res) as -> by congruence.
    pose proof (uf_elems _ _ _ _ _ _ _ _ F) as He.
    unfold news_of in He. rewrite captured_length, Hone in He. simpl in He.
    rewrite He. split; [|simpl; lia]. right. exists (length h). split; [done|].
    assert (seq (length h) (length (news_of a rect event type false)) !! 0%nat
            = Some (length h)) as Hk.
    { unfold news_of. by rewrite captured_length, Hone. }
    destruct (created_lookup h a rect event type 0 (length h) Hk) as (touch & _ & Hs).
    rewrite (uf_frame _ _ _ _ _ _ _ _ F).
    + by rewrite Hs.
    + intros Hm. apply list_elem_of_fmap in Hm as ([n q] & _ & Hnq).
      assert (q ∈ PointerArray.elems a) as Hq.
      { apply (uf_old _ _ _ _ _ _ _ _ F), list_elem_of_fmap. by exists (n, q). }
      rewrite Hempty in Hq. inversion Hq.
  - destruct (single_step h a rect event type p Hwf Hp Hone)
      as (res' & n & Hres' & He & _ & _ & _ & Hn).
    assert (res' = res) as -> by congruence.
    rewrite He. split; [|simpl; lia]. right. exists n. split; [done|].
    rewrite Hn. simpl. done.
Qed.

Lemma single_pointer_events_app (e1 e2 : list Handlers.Effect) :
  single_pointer_events e1 -> single_pointer_events e2 ->
  single_pointer_events (e1 ++ e2).
Proof. apply Forall_app_2. Qed.

(** One call of a mouse closure with a mouse event. *)
Lemma mouse_step (closure : Handlers.Closure) (st : Handlers.State) (rect : Rect)
    (event : Event) :
  mouse_call (closure, rect, event) ->
  reachable (Handlers.store st) (Handlers.pointers st) ->
  at_most_pointer_zero (Handlers.store st) (Handlers.pointers st) ->
  exists st' effects,
    Handlers.handle closure st rect event = Some (st', effects) /\
    reachable (Handlers.store st') (Handlers.pointers st') /\
    at_most_pointer_zero (Handlers.store st') (Handlers.pointers st') /\
    single_pointer_events effects.
Proof.
  intros [Hc Hmouse] Hr Hzero. simpl in Hc, Hmouse.
  assert (forall st0 type remove before,
            Handlers.store st0 = Handlers.store st ->
            Handlers.pointers st0 = Handlers.pointers st ->
            Forall (fun e => match e with
                             | Handlers.dispatchEvent _ => False
                             | _ => True
                             end) before ->
            exists st' effects,
              Handlers.update_and_dispatch st0 rect event type remove before
              = Some (st', effects) /\
              reachable (Handlers.store st') (Handlers.pointers st') /\
              at_most_pointer_zero (Handlers.store st') (Handlers.pointers st') /\
              single_pointer_events effects) as Hupd.
  { intros st0 type remove before Hs Hp Hbefore.
    assert (reachable (Handlers.store st0) (Handlers.pointers st0)) as Hr0
      by (by rewrite Hs, Hp).
    destruct (update_and_dispatch_reachable st0 rect event type remove before Hr0)
      as (res & Hres & Heq & Hr').
    rewrite Hs, Hp in Hres.
    destruct (update_keeps_pointer_zero _ _ rect event type remove res
                Hr Hzero Hmouse Hres) as [Hz Hlen].
    eexists _, _. split; [exact Heq|]. simpl. split; [done|]. split; [done|].
    apply single_pointer_events_app.
    - eapply Forall_impl; [exact Hbefore|]. by intros [].
    - by constructor. }
  destruct Hc as [-> | [-> | [-> | ->]]]; simpl.
  - unfold Handlers._onMouseDown. destruct (Handlers.dragging st).
    + exists st, [Handlers.preventDefault]. split_and!; try done.
      by repeat constructor.
    + apply Hupd; try done. by repeat constructor.
  - apply Hupd; try done. by repeat constructor.
  - apply Hupd; try done.
  - unfold Handlers._onMouseUp. case_bool_decide.
    + apply Hupd; try done. by repeat constructor.
    + exists st, []. split_and!; try done. constructor.
Qed.

(** X19. With the mouse alone, the array never holds more than one pointer
    and that pointer always has identity 0: after any succession of calls
    of the four mouse closures with mouse events on a new instance, in any
    order, the calls all return, the array is empty or holds the single
    pointer 0, and every pointer event dispatched on the way carried at
    most one pointer. *)
Theorem X_mouse_pointer_is_zero (calls : list (Handlers.Closure * Rect * Event)) :
  forall (h : Heap) (domElement : Element),
    Forall mouse_call calls ->
    exists st effects,
      Handlers.handle_all (Handlers.initial h domElement) calls = Some (st, effects) /\
      at_most_pointer_zero (Handlers.store st) (Handlers.pointers st) /\
      single_pointer_events effects.
Proof.
  intros h dom Hall.
  assert (forall st,
            reachable (Handlers.store st) (Handlers.pointers st) ->
            at_most_pointer_zero (Handlers.store st) (Handlers.pointers st) ->
            exists st' effects,
              Handlers.handle_all st calls = Some (st', effects) /\
              at_most_pointer_zero (Handlers.store st') (Handlers.pointers st') /\
              single_pointer_events effects) as Hgen.
  { induction Hall as [|[[closure rect] event] calls Hcall _ IH]; intros st Hr Hz.
    - exists st, []. split_and!; try done. constructor.
    - destruct (mouse_step closure st rect event Hcall Hr Hz)
        as (st1 & e1 & H1 & Hr1 & Hz1 & Hs1).
      destruct (IH st1 Hr1 Hz1) as (st2 & e2 & H2 & Hz2 & Hs2).
      exists st2, (e1 ++ e2). simpl. rewrite H1, H2.
      split_and!; try done. by apply single_pointer_events_app. }
  apply Hgen; simpl; [apply reach_new|by left].
Qed.

Lemma X_mouse_pointer_is_zero_witness :
  Forall mouse_call mouse_session
  /\ exists st effects,
       Handlers.handle_all (Handlers.initial [] Scenario.div1) mouse_session
       = Some (st, effects) /\
       at_most_pointer_zero (Handlers.store st) (Handlers.pointers st) /\
       single_pointer_events effects.
Proof.
  assert (Forall mouse_call mouse_session) as Hall.
  { unfold mouse_session.
    repeat (apply Forall_cons; split; [split; [simpl; auto 6|reflexivity]|]).
    constructor. }
  split; [exact Hall|].
  apply (X_mouse_pointer_is_zero mouse_session [] Scenario.div1 Hall).
Defined.

(** X20. A mouse hover never reports a pointer: [_onMouseHover] always
    passes the [remove] flag, so whatever the state, it returns, dispatches
    one [pointerhover] event of length 0 whose [removed] holds the pointers
    the array held, and leaves the array empty. *)
Theorem X_mouse_hover_is_empty (st : Handlers.State) (rect : Rect) (event : Event) :
  exists st' pe,
    Handlers._onMouseHover st rect event = Some (st', [Handlers.dispatchEvent pe]) /\
    pe_type pe = "pointerhover" /\
    pe_length pe = 0%nat /\
    pe_items pe = [] /\
    pe_removed pe = reverse (PointerArray.elems (Handlers.pointers st)) /\
    PointerArray.elems (Handlers.pointers st') = [] /\
    Handlers.store st' = Handlers.store st /\
    Handlers.dragging st' = Handlers.dragging st.
Proof.
  unfold Handlers._onMouseHover, Handlers.update_and_dispatch, PointerArray.update.
  simpl. rewrite drain_spec. eexists _, _. split; [done|]. by split_and!.
Qed.

(** ** Native listeners and the [dragging] flag *)

Lemma elem_of_attach (att : list Attachment) (x y : Attachment) :
  y ∈ attach att x <-> y ∈ att \/ y = x.
Proof.
  unfold attach. destruct (decide (x ∈ att)) as [Hin|Hnin].
  - split; [auto|]. intros [? | ->]; done.
  - by rewrite elem_of_app, list_elem_of_singleton.
Qed.

Lemma elem_of_detach (att : list Attachment) (x y : Attachment) :
  y ∈ detach att x <-> y ∈ att /\ y <> x.
Proof. unfold detach. rewrite list_elem_of_filter. tauto. Qed.

Lemma attached_for_press (att : list Attachment) :
  attached_for false att ->
  attached_for true
    (attach (attach (detach att hover_attachment) move_attachment) up_attachment).
Proof.
  intros H x. rewrite !elem_of_attach, elem_of_detach, (H x).
  unfold hover_attachment, move_attachment, up_attachment.
  attach_solve.
  all: left; left; split; [auto 12|discriminate].
Qed.

Lemma attached_for_release (d : bool) (att : list Attachment) :
  attached_for d att ->
  attached_for false
    (detach (detach (attach att hover_attachment) move_attachment) up_attachment).
Proof.
  intros H x. rewrite !elem_of_detach, elem_of_attach, (H x).
  unfold hover_attachment, move_attachment, up_attachment.
  attach_solve.
Qed.

Lemma attached_release_dragging (d : bool) (att : list Attachment) :
  attached_for d att -> Handlers.MouseUp ∈ att.*2 -> d = true.
Proof.
  intros H ([[node type] closure] & Hc & Hin)%list_elem_of_fmap.
  simpl in Hc. subst closure. apply H in Hin.
  rewrite !elem_of_cons, elem_of_nil in Hin.
  repeat match goal with
         | H : _ /\ _ |- _ => destruct H
         | H : _ \/ _ |- _ => destruct H
         | H : False |- _ => destruct H
         end; try discriminate; done.
Qed.

Lemma initially_attached_for : attached_for false initially_attached.
Proof. intros x. unfold initially_attached. attach_solve. Qed.

(** What one call of a closure does to the flag, to the attachments and to
    the succession of presses and releases. *)
Lemma handle_step (closure : Handlers.Closure) (st : Handlers.State) (rect : Rect)
    (event : Event) :
  reachable (Handlers.store st) (Handlers.pointers st) ->
  exists st' effects,
    Handlers.handle closure st rect event = Some (st', effects) /\
    reachable (Handlers.store st') (Handlers.pointers st') /\
    ((Handlers.dragging st' = Handlers.dragging st /\
      (forall att, foldl apply_effect att effects = att) /\
      (closure = Handlers.MouseDown \/ closure = Handlers.MouseMove \/
       closure = Handlers.MouseHover \/ closure = Handlers.MouseUp ->
       presses effects = []))
     \/ (closure = Handlers.MouseDown /\
         Handlers.dragging st = false /\ Handlers.dragging st' = true /\
         (forall att, foldl apply_effect att effects
                      = attach (attach (detach att hover_attachment) move_attachment)
                          up_attachment) /\
         presses effects = [true])
     \/ (closure = Handlers.MouseUp /\
         Handlers.dragging st' = false /\
         (forall att, foldl apply_effect att effects
                      = detach (detach (attach att hover_attachment) move_attachment)
                          up_attachment) /\
         presses effects = [false])).
Proof.
  intros Hr.
  assert (forall st0 type remove before,
            Handlers.store st0 = Handlers.store st ->
            Handlers.pointers st0 = Handlers.pointers st ->
            exists res,
              Handlers.update_and_dispatch st0 rect event type remove before
              = Some ({| Handlers.dragging := Handlers.dragging st0;
                         Handlers.store := PointerArray.heap res;
                         Handlers.pointers := PointerArray.self res |},
                      before ++ [Handlers.dispatchEvent
                                   (makePointerEvent type (PointerArray.self res))]) /\
              reachable (PointerArray.heap res) (PointerArray.self res)) as Hupd.
  { intros st0 type remove before Hs Hp.
    destruct (update_and_dispatch_reachable st0 rect event type remove before)
      as (res & _ & Heq & Hr'); [by rewrite Hs, Hp|].
    by exists res. }
  destruct closure; simpl.
  - unfold Handlers._onMouseDown. destruct (Handlers.dragging st) eqn:Hd.
    + exists st, [Handlers.preventDefault]. split; [done|]. split; [done|].
      left. by split_and!.
    + destruct (Hupd {| Handlers.dragging := true; Handlers.store := Handlers.store st;
                        Handlers.pointers := Handlers.pointers st |}
                  "pointerdown" false
                  [Handlers.preventDefault;
                   Handlers.removeNative Handlers.domElement "mousemove"
                     Handlers.MouseHover;
                   Handlers.addNative Handlers.document "mousemove" Handlers.MouseMove;
                   Handlers.addNative Handlers.document "mouseup" Handlers.MouseUp;
                   Handlers.focus] eq_refl eq_refl) as (res & Heq & Hr').
      eexists _, _. split; [exact Heq|]. split; [done|].
      right. left. by split_and!.
  - destruct (Hupd st "pointermove" false [Handlers.preventDefault] eq_refl eq_refl)
      as (res & Heq & Hr').
    eexists _, _. split; [exact Heq|]. split; [done|]. left. by split_and!.
  - destruct (Hupd st "pointerhover" true [] eq_refl eq_refl) as (res & Heq & Hr').
    eexists _, _. split; [exact Heq|]. split; [done|]. left. by split_and!.
  - unfold Handlers._onMouseUp. case_bool_decide.
    + destruct (Hupd {| Handlers.dragging := false; Handlers.store := Handlers.store st;
                        Handlers.pointers := Handlers.pointers st |}
                  "pointerup" true
                  [Handlers.addNative Handlers.domElement "mousemove"
                     Handlers.MouseHover;
                   Handlers.removeNative Handlers.document "mousemove"
                     Handlers.MouseMove;
                   Handlers.removeNative Handlers.document "mouseup" Handlers.MouseUp]
                  eq_refl eq_refl) as (res & Heq & Hr').
      eexists _, _. split; [exact Heq|]. split; [done|].
      right. right. by split_and!.
    + exists st, []. split; [done|]. split; [done|]. left. by split_and!.
  - destruct (Hupd st "pointerdown" false [Handlers.preventDefault; Handlers.focus]
                eq_refl eq_refl) as (res & Heq & Hr').
    eexists _, _. split; [exact Heq|]. split; [done|]. left.
    split_and!; try done. intros [? | [? | [? | ?]]]; done.
  - destruct (Hupd st "pointermove" false [Handlers.preventDefault] eq_refl eq_refl)
      as (res & Heq & Hr').
    eexists _, _. split; [exact Heq|]. split; [done|]. left. by split_and!.
  - destruct (Hupd st "pointerhover" false [] eq_refl eq_refl) as (res & Heq & Hr').
    eexists _, _. split; [exact Heq|]. split; [done|]. left. by split_and!.
  - destruct (Hupd st "pointerup" false [] eq_refl eq_refl) as (res & Heq & Hr').
    eexists _, _. split; [exact Heq|]. split; [done|]. left.
    split_and!; try done. intros [? | [? | [? | ?]]]; done.
Qed.

Lemma presses_app (e1 e2 : list Handlers.Effect) :
  presses (e1 ++ e2) = presses e1 ++ presses e2.
Proof.
  induction e1 as [|e e1 IH]; [done|]. simpl.
  destruct e; try done.
  destruct (String.eqb _ "pointerdown"); [by rewrite IH|].
  destruct (String.eqb _ "pointerup"); by rewrite IH.
Qed.

(** Any succession of calls as the browser makes them. *)
Lemma deliver_spec (calls : list (Handlers.Closure * Rect * Event)) :
  forall (att : list Attachment) (st : Handlers.State),
    reachable (Handlers.store st) (Handlers.pointers st) ->
    attached_for (Handlers.dragging st) att ->
    exists att' st' effects,
      deliver att st calls = Some (att', st', effects) /\
      reachable (Handlers.store st') (Handlers.pointers st') /\
      attached_for (Handlers.dragging st') att' /\
      (Forall mouse_call calls ->
       alternating (negb (Handlers.dragging st)) (presses effects)).
Proof.
  induction calls as [|[[closure rect] event] calls IH]; intros att st Hr Hatt.
  { exists att, st, []. by split_and!. }
  simpl. case_bool_decide as Hin.
  - destruct (handle_step closure st rect event Hr)
      as (st1 & e1 & H1 & Hr1 & Hcase).
    rewrite H1.
    destruct Hcase as [(Hd & Hsame & Hp) | [(-> & Hd & Hd1 & Hnew & Hp)
                                          | (-> & Hd1 & Hnew & Hp)]].
    + destruct (IH att st1 Hr1) as (att2 & st2 & e2 & H2 & Hr2 & Hatt2 & Halt);
        [by rewrite Hd|].
      rewrite Hsame, H2. exists att2, st2, (e1 ++ e2). split_and!; try done.
      intros [[Hm _] Hall]%Forall_cons. simpl in Hm.
      rewrite presses_app, (Hp Hm). simpl. rewrite <- Hd. by apply Halt.
    + destruct (IH (foldl apply_effect att e1) st1 Hr1)
        as (att2 & st2 & e2 & H2 & Hr2 & Hatt2 & Halt).
      { rewrite Hd1, Hnew. apply attached_for_press. by rewrite <- Hd. }
      rewrite H2. exists att2, st2, (e1 ++ e2). split_and!; try done.
      intros [_ Hall]%Forall_cons.
      rewrite presses_app, Hp, Hd. simpl. split; [done|].
      rewrite Hd1 in Halt. by apply Halt.
    + destruct (IH (foldl apply_effect att e1) st1 Hr1)
        as (att2 & st2 & e2 & H2 & Hr2 & Hatt2 & Halt).
      { rewrite Hd1, Hnew. by eapply attached_for_release. }
      rewrite H2. exists att2, st2, (e1 ++ e2). split_and!; try done.
      intros [_ Hall]%Forall_cons.
      rewrite presses_app, Hp, (attached_release_dragging _ _ Hatt Hin). simpl.
      split; [done|]. rewrite Hd1 in Halt. by apply Halt.
  - destruct (IH att st Hr Hatt) as (att2 & st2 & e2 & H2 & Hr2 & Hatt2 & Halt).
    exists att2, st2, e2. split_and!; try done.
    intros [_ Hall]%Forall_cons. by apply Halt.
Qed.

(** X21. The native listeners follow the [dragging] flag.  After any
    succession of calls of the mouse and touch closures that the browser can
    make on a new instance (it calls only closures that are attached), the
    calls all return and: while [dragging] is true [_onMouseMove] and
    [_onMouseUp] are attached to the document and [_onMouseHover] is
    detached from the element; while it is false it is the other way
    round; the closures for [mousedown] and the touch events stay
    attached. *)
Theorem X_native_listeners_follow_dragging
    (calls : list (Handlers.Closure * Rect * Event)) (h : Heap) (domElement : Element) :
  exists att st effects,
    deliver initially_attached (Handlers.initial h domElement) calls
    = Some (att, st, effects) /\
    attached_for (Handlers.dragging st) att.
Proof.
  destruct (deliver_spec calls initially_attached (Handlers.initial h domElement))
    as (att & st & effects & H & _ & Hatt & _).
  - apply reach_new.
  - apply initially_attached_for.
  - by exists att, st, effects.
Qed.

(** X22. With the mouse alone, presses and releases take turns: in the
    pointer events dispatched over any succession of calls of the mouse
    closures that the browser can make on a new instance, the first of the
    [pointerdown] and [pointerup] events is a [pointerdown], and a
    [pointerdown] is always followed by a [pointerup] before the next
    [pointerdown], and conversely.  A press while dragging only prevents the
    default action, and a release with a button still held does nothing:
    neither changes the state or dispatches an event. *)
Theorem X_mouse_presses_alternate
    (calls : list (Handlers.Closure * Rect * Event)) (h : Heap) (domElement : Element) :
  Forall mouse_call calls ->
  (exists att st effects,
     deliver initially_attached (Handlers.initial h domElement) calls
     = Some (att, st, effects) /\
     alternating true (presses effects))
  /\ (forall st rect event,
        Handlers.dragging st = true ->
        Handlers._onMouseDown st rect event = Some (st, [Handlers.preventDefault]))
  /\ (forall st rect event,
        ev_buttons event <> Some 0 ->
        Handlers._onMouseUp st rect event = Some (st, [])).
Proof.
  intros Hall. split; [|split].
  - destruct (deliver_spec calls initially_attached (Handlers.initial h domElement))
      as (att & st & effects & H & _ & _ & Halt).
    + apply reach_new.
    + apply initially_attached_for.
    + exists att, st, effects. split; [done|]. by apply Halt.
  - intros st rect event Hd. unfold Handlers._onMouseDown. by rewrite Hd.
  - intros st rect event Hb. unfold Handlers._onMouseUp.
    by rewrite bool_decide_false.
Qed.

Lemma mouse_session_calls : Forall mouse_call mouse_session.
Proof.
  unfold mouse_session.
  repeat (apply Forall_cons; split; [split; [simpl; auto 6|reflexivity]|]).
  constructor.
Defined.

Lemma X_mouse_presses_alternate_witness :
  Forall mouse_call mouse_session
  /\ (exists att st effects,
        deliver initially_attached (Handlers.initial [] Scenario.div1) mouse_session
        = Some (att, st, effects) /\
        alternating true (presses effects))
  /\ (forall st rect event,
        Handlers.dragging st = true ->
        Handlers._onMouseDown st rect event = Some (st, [Handlers.preventDefault]))
  /\ (forall st rect event,
        ev_buttons event <> Some 0 ->
        Handlers._onMouseUp st rect event = Some (st, [])).
Proof.
  split; [exact mouse_session_calls|].
  apply (X_mouse_presses_alternate mouse_session [] Scenario.div1).
  exact mouse_session_calls.
Defined.

(** The presses and releases of [mouse_session], and its last attachments. *)
Example mouse_session_presses :
  (fun r => (presses r.2, Handlers.dragging r.1.2, length r.1.1))
    <$> deliver initially_attached (Handlers.initial [] Scenario.div1) mouse_session
  = Some ([true; false], false, 6%nat).
Proof. vm_compute. reflexivity. Qed.

(** ** Pointers that stay where they are *)

Lemma dist2_zero (h : Heap) (a b : Ref) :
  dist2 h a b <= 0 -> position h a = position h b.
Proof.
  unfold dist2, position. cbv zeta.
  generalize (Pointer.x (deref h a)) (Pointer.x (deref h b))
             (Pointer.y (deref h a)) (Pointer.y (deref h b)).
  intros xa xb ya yb H.
  pose proof (Z.square_nonneg (xa - xb)) as Hx.
  pose proof (Z.square_nonneg (ya - yb)) as Hy.
  assert ((xa - xb) * (xa - xb) = 0) as Hx0 by lia.
  assert ((ya - yb) * (ya - yb) = 0) as Hy0 by lia.
  apply Z.mul_eq_0 in Hx0, Hy0. f_equal; lia.
Qed.

Lemma dist2_same_position (h : Heap) (a b : Ref) :
  position h a = position h b -> dist2 h a b = 0.
Proof. unfold dist2, position. simpl. intros [= -> ->]. ring. Qed.

Lemma dist2_nonneg (h : Heap) (a b : Ref) : 0 <= dist2 h a b.
Proof.
  unfold dist2. cbv zeta.
  pose proof (Z.square_nonneg (Pointer.x (deref h a) - Pointer.x (deref h b))).
  pose proof (Z.square_nonneg (Pointer.y (deref h a) - Pointer.y (deref h b))).
  lia.
Qed.

(** Only pointers at the same place are at distance 0. *)
Lemma distance_zero (h : Heap) (a b : Ref) :
  distance h a b <= 0 -> position h a = position h b.
Proof.
  unfold distance. intros H. apply dist2_zero.
  pose proof (dist2_nonneg h a b).
  destruct (Z_le_gt_dec (dist2 h a b) 0) as [|Hpos]; [done|].
  pose proof (rounded_pos (dist2 h a b)). lia.
Qed.

Lemma distance_same_position (h : Heap) (a b : Ref) :
  position h a = position h b -> distance h a b = 0.
Proof. intros H. unfold distance. by rewrite (dist2_same_position h a b H). Qed.

Lemma position_same_positions (h h' : Heap) (r : Ref) :
  same_positions h h' -> position h r = position h' r.
Proof. intros H. unfold position. by destruct (H r) as [-> ->]. Qed.

Lemma NoDup_fmap_inj_on (f : Ref -> Z * Z) (l : list Ref) (x y : Ref) :
  NoDup (f <$> l) -> x ∈ l -> y ∈ l -> f x = f y -> x = y.
Proof.
  intros Hnd [i Hi]%list_elem_of_lookup_1 [j Hj]%list_elem_of_lookup_1 Hf.
  assert (i = j) as ->; [|congruence].
  eapply (NoDup_lookup _ i j (f x) Hnd).
  - by rewrite list_lookup_fmap, Hi.
  - by rewrite list_lookup_fmap, Hj, Hf.
Qed.

(** When the pointers to visit sit, one for one and in order, where the
    previous pointers sit, all at different places, the second loop pairs
    them in order and consumes all of [previous]. *)
Lemma match_loop_stationary (this : list Ref) (h0 : Heap) :
  NoDup (position h0 <$> this) ->
  forall (todo prev : list Ref) (h : Heap) (m : list (Ref * Ref)),
    (forall r, r ∈ todo -> r ∈ this) ->
    position h0 <$> todo = position h0 <$> prev ->
    NoDup (position h0 <$> prev) ->
    same_positions h h0 ->
    exists h',
      PointerArray.match_loop h this todo prev m = Some (h', [], m ++ zip todo prev).
Proof.
  intros Hthis. induction todo as [|n rest IH]; intros prev h m Hsub Hpos Hnd Hsame.
  { destruct prev; [|done]. exists h. simpl. by rewrite app_nil_r. }
  destruct prev as [|p prest]; [done|]. rewrite !fmap_cons in Hpos.
  assert (position h0 n = position h0 p) as Hnp by congruence.
  assert (position h0 <$> rest = position h0 <$> prest) as Hrest by congruence.
  clear Hpos.
  apply NoDup_cons in Hnd as Hnd'. destruct Hnd' as [_ Hndrest].
  simpl. 
  destruct (getClosest_cons h n p prest) as (i & c & Hc & Hi & Hmin & _).
  rewrite Hc. apply list_elem_of_lookup_2 in Hi.
  assert (c = p) as ->.
  { apply (NoDup_fmap_inj_on (position h0) (p :: prest)); [done|done|left|].
    rewrite <- !(position_same_positions h h0) by done.
    rewrite <- (position_same_positions h h0) in Hnp by done.
    rewrite <- (position_same_positions h h0 p) in Hnp by done.
    rewrite <- Hnp. symmetry. apply distance_zero.
    rewrite <- (distance_same_position h n p Hnp). apply Hmin. left. }
  assert (n ∈ this) as Hn by (apply Hsub; left).
  assert (getClosest h p this = Some n) as Hback.
  { destruct this as [|t ts] eqn:Ethis; [inversion Hn|]. rewrite <- Ethis in *.
    assert (exists i' n', getClosest h p this = Some n' /\ this !! i' = Some n' /\
              forall q, q ∈ this -> distance h p n' <= distance h p q)
      as (i' & n' & Hn' & Hi' & Hmin').
    { rewrite Ethis. destruct (getClosest_cons h p t ts) as (i' & n' & ? & ? & ? & _).
      by exists i', n'. }
    rewrite Hn'. f_equal.
    apply (NoDup_fmap_inj_on (position h0) this); [done| |done|].
    { by eapply list_elem_of_lookup_2. }
    rewrite <- !(position_same_positions h h0) by done.
    rewrite <- (position_same_positions h h0) in Hnp by done.
    rewrite <- (position_same_positions h h0 p) in Hnp by done.
    rewrite Hnp. symmetry. apply distance_zero.
    specialize (Hmin' n Hn).
    rewrite (distance_sym h p n), (distance_same_position h n p Hnp) in Hmin'. done. }
  rewrite bool_decide_true by done.
  assert (splice1 (p :: prest) (indexOf (p :: prest) p) = prest) as ->.
  { unfold indexOf. simpl. rewrite Nat.eqb_refl.
    apply (splice1_nat (p :: prest) 0). simpl. lia. }
  destruct (IH prest (<[n := Pointer.update (deref h n) (deref h p)]> h)
              (m ++ [(n, p)])) as (h' & Hloop); try done.
  { intros r Hr. apply Hsub. by right. }
  { eapply same_positions_trans; [apply same_positions_update|done]. }
  exists h'. rewrite Hloop. simpl. by rewrite <- app_assoc.
Qed.

Lemma created_positions (h : Heap) (news : list Pointer.t) :
  position (h ++ news) <$> seq (length h) (length news)
  = recorded_position <$> news.
Proof.
  apply list_eq. intros k. rewrite !list_lookup_fmap.
  destruct (decide (k < length news)%nat) as [Hlt|Hge].
  - rewrite lookup_seq_lt by done.
    destruct (lookup_lt_is_Some_2 news k Hlt) as [P HP]. rewrite HP. simpl.
    unfold position, recorded_position, deref.
    rewrite lookup_total_app_r by lia.
    replace (length h + k - length h)%nat with k by lia.
    by rewrite (list_lookup_total_correct _ _ _ HP).
  - rewrite lookup_seq_ge by lia. by rewrite lookup_ge_None_2 by lia.
Qed.

Lemma old_positions (h : Heap) (news : list Pointer.t) (l : list Ref) :
  (forall r, r ∈ l -> (r < length h)%nat) ->
  position (h ++ news) <$> l = position h <$> l.
Proof.
  intros Hin. apply list_fmap_ext. intros i r Hr.
  unfold position, deref. rewrite lookup_total_app_l; [done|].
  apply Hin. by eapply list_elem_of_lookup_2.
Qed.

(** A call whose samples sit where the pointers of the array sit. *)
Lemma update_stationary (h : Heap) (a : PointerArray.t) (rect : Rect)
    (event : Event) (type : string) (res : PointerArray.Result) :
  wf h a ->
  NoDup (position h <$> PointerArray.elems a) ->
  recorded_position <$> news_of a rect event type false
    = position h <$> PointerArray.elems a ->
  PointerArray.update h a rect event type false = Some res ->
  PointerArray.matched res
    = zip (PointerArray.elems (PointerArray.self res)) (PointerArray.elems a)
  /\ PointerArray.removed (PointerArray.self res) = []
  /\ position (h ++ news_of a rect event type false)
       <$> PointerArray.elems (PointerArray.self res)
     = position h <$> PointerArray.elems a.
Proof.
  intros [Hnd Hin] Hdistinct Hsame. unfold PointerArray.update, news_of in *.
  simpl. rewrite capture_captured. simpl.
  set (news := captured _ _ _ _ _ _ _ _) in *.
  rewrite <- (captured_length (PointerArray.target a) rect event type
                (PointerArray.pointerType_of event) (PointerArray.buttons_of event) 0).
  fold news. set (this1 := seq (length h) (length news)).
  assert (position (h ++ news) <$> this1 = position h <$> PointerArray.elems a)
    as Hpos by (unfold this1; by rewrite created_positions).
  destruct (match_loop_stationary this1 (h ++ news)) with
    (todo := this1) (prev := PointerArray.elems a) (h := h ++ news)
    (m := @nil (Ref * Ref)) as (h' & Hloop).
  - by rewrite Hpos.
  - done.
  - by rewrite Hpos, old_positions.
  - by rewrite old_positions.
  - done.
  - rewrite Hloop. simpl. intros [= <-]. simpl. done.
Qed.

(** X24. Pointers that do not move keep everything: when the pointers of
    the array sit at pairwise different positions and the call captures one
    sample at each of these positions, in the same order, every new pointer
    is matched to the previous pointer at its index, nothing is removed, and
    each new pointer has the identity and origin of its predecessor and
    zero movement. *)
Theorem X_stationary_pointers_keep_identity (h : Heap) (a : PointerArray.t)
    (rect : Rect) (event : Event) (type : string) :
  reachable h a ->
  NoDup (position h <$> PointerArray.elems a) ->
  recorded_position <$> news_of a rect event type false
    = position h <$> PointerArray.elems a ->
  exists res,
    PointerArray.update h a rect event type false = Some res /\
    PointerArray.matched res
      = zip (PointerArray.elems (PointerArray.self res)) (PointerArray.elems a) /\
    length (PointerArray.elems (PointerArray.self res))
      = length (PointerArray.elems a) /\
    PointerArray.removed (PointerArray.self res) = [] /\
    forall n p, (n, p) ∈ PointerArray.matched res ->
      let N := deref (PointerArray.heap res) n in
      let P := deref h p in
      Pointer.pointerID N = Pointer.pointerID P /\
      Pointer.startX N = Pointer.startX P /\ Pointer.startY N = Pointer.startY P /\
      Pointer.movementX N = 0 /\ Pointer.movementY N = 0.
Proof.
  intros Hr Hdistinct Hsame. pose proof (reachable_wf _ _ Hr) as Hwf.
  destruct (update_spec_news h a rect event type false Hwf) as (res & Hres & F).
  destruct (update_stationary h a rect event type res Hwf Hdistinct Hsame Hres)
    as (Hm & Hrem & Hpos).
  exists res. split; [done|]. split; [done|]. split.
  { rewrite (uf_elems _ _ _ _ _ _ _ _ F), length_seq.
    rewrite <- (length_fmap recorded_position), Hsame. apply length_fmap. }
  split; [done|]. intros n p Hnp. simpl.
  rewrite (uf_rebased _ _ _ _ _ _ _ _ F _ _ Hnp). simpl.
  split; [done|]. split; [done|]. split; [done|].
  rewrite Hm in Hnp.
  apply elem_of_lookup_zip_with in Hnp as (k & n' & p' & [= <- <-] & Hkn & Hkp).
  apply (f_equal (fun l => l !! k)) in Hpos.
  rewrite !list_lookup_fmap, Hkn, Hkp in Hpos. simpl in Hpos.
  unfold position in Hpos. injection Hpos as Hx Hy. lia.
Qed.

Lemma X_stationary_pointers_keep_identity_witness :
  reachable (PointerArray.heap two_down) (PointerArray.self two_down)
  /\ NoDup (position (PointerArray.heap two_down)
              <$> PointerArray.elems (PointerArray.self two_down))
  /\ recorded_position
       <$> news_of (PointerArray.self two_down) Scenario.origin stay "pointermove" false
     = position (PointerArray.heap two_down)
         <$> PointerArray.elems (PointerArray.self two_down)
  /\ exists res,
       PointerArray.update (PointerArray.heap two_down) (PointerArray.self two_down)
         Scenario.origin stay "pointermove" false = Some res /\
       PointerArray.matched res
         = zip (PointerArray.elems (PointerArray.self res))
               (PointerArray.elems (PointerArray.self two_down)) /\
       length (PointerArray.elems (PointerArray.self res))
         = length (PointerArray.elems (PointerArray.self two_down)) /\
       PointerArray.removed (PointerArray.self res) = [] /\
       forall n p, (n, p) ∈ PointerArray.matched res ->
         let N := deref (PointerArray.heap res) n in
         let P := deref (PointerArray.heap two_down) p in
         Pointer.pointerID N = Pointer.pointerID P /\
         Pointer.startX N = Pointer.startX P /\ Pointer.startY N = Pointer.startY P /\
         Pointer.movementX N = 0 /\ Pointer.movementY N = 0.
Proof.
  assert (NoDup (position (PointerArray.heap two_down)
                   <$> PointerArray.elems (PointerArray.self two_down))) as Hnd.
  { vm_compute. repeat constructor; rewrite ?elem_of_cons, ?elem_of_nil;
      intros H; repeat destruct H as [H|H]; try discriminate; done. }
  split; [exact two_down_reachable|]. split; [exact Hnd|]. split; [reflexivity|].
  apply (X_stationary_pointers_keep_identity (PointerArray.heap two_down)
           (PointerArray.self two_down) Scenario.origin stay "pointermove").
  - exact two_down_reachable.
  - exact Hnd.
  - reflexivity.
Defined.

(** ** clone *)

(** X25. [clone] returns a new object and leaves the original and every
    other object as they are, and a later write to a field of the original
    or of the copy leaves the other as it is (the two only refer to the
    same target element). *)
Theorem X_clone_is_independent (h : Heap) (r : Ref) :
  (r < length h)%nat ->
  let h' := (clone h r).1 in
  let copy := (clone h r).2 in
  copy <> r /\
  (forall q, (q < length h)%nat -> deref h' q = deref h q) /\
  deref h' copy = Pointer.clone_value (deref h r) /\
  (forall P, deref (<[r := P]> h') copy = deref h' copy) /\
  (forall P, deref (<[copy := P]> h') r = deref h r).
Proof.
  intros Hr. unfold clone, alloc, deref. simpl. split_and!.
  - lia.
  - intros q Hq. by rewrite lookup_total_app_l.
  - by rewrite (list_lookup_total_middle h [] _ (length h) eq_refl).
  - intros P. rewrite list_lookup_total_insert_ne by lia. done.
  - intros P. rewrite list_lookup_total_insert_ne by lia.
    by rewrite lookup_total_app_l.
Qed.

Lemma X_clone_is_independent_witness :
  (0 < length (PointerArray.heap two_down))%nat
  /\ (let h' := (clone (PointerArray.heap two_down) 0%nat).1 in
      let copy := (clone (PointerArray.heap two_down) 0%nat).2 in
      copy <> 0%nat /\
      (forall q, (q < length (PointerArray.heap two_down))%nat ->
                 deref h' q = deref (PointerArray.heap two_down) q) /\
      deref h' copy = Pointer.clone_value (deref (PointerArray.heap two_down) 0%nat) /\
      (forall P, deref (<[0%nat := P]> h') copy = deref h' copy) /\
      (forall P, deref (<[copy := P]> h') 0%nat
                 = deref (PointerArray.heap two_down) 0%nat)).
Proof.
  split; [vm_compute; lia|].
  apply (X_clone_is_independent (PointerArray.heap two_down) 0%nat).
  vm_compute. lia.
Defined.
